(** * QXChain post-quantum core: Kyber1024 KEM and the Dilithium-like signatures

    Shallow embedding of [crypto/kyber.py], [crypto/signatures.py] and
    [crypto/quantum_signatures.py].  Python [bytes] are lists of [byte],
    Python [int]s are [Z], Python lists of ints are [list Z].  Every
    operation that can raise in Python (indexing, [int.to_bytes], unary
    minus on a list) returns in the [result] monad. *)

From Stdlib Require Import ZArith List Lia Bool Arith.
From Stdlib.Strings Require Import Byte.
Import ListNotations.
Local Open Scope Z_scope.

(** ** Python values and exceptions *)

Definition bytes := list byte.

Definition b2z (b : byte) : Z := Z.of_N (Byte.to_N b).

Definition z2b (z : Z) : byte :=
  match Byte.of_N (Z.to_N (Z.land z 255)) with
  | Some b => b
  | None => x00
  end.

Inductive exn : Type :=
| IndexError
| OverflowError
| TypeError
| ValueError.

Inductive result (A : Type) : Type :=
| Ok (a : A)
| Raise (e : exn).
Arguments Ok {A} a.
Arguments Raise {A} e.

Definition bind {A B : Type} (m : result A) (k : A -> result B) : result B :=
  match m with
  | Ok a => k a
  | Raise e => Raise e
  end.

Notation "x <- m ;; k" := (bind m (fun x => k))
  (at level 61, m at next level, right associativity).
Notation "' p <- m ;; k" := (bind m (fun x => let p := x in k))
  (at level 61, p pattern, m at next level, right associativity).

(** [for x in xs: acc = body(acc, x)] with exceptions. *)
Fixpoint for_each {A S : Type} (xs : list A) (body : S -> A -> result S) (s : S)
  : result S :=
  match xs with
  | [] => Ok s
  | x :: xs' => s' <- body s x ;; for_each xs' body s'
  end.

(** [[f(x) for x in xs]] with exceptions. *)
Fixpoint map_r {A B : Type} (f : A -> result B) (xs : list A) : result (list B) :=
  match xs with
  | [] => Ok []
  | x :: xs' => y <- f x ;; ys <- map_r f xs' ;; Ok (y :: ys)
  end.

(** [range(n)] *)
Definition range (n : nat) : list nat := seq 0 n.

(** [l[i]] for a non-negative index. *)
Definition get {A : Type} (l : list A) (i : nat) : result A :=
  match nth_error l i with
  | Some a => Ok a
  | None => Raise IndexError
  end.

(** [l[i] = v] for a non-negative index. *)
Fixpoint set {A : Type} (l : list A) (i : nat) (v : A) : result (list A) :=
  match l, i with
  | [], _ => Raise IndexError
  | _ :: t, O => Ok (v :: t)
  | h :: t, S i' => t' <- set t i' v ;; Ok (h :: t')
  end.

(** [l[lo:lo+len]]: slicing never raises, it truncates. *)
Definition slice {A : Type} (l : list A) (lo len : nat) : list A :=
  firstn len (skipn lo l).

(** [int.from_bytes(bs, 'little')] *)
Fixpoint from_bytes_le (bs : bytes) : Z :=
  match bs with
  | [] => 0
  | b :: bs' => b2z b + 256 * from_bytes_le bs'
  end.

(** [int.from_bytes(bs, 'little', signed=True)]: two's complement on the
    width of the slice actually given. *)
Definition from_bytes_le_signed (bs : bytes) : Z :=
  let u := from_bytes_le bs in
  let w := 8 * Z.of_nat (length bs) in
  if (0 <? w) && (2 ^ (w - 1) <=? u) then u - 2 ^ w else u.

Fixpoint le_digits (n : nat) (z : Z) : bytes :=
  match n with
  | O => []
  | S n' => z2b z :: le_digits n' (Z.shiftr z 8)
  end.

(** [z.to_bytes(n, 'little')] raises [OverflowError] out of range. *)
Definition to_bytes_le (n : nat) (z : Z) : result bytes :=
  if (0 <=? z) && (z <? 2 ^ (8 * Z.of_nat n)) then Ok (le_digits n z)
  else Raise OverflowError.

(** [z.to_bytes(n, 'little', signed=True)] *)
Definition to_bytes_le_signed (n : nat) (z : Z) : result bytes :=
  let h := 2 ^ (8 * Z.of_nat n - 1) in
  if (n =? 0)%nat then (if z =? 0 then Ok [] else Raise OverflowError)
  else if (- h <=? z) && (z <? h) then Ok (le_digits n (z mod 2 ^ (8 * Z.of_nat n)))
  else Raise OverflowError.

(** [bytes([a, b, ...])] raises [ValueError] outside [range(256)]. *)
Definition bytes_of_ints (l : list Z) : result bytes :=
  map_r (fun z => if (0 <=? z) && (z <? 256) then Ok (z2b z) else Raise ValueError) l.

(** ** hashlib: SHA-3 and SHAKE (FIPS 202)

    [hashlib.sha3_256], [hashlib.shake_128] and [hashlib.shake_256] are the
    Keccak sponge over a 1600-bit state of 25 little-endian 64-bit lanes. *)

Module Keccak.

Definition mask64 : Z := 0xFFFFFFFFFFFFFFFF.

Definition rotl (x : Z) (n : Z) : Z :=
  Z.lor (Z.land (Z.shiftl x n) mask64) (Z.shiftr x (64 - n)).

Definition lane (st : list Z) (x y : nat) : Z :=
  nth (x mod 5 + 5 * (y mod 5))%nat st 0.

Definition rc : list Z :=
  [ 0x0000000000000001; 0x0000000000008082; 0x800000000000808A;
    0x8000000080008000; 0x000000000000808B; 0x0000000080000001;
    0x8000000080008081; 0x8000000000008009; 0x000000000000008A;
    0x0000000000000088; 0x0000000080008009; 0x000000008000000A;
    0x000000008000808B; 0x800000000000008B; 0x8000000000008089;
    0x8000000000008003; 0x8000000000008002; 0x8000000000000080;
    0x000000000000800A; 0x800000008000000A; 0x8000000080008081;
    0x8000000000008080; 0x0000000080000001; 0x8000000080008008 ].

(** rotation offsets, indexed by [x + 5 * y] *)
Definition rot_offsets : list Z :=
  [ 0; 1; 62; 28; 27;
    36; 44; 6; 55; 20;
    3; 10; 43; 25; 39;
    41; 45; 15; 21; 8;
    18; 2; 61; 56; 14 ].

Definition grid {A : Type} (f : nat -> nat -> A) : list A :=
  flat_map (fun y => map (fun x => f x y) (seq 0 5)) (seq 0 5).

Definition theta (st : list Z) : list Z :=
  let c := map (fun x => Z.lxor (lane st x 0) (Z.lxor (lane st x 1)
                 (Z.lxor (lane st x 2) (Z.lxor (lane st x 3) (lane st x 4)))))
               (seq 0 5) in
  let d := map (fun x => Z.lxor (nth ((x + 4) mod 5) c 0)
                                (rotl (nth ((x + 1) mod 5) c 0) 1))
               (seq 0 5) in
  grid (fun x y => Z.lxor (lane st x y) (nth x d 0)).

(** [B[y][2x+3y] = rot(A[x][y], r[x][y])], read backwards: the lane that
    lands at [(X, Y)] comes from [x = (X + 3 Y) mod 5], [y = X]. *)
Definition rho_pi (st : list Z) : list Z :=
  grid (fun X Y =>
          let x := ((X + 3 * Y) mod 5)%nat in
          let y := X in
          rotl (lane st x y) (nth (x + 5 * y) rot_offsets 0)).

Definition chi (st : list Z) : list Z :=
  grid (fun x y =>
          Z.lxor (lane st x y)
                 (Z.land (Z.lxor (lane st (x + 1) y) mask64) (lane st (x + 2) y))).

Definition iota (r : Z) (st : list Z) : list Z :=
  match st with
  | [] => []
  | a :: t => Z.lxor a r :: t
  end.

Definition round (st : list Z) (r : Z) : list Z :=
  iota r (chi (rho_pi (theta st))).

Definition keccak_f (st : list Z) : list Z := fold_left round rc st.

Definition lanes_of_bytes (bs : bytes) : list Z :=
  map (fun i => from_bytes_le (slice bs (8 * i) 8)) (seq 0 25).

Definition bytes_of_lanes (st : list Z) : bytes :=
  flat_map (fun i => le_digits 8 (nth i st 0)) (seq 0 25).

Definition xor_block (st : list Z) (blk : bytes) : list Z :=
  map (fun i => Z.lxor (nth i st 0) (nth i (lanes_of_bytes blk) 0)) (seq 0 25).

(** multi-rate padding: domain suffix, zeros, final [0x80] *)
Definition pad (rate : nat) (suffix : Z) (msg : bytes) : bytes :=
  let r := (length msg mod rate)%nat in
  let z := (rate - r - 1)%nat in
  match z with
  | O => msg ++ [z2b (Z.lor suffix 0x80)]
  | S z' => msg ++ [z2b suffix] ++ repeat x00 z' ++ [x80]
  end.

Fixpoint absorb (nblocks rate : nat) (st : list Z) (data : bytes) : list Z :=
  match nblocks with
  | O => st
  | S k => absorb k rate (keccak_f (xor_block st (firstn rate data))) (skipn rate data)
  end.

Fixpoint squeeze (nblocks rate : nat) (st : list Z) : bytes :=
  match nblocks with
  | O => []
  | S k => firstn rate (bytes_of_lanes st) ++ squeeze k rate (keccak_f st)
  end.

Definition sponge (rate : nat) (suffix : Z) (msg : bytes) (outlen : nat) : bytes :=
  let p := pad rate suffix msg in
  let st := absorb (length p / rate) rate (repeat 0 25) p in
  firstn outlen (squeeze (S (outlen / rate)) rate st).

End Keccak.

(** [hashlib.shake_128(data).digest(length)] *)
Definition shake_128 (data : bytes) (length : nat) : bytes :=
  Keccak.sponge 168 0x1F data length.

(** [hashlib.shake_256(data).digest(length)] *)
Definition shake_256 (data : bytes) (length : nat) : bytes :=
  Keccak.sponge 136 0x1F data length.

(** [hashlib.sha3_256(data).digest()] *)
Definition sha3_256 (data : bytes) : bytes :=
  Keccak.sponge 136 0x06 data 32.

(** ** Loops *)

(** a [for] loop whose body may [break] *)
Inductive ctl (S : Type) : Type :=
| Next (s : S)
| Break (s : S).
Arguments Next {S} s.
Arguments Break {S} s.

Fixpoint for_break {A S : Type} (xs : list A) (body : S -> A -> result (ctl S)) (s : S)
  : result S :=
  match xs with
  | [] => Ok s
  | x :: xs' =>
      c <- body s x ;;
      match c with
      | Next s' => for_break xs' body s'
      | Break s' => Ok s'
      end
  end.

(** [range(0, n, step)] *)
Definition range_step (n step : nat) : list nat :=
  map (fun k => (k * step)%nat) (seq 0 ((n + step - 1) / step)).

(** [range(lo, hi)] *)
Definition range_from (lo hi : nat) : list nat := seq lo (hi - lo).

(** The inner loop shared by every unpack routine:
    [for j in range(N): coeff = int.from_bytes(data[offset:offset+w], 'little', signed=...);
     poly.append(coeff); offset += w]. *)
Definition read_poly (n w : nat) (signed : bool) (data : bytes) (offset : nat)
  : list Z * nat :=
  fold_left
    (fun '(poly, offset) _ =>
       let coeff := if signed then from_bytes_le_signed (slice data offset w)
                    else from_bytes_le (slice data offset w) in
       (poly ++ [coeff], (offset + w)%nat))
    (range n) ([], offset).

(** The outer loop: [for i in range(k): poly = []; ...; vec.append(poly)]. *)
Definition read_vec (k n w : nat) (signed : bool) (data : bytes) (offset : nat)
  : list (list Z) * nat :=
  fold_left
    (fun '(vec, offset) _ =>
       let '(poly, offset') := read_poly n w signed data offset in
       (vec ++ [poly], offset'))
    (range k) ([], offset).

(** [for poly in v: for coeff in poly: data += coeff.to_bytes(w, 'little', signed=...)] *)
Definition write_poly (w : nat) (signed : bool) (data : bytes) (poly : list Z)
  : result bytes :=
  for_each poly
    (fun data coeff =>
       bs <- (if signed then to_bytes_le_signed w coeff else to_bytes_le w coeff) ;;
       Ok (data ++ bs))
    data.

Definition write_vec (w : nat) (signed : bool) (data : bytes) (v : list (list Z))
  : result bytes :=
  for_each v (write_poly w signed) data.

(** ** Ring arithmetic, shared verbatim by the three classes

    [N] and [Q] are the class constants. *)

Section PolyRing.

Variable N : nat.
Variable Q : Z.

Definition _poly_add (a b : list Z) : result (list Z) :=
  map_r (fun i => x <- get a i ;; y <- get b i ;; Ok ((x + y) mod Q)) (range N).

Definition _poly_sub (a b : list Z) : result (list Z) :=
  map_r (fun i => x <- get a i ;; y <- get b i ;; Ok ((x - y) mod Q)) (range N).

Definition _poly_mul (a b : list Z) : result (list Z) :=
  for_each (range N)
    (fun result i =>
       for_each (range N)
         (fun result j =>
            if (i + j <? N)%nat then
              r <- get result (i + j) ;;
              x <- get a i ;;
              y <- get b j ;;
              set result (i + j) ((r + x * y) mod Q)
            else
              r <- get result (i + j - N) ;;
              x <- get a i ;;
              y <- get b j ;;
              set result (i + j - N) ((r - x * y) mod Q))
         result)
    (repeat 0 N).

Definition _vector_add (a b : list (list Z)) : result (list (list Z)) :=
  map_r (fun i => x <- get a i ;; y <- get b i ;; _poly_add x y) (range (length a)).

Definition _vector_sub (a b : list (list Z)) : result (list (list Z)) :=
  map_r (fun i => x <- get a i ;; y <- get b i ;; _poly_sub x y) (range (length a)).

Definition _vector_dot_product (a b : list (list Z)) : result (list Z) :=
  for_each (range (length a))
    (fun result i =>
       x <- get a i ;;
       y <- get b i ;;
       poly_prod <- _poly_mul x y ;;
       _poly_add result poly_prod)
    (repeat 0 N).

Definition _matrix_vector_mul (A : list (list (list Z))) (v : list (list Z))
  : result (list (list Z)) :=
  map_r
    (fun i =>
       for_each (range (length v))
         (fun poly_sum j =>
            row <- get A i ;;
            aij <- get row j ;;
            vj <- get v j ;;
            poly_prod <- _poly_mul aij vj ;;
            _poly_add poly_sum poly_prod)
         (repeat 0 N))
    (range (length A)).

Definition _matrix_transpose_vector_mul (A : list (list (list Z))) (v : list (list Z))
  : result (list (list Z)) :=
  row0 <- get A 0 ;;
  map_r
    (fun j =>
       for_each (range (length A))
         (fun poly_sum i =>
            row <- get A i ;;
            aij <- get row j ;;
            vi <- get v i ;;
            poly_prod <- _poly_mul aij vi ;;
            _poly_add poly_sum poly_prod)
         (repeat 0 N))
    (range (length row0)).

(** [[cls._poly_mul(c, v[i]) for i in range(len(v))]] *)
Definition _scalar_vector_mul (c : list Z) (v : list (list Z)) : result (list (list Z)) :=
  map_r (fun i => vi <- get v i ;; _poly_mul c vi) (range (length v)).

(** [_cbd(stream, eta)] is the same text in kyber.py and quantum_signatures.py. *)
Definition cbd_bit (stream : bytes) (bit_pos : nat) (acc : Z) : result Z :=
  let byte_pos := (bit_pos / 8)%nat in
  let bit_offset := (bit_pos mod 8)%nat in
  if (byte_pos <? length stream)%nat then
    s <- get stream byte_pos ;;
    Ok (acc + Z.land (Z.shiftr (b2z s) (Z.of_nat bit_offset)) 1)
  else Ok acc.

Definition _cbd (stream : bytes) (eta : nat) : result (list Z) :=
  for_each (range N)
    (fun poly i =>
       ab <- for_each (range eta)
               (fun '(a, b) j =>
                  a' <- cbd_bit stream (2 * eta * i + j) a ;;
                  b' <- cbd_bit stream (2 * eta * i + eta + j) b ;;
                  Ok (a', b'))
               (0, 0) ;;
       set poly i ((fst ab - snd ab) mod Q))
    (repeat 0 N).

(** The 12-bit rejection sampler, the same text in kyber.py and
    quantum_signatures.py, applied to the XOF stream. *)
Definition uniform_from_stream (stream : bytes) : result (list Z) :=
  pj <- for_break (range_step (length stream) 3)
          (fun '(poly, j) i =>
             if (N <=? j)%nat then Ok (Break (poly, j))
             else
               s0 <- get stream i ;;
               s1 <- get stream (i + 1) ;;
               d1 <- Ok (b2z s0 + 256 * (b2z s1 mod 16)) ;;
               s1' <- get stream (i + 1) ;;
               s2 <- get stream (i + 2) ;;
               d2 <- Ok (b2z s1' / 16 + 16 * b2z s2) ;;
               pj1 <- (if d1 <? Q then p <- set poly j d1 ;; Ok (p, S j)
                       else Ok (poly, j)) ;;
               pj2 <- (if (d2 <? Q) && (snd pj1 <? N)%nat
                       then p <- set (fst pj1) (snd pj1) d2 ;; Ok (p, S (snd pj1))
                       else Ok pj1) ;;
               Ok (Next pj2))
          (repeat 0 N, 0%nat) ;;
  Ok (fst pj).

End PolyRing.

(** ** crypto/kyber.py *)

Module Kyber1024.

Definition N : nat := 256.
Definition Q : Z := 3329.
Definition K : nat := 4.
Definition ETA1 : nat := 2.
Definition ETA2 : nat := 2.

Definition _shake128 (data : bytes) (length : nat) : bytes := shake_128 data length.
Definition _sha3_256 (data : bytes) : bytes := sha3_256 data.
Definition _kdf (data : bytes) : bytes := sha3_256 data.

Definition _poly_add := _poly_add N Q.
Definition _poly_sub := _poly_sub N Q.
Definition _poly_mul := _poly_mul N Q.
Definition _vector_add := _vector_add N Q.
Definition _vector_dot_product := _vector_dot_product N Q.
Definition _matrix_vector_mul := _matrix_vector_mul N Q.
Definition _matrix_transpose_vector_mul := _matrix_transpose_vector_mul N Q.
Definition _cbd := _cbd N Q.

Definition _sample_uniform_poly (seed : bytes) : result (list Z) :=
  let stream := _shake128 seed (3 * N) in
  uniform_from_stream N Q stream.

Definition _gen_matrix (rho : bytes) : result (list (list (list Z))) :=
  map_r
    (fun i =>
       map_r
         (fun j =>
            ji <- bytes_of_ints [Z.of_nat j; Z.of_nat i] ;;
            _sample_uniform_poly (rho ++ ji))
         (range K))
    (range K).

Definition _sample_poly_cbd (seed : bytes) (eta k : nat) : result (list (list Z)) :=
  map_r
    (fun i =>
       bi <- bytes_of_ints [Z.of_nat i] ;;
       let stream := _shake128 (seed ++ bi) (64 * eta) in
       _cbd stream eta)
    (range k).

(** [_decode_message]: message bytes to polynomial *)
Definition _decode_message (m : bytes) : result (list Z) :=
  for_each (range 32)
    (fun poly i =>
       for_each (range 8)
         (fun poly j =>
            mi <- get m i ;;
            let bit := Z.land (Z.shiftr (b2z mi) (Z.of_nat j)) 1 in
            if (i * 8 + j <? N)%nat then set poly (i * 8 + j) (bit * (Q / 2))
            else Ok poly)
         poly)
    (repeat 0 N).

(** a [bytearray] store: [ValueError] outside [range(256)] *)
Definition set_byte (m : bytes) (i : nat) (v : Z) : result bytes :=
  if (0 <=? v) && (v <? 256) then set m i (z2b v) else Raise ValueError.

(** [_encode_message]: polynomial to message bytes *)
Definition _encode_message (poly : list Z) : result bytes :=
  for_each (range N)
    (fun m i =>
       p <- get poly i ;;
       let bit := if Q / 2 <? p then 1 else 0 in
       let byte_pos := (i / 8)%nat in
       let bit_pos := (i mod 8)%nat in
       if (byte_pos <? 32)%nat then
         old <- get m byte_pos ;;
         set_byte m byte_pos (Z.lor (b2z old) (Z.shiftl bit (Z.of_nat bit_pos)))
       else Ok m)
    (repeat x00 32).

Definition _pack_public_key (t : list (list Z)) (rho : bytes) : result bytes :=
  write_vec 2 false rho t.

Definition _unpack_public_key (pk : bytes) : list (list Z) * bytes :=
  let rho := firstn 32 pk in
  let '(t, _) := read_vec K N 2 false pk 32 in
  (t, rho).

Definition _pack_private_key (s : list (list Z)) : result bytes :=
  write_vec 2 false [] s.

Definition _unpack_private_key (sk : bytes) : list (list Z) :=
  fst (read_vec K N 2 false sk 0).

Definition _pack_ciphertext (u : list (list Z)) (v : list Z) : result bytes :=
  data <- write_vec 2 false [] u ;;
  write_poly 2 false data v.

Definition _unpack_ciphertext (ct : bytes) : list (list Z) * list Z :=
  let '(u, offset) := read_vec K N 2 false ct 0 in
  let '(v, _) := read_poly N 2 false ct offset in
  (u, v).

(** [keygen], with the [os.urandom(32)] draw as the argument [seed] *)
Definition keygen (seed : bytes) : result (bytes * bytes) :=
  let rho := _shake128 seed 32 in
  let sigma := _shake128 (seed ++ [x01]) 32 in
  A <- _gen_matrix rho ;;
  s <- _sample_poly_cbd sigma ETA1 K ;;
  e <- _sample_poly_cbd (sigma ++ [x01]) ETA1 K ;;
  t <- _matrix_vector_mul A s ;;
  t <- _vector_add t e ;;
  pk <- _pack_public_key t rho ;;
  sk <- _pack_private_key s ;;
  Ok (pk, sk).

(** [encaps], with the [os.urandom(32)] draw as the argument [m] *)
Definition encaps (pk : bytes) (m : bytes) : result (bytes * bytes) :=
  let '(t, rho) := _unpack_public_key pk in
  let r := _shake128 m 32 in
  A <- _gen_matrix rho ;;
  r_vec <- _sample_poly_cbd r ETA1 K ;;
  e1 <- _sample_poly_cbd (r ++ [x01]) ETA2 K ;;
  e2s <- _sample_poly_cbd (r ++ [x02]) ETA2 1 ;;
  e2 <- get e2s 0 ;;
  u <- _matrix_transpose_vector_mul A r_vec ;;
  u <- _vector_add u e1 ;;
  v <- _vector_dot_product t r_vec ;;
  v <- _poly_add v e2 ;;
  dm <- _decode_message m ;;
  v <- _poly_add v dm ;;
  ct <- _pack_ciphertext u v ;;
  let ss := _kdf (m ++ _sha3_256 ct) in
  Ok (ct, ss).


End Kyber1024.

(** ** Shared by the two signature classes *)

Fixpoint bytes_eqb (a b : bytes) : bool :=
  match a, b with
  | [], [] => true
  | x :: a', y :: b' => Byte.eqb x y && bytes_eqb a' b'
  | _, _ => false
  end.

Fixpoint ints_eqb (a b : list Z) : bool :=
  match a, b with
  | [], [] => true
  | x :: a', y :: b' => (x =? y) && ints_eqb a' b'
  | _, _ => false
  end.

(** [try: body except Exception: return False]; every [exn] modelled here
    is a subclass of [Exception]. *)
Definition try_except_false (body : result bool) : result bool :=
  match body with
  | Ok b => Ok b
  | Raise _ => Ok false
  end.

(** [coeff = 0; for k in range(n): if i + k < len(stream): coeff += stream[i + k] << (8 * k)] *)
Definition gather (n : nat) (stream : bytes) (i : nat) : result Z :=
  for_each (range n)
    (fun coeff k =>
       if (i + k <? length stream)%nat then
         s <- get stream (i + k) ;;
         Ok (coeff + Z.shiftl (b2z s) (8 * Z.of_nat k))
       else Ok coeff)
    0.

(** The outcome of a [while True] loop run with bounded fuel: [None] when the
    loop is still running after [fuel] iterations. *)
Definition running {A : Type} : option (result A) := None.
Definition finished {A : Type} (r : result A) : option (result A) := Some r.

(** ** crypto/signatures.py *)

Module Signatures.

Definition N : nat := 256.
Definition Q : Z := 8380417.
Definition K : nat := 4.
Definition L : nat := 4.
Definition ETA : nat := 2.
Definition TAU : nat := 39.
Definition BETA : Z := 78.
Definition GAMMA1 : Z := Z.shiftl 1 17.
Definition GAMMA2 : Z := (Q - 1) / 88.

Definition _shake256 (data : bytes) (length : nat) : bytes := shake_256 data length.
Definition _sha3_256 (data : bytes) : bytes := sha3_256 data.

Definition _poly_add := _poly_add N Q.
Definition _poly_sub := _poly_sub N Q.
Definition _poly_mul := _poly_mul N Q.
Definition _vector_add := _vector_add N Q.
Definition _vector_sub := _vector_sub N Q.
Definition _matrix_vector_mul := _matrix_vector_mul N Q.
Definition _scalar_vector_mul := _scalar_vector_mul N Q.

(** the 5-byte sampler on the XOF stream *)
Definition uniform_from_stream (stream : bytes) : result (list Z) :=
  pj <- for_break (range_step (length stream) 5)
          (fun '(poly, j) i =>
             if (N <=? j)%nat then Ok (Break (poly, j))
             else
               coeff <- gather 5 stream i ;;
               let coeff := coeff mod Q in
               if coeff <? Q then p <- set poly j coeff ;; Ok (Next (p, S j))
               else Ok (Next (poly, j)))
          (repeat 0 N, 0%nat) ;;
  Ok (fst pj).

Definition _sample_uniform_poly (seed : bytes) : result (list Z) :=
  let stream := _shake256 seed (5 * N) in
  uniform_from_stream stream.

Definition _expand_A (rho : bytes) : result (list (list (list Z))) :=
  map_r
    (fun i =>
       map_r
         (fun j =>
            ji <- bytes_of_ints [Z.of_nat j; Z.of_nat i] ;;
            _sample_uniform_poly (rho ++ ji))
         (range L))
    (range K).

(** the Fisher-Yates pass of [_sample_in_ball] on the XOF stream; [tau <= N]
    at every call site *)
Definition in_ball_from_stream (stream : bytes) (tau : nat) : result (list Z) :=
  signs <- get stream 0 ;;
  pp <- for_each (range_from (N - tau) N)
          (fun '(poly, pos) i =>
             sp <- get stream pos ;;
             let j := Z.to_nat (b2z sp mod (Z.of_nat i + 1)) in
             pj <- get poly j ;;
             poly <- set poly i pj ;;
             let bit := Z.land (Z.shiftr (b2z signs) (Z.of_nat (i - (N - tau)))) 1 in
             poly <- set poly j (if bit =? 0 then -1 else 1) ;;
             Ok (poly, S pos))
          (repeat 0 N, 8%nat) ;;
  Ok (fst pp).

Definition _sample_in_ball (seed : bytes) (tau : nat) : result (list Z) :=
  let stream := _shake256 seed (8 + tau) in
  in_ball_from_stream stream tau.

Definition mask_from_stream (stream : bytes) : result (list Z) :=
  for_each (range N)
    (fun poly j =>
       coeff <- gather 3 stream (j * 3) ;;
       let coeff := coeff mod (2 * GAMMA1) in
       let coeff := coeff - GAMMA1 in
       Ok (poly ++ [coeff]))
    [].

Definition _sample_mask (seed : bytes) (l : nat) : result (list (list Z)) :=
  map_r
    (fun i =>
       bi <- bytes_of_ints [Z.of_nat i] ;;
       let stream := _shake256 (seed ++ bi) (N * 3) in
       mask_from_stream stream)
    (range l).

Definition _infinity_norm (v : list (list Z)) : Z :=
  fold_left
    (fun max_norm poly =>
       fold_left
         (fun max_norm coeff =>
            let norm := Z.abs coeff in
            if max_norm <? norm then norm else max_norm)
         poly max_norm)
    v 0.

Definition _high_bits (v : list (list Z)) : list (list Z) :=
  map (map (fun coeff => coeff / (2 * GAMMA2))) v.

Definition _low_bits (v : list (list Z)) : list (list Z) :=
  map (map (fun coeff => coeff mod (2 * GAMMA2))) v.

Definition _make_hint (c : list Z) (w cs2 : list (list Z)) : result (list Z) :=
  for_each (range (length w))
    (fun hint i =>
       poly_hint <- for_each (range N)
                      (fun poly_hint j =>
                         wi <- get w i ;;
                         wij <- get wi j ;;
                         let w_high := wij / (2 * GAMMA2) in
                         wi' <- get w i ;;
                         wij' <- get wi' j ;;
                         ci <- get cs2 i ;;
                         cij <- get ci j ;;
                         let w_cs2_high := (wij' - cij) / (2 * GAMMA2) in
                         Ok (poly_hint ++ [if w_high =? w_cs2_high then 0 else 1]))
                      [] ;;
       Ok (hint ++ poly_hint))
    [].

Definition _use_hint (h : list Z) (w : list (list Z)) : result (list (list Z)) :=
  rh <- for_each (range (length w))
          (fun '(result, hint_idx) i =>
             ph <- for_each (range N)
                     (fun '(poly, hint_idx) j =>
                        hinted <- (if (hint_idx <? length h)%nat
                                   then hv <- get h hint_idx ;; Ok (negb (hv =? 0))
                                   else Ok false) ;;
                        wi <- get w i ;;
                        wij <- get wi j ;;
                        if hinted : bool then
                          let high := wij / (2 * GAMMA2) in
                          Ok (poly ++ [high + 1], S hint_idx)
                        else Ok (poly ++ [wij / (2 * GAMMA2)], S hint_idx))
                     ([], hint_idx) ;;
             Ok (result ++ [fst ph], snd ph))
          ([], 0%nat) ;;
  Ok (fst rh).

Definition _pack_public_key (rho : bytes) (t : list (list Z)) : result bytes :=
  write_vec 4 false rho t.

Definition _unpack_public_key (pk : bytes) : bytes * list (list Z) :=
  let rho := firstn 32 pk in
  let '(t, _) := read_vec K N 4 false pk 32 in
  (rho, t).

Definition _pack_private_key (rho K_seed : bytes) (s1 s2 t : list (list Z))
  : result bytes :=
  data <- write_vec 4 true (rho ++ K_seed) s1 ;;
  data <- write_vec 4 true data s2 ;;
  write_vec 4 false data t.

Definition _unpack_private_key (sk : bytes)
  : bytes * bytes * list (list Z) * list (list Z) * list (list Z) :=
  let rho := firstn 32 sk in
  let K_seed := slice sk 32 32 in
  let '(s1, offset) := read_vec L N 4 true sk 64 in
  let '(s2, offset) := read_vec K N 4 true sk offset in
  let '(t, _) := read_vec K N 4 false sk offset in
  (rho, K_seed, s1, s2, t).

(** [hint_bytes[i // 8] |= 1 << (i % 8)] for every set bit of [h] *)
Definition pack_hint (h : list Z) : result bytes :=
  r <- for_each h
         (fun '(hint_bytes, i) bit =>
            if bit =? 0 then Ok (hint_bytes, S i)
            else
              old <- get hint_bytes (i / 8) ;;
              let v := Z.lor (b2z old) (Z.shiftl 1 (Z.of_nat (i mod 8))) in
              if (0 <=? v) && (v <? 256)
              then hb <- set hint_bytes (i / 8) (z2b v) ;; Ok (hb, S i)
              else Raise ValueError)
         (repeat x00 ((length h + 7) / 8), 0%nat) ;;
  Ok (fst r).

Definition _pack_signature (c_tilde : bytes) (z : list (list Z)) (h : list Z)
  : result bytes :=
  data <- write_vec 4 true c_tilde z ;;
  hint_bytes <- pack_hint h ;;
  Ok (data ++ hint_bytes).

Definition _unpack_signature (sig : bytes) : result (bytes * list (list Z) * list Z) :=
  let c_tilde := firstn 32 sig in
  let '(z, offset) := read_vec L N 4 true sig 32 in
  let hint_size := (K * N)%nat in
  let hint_bytes := slice sig offset ((hint_size + 7) / 8) in
  h <- for_each (range hint_size)
         (fun h i =>
            let byte_idx := (i / 8)%nat in
            let bit_idx := (i mod 8)%nat in
            if (byte_idx <? length hint_bytes)%nat then
              hb <- get hint_bytes byte_idx ;;
              Ok (h ++ [Z.land (Z.shiftr (b2z hb) (Z.of_nat bit_idx)) 1])
            else Ok (h ++ [0]))
         [] ;;
  Ok (c_tilde, z, h).

Definition _pack_w1 (w1 : list (list Z)) : result bytes :=
  write_vec 2 false [] w1.

(** unary minus applied to a list *)
Definition neg_list (c : list Z) : result (list Z) := Raise TypeError.

(** one pass of the [while True] body of [sign]: [Ok None] is [continue],
    [Ok (Some sig)] is [return sig] *)
Definition sign_iteration (rho K_seed : bytes) (s1 s2 : list (list Z)) (mu : bytes)
  (kappa : Z) : result (option bytes) :=
  kb <- to_bytes_le 2 kappa ;;
  let rhoprime := _shake256 (K_seed ++ mu ++ kb) 64 in
  y <- _sample_mask rhoprime L ;;
  A <- _expand_A rho ;;
  w <- _matrix_vector_mul A y ;;
  let w1 := _high_bits w in
  pw1 <- _pack_w1 w1 ;;
  let c_tilde := _sha3_256 (mu ++ pw1) in
  c <- _sample_in_ball c_tilde TAU ;;
  cs1 <- _scalar_vector_mul c s1 ;;
  z <- _vector_add y cs1 ;;
  if GAMMA1 - BETA <=? _infinity_norm z then Ok None
  else
    cs2 <- _scalar_vector_mul c s2 ;;
    d <- _vector_sub w cs2 ;;
    let r0 := _low_bits d in
    if GAMMA2 - BETA <=? _infinity_norm r0 then Ok None
    else
      nc <- neg_list c ;;
      cs2' <- _scalar_vector_mul c s2 ;;
      h <- _make_hint nc w cs2' ;;
      sig <- _pack_signature c_tilde z h ;;
      Ok (Some sig).

(** the loop: a rejected pass runs the next one with [kappa + 1] *)
Fixpoint sign_loop (fuel : nat) (rho K_seed : bytes) (s1 s2 : list (list Z))
  (mu : bytes) (kappa : Z) : option (result bytes) :=
  match fuel with
  | O => running
  | S fuel' =>
      match sign_iteration rho K_seed s1 s2 mu kappa with
      | Raise e => finished (Raise e)
      | Ok (Some sig) => finished (Ok sig)
      | Ok None => sign_loop fuel' rho K_seed s1 s2 mu (kappa + 1)
      end
  end.

Definition sign (fuel : nat) (message sk : bytes) : option (result bytes) :=
  let '(rho, K_seed, s1, s2, t) := _unpack_private_key sk in
  let mu := _sha3_256 message in
  sign_loop fuel rho K_seed s1 s2 mu 0.

Definition verify_body (message signature pk : bytes) : result bool :=
  let '(rho, t) := _unpack_public_key pk in
  u <- _unpack_signature signature ;;
  let '(c_tilde, z, h) := u in
  if GAMMA1 - BETA <=? _infinity_norm z then Ok false
  else
    c <- _sample_in_ball c_tilde TAU ;;
    A <- _expand_A rho ;;
    az <- _matrix_vector_mul A z ;;
    ct <- _scalar_vector_mul c t ;;
    w_prime <- _vector_sub az ct ;;
    w1 <- _use_hint h w_prime ;;
    let mu := _sha3_256 message in
    pw1 <- _pack_w1 w1 ;;
    let c_tilde_prime := _sha3_256 (mu ++ pw1) in
    Ok (bytes_eqb c_tilde c_tilde_prime).

Definition verify (message signature pk : bytes) : result bool :=
  try_except_false (verify_body message signature pk).

End Signatures.

(** ** crypto/quantum_signatures.py *)

Module QuantumSignatures.

Definition N : nat := 256.
Definition Q : Z := 8380417.
Definition K : nat := 4.
Definition L : nat := 4.
Definition ETA : nat := 2.
Definition TAU : nat := 39.
Definition BETA : Z := 78.
Definition GAMMA1 : Z := Z.shiftl 1 17.
Definition GAMMA2 : Z := (Q - 1) / 88.

Definition _shake256 (data : bytes) (length : nat) : bytes := shake_256 data length.

Definition _poly_add := _poly_add N Q.
Definition _poly_sub := _poly_sub N Q.
Definition _poly_mul := _poly_mul N Q.
Definition _vector_add := _vector_add N Q.
Definition _vector_sub := _vector_sub N Q.
Definition _matrix_vector_mul := _matrix_vector_mul N Q.
Definition _cbd := _cbd N Q.

(** [[cls._poly_mul(c, poly) for poly in v]] *)
Definition _scalar_vector_mul (c : list Z) (v : list (list Z)) : result (list (list Z)) :=
  map_r (fun poly => _poly_mul c poly) v.

Definition _sample_uniform_poly (seed : bytes) : result (list Z) :=
  let stream := _shake256 seed (3 * N) in
  uniform_from_stream N Q stream.

Definition _expand_matrix (rho : bytes) : result (list (list (list Z))) :=
  map_r
    (fun i =>
       map_r
         (fun j =>
            ji <- bytes_of_ints [Z.of_nat j; Z.of_nat i] ;;
            _sample_uniform_poly (rho ++ ji))
         (range L))
    (range K).

Definition _sample_in_ball (seed : bytes) (length : nat) : result (list (list Z)) :=
  map_r
    (fun i =>
       bi <- bytes_of_ints [Z.of_nat i] ;;
       let stream := _shake256 (seed ++ bi) 64 in
       _cbd stream ETA)
    (range length).

Definition _sample_gamma1 (stream : bytes) : result (list Z) :=
  for_each (range N)
    (fun poly i =>
       let byte_idx := (i * 5 / 8)%nat in
       if (byte_idx + 4 <? length stream)%nat then
         let val := from_bytes_le (slice stream byte_idx 4) in
         set poly i (val mod (2 * GAMMA1 + 1) - GAMMA1)
       else Ok poly)
    (repeat 0 N).

Definition _sample_mask (seed : bytes) : result (list (list Z)) :=
  map_r
    (fun i =>
       bi <- bytes_of_ints [Z.of_nat i] ;;
       let stream := _shake256 (seed ++ bi) (5 * N) in
       _sample_gamma1 stream)
    (range L).

(** the [while len(positions) < TAU and i < len(stream)] loop on the XOF
    stream, [i] running over [range(len(stream))]; [positions] is the set of
    positions already taken *)
Definition challenge_from_stream (stream : bytes) : result (list Z) :=
  pp <- for_break (range (length stream))
          (fun '(poly, positions) i =>
             if (TAU <=? length positions)%nat then Ok (Break (poly, positions))
             else
               si <- get stream i ;;
               let pos := Z.to_nat (b2z si mod Z.of_nat N) in
               if existsb (Nat.eqb pos) positions then Ok (Next (poly, positions))
               else
                 poly <- set poly pos (if Z.shiftr (b2z si) 7 =? 0 then -1 else 1) ;;
                 Ok (Next (poly, pos :: positions)))
          (repeat 0 N, @nil nat) ;;
  Ok (fst pp).

Definition _sample_challenge (seed : bytes) : result (list Z) :=
  let stream := _shake256 seed 32 in
  challenge_from_stream stream.

Definition _decompose_high (poly : list Z) : list Z :=
  map (fun coeff => (coeff + GAMMA2) / (2 * GAMMA2)) poly.

Definition _decompose_low (poly : list Z) : list Z :=
  map (fun coeff => coeff mod (2 * GAMMA2) - GAMMA2) poly.

Definition _high_bits (v : list (list Z)) : list (list Z) := map _decompose_high v.
Definition _low_bits (v : list (list Z)) : list (list Z) := map _decompose_low v.

(** [True] as soon as one coefficient has [abs(coeff) >= bound] *)
Definition _check_bounds (v : list (list Z)) (bound : Z) : bool :=
  existsb (existsb (fun coeff => bound <=? Z.abs coeff)) v.

Definition _pack_public_key (rho : bytes) (t : list (list Z)) : result bytes :=
  write_vec 3 false rho t.

Definition _unpack_public_key (pk : bytes) : bytes * list (list Z) :=
  let rho := firstn 32 pk in
  let '(t, _) := read_vec K N 3 false pk 32 in
  (rho, t).

Definition _pack_private_key (rho K_bytes : bytes) (s1 s2 t : list (list Z))
  : result bytes :=
  data <- write_vec 2 true (rho ++ K_bytes) s1 ;;
  data <- write_vec 2 true data s2 ;;
  write_vec 3 false data t.

Definition _unpack_private_key (sk : bytes)
  : bytes * bytes * list (list Z) * list (list Z) * list (list Z) :=
  let rho := firstn 32 sk in
  let K_bytes := slice sk 32 32 in
  let '(s1, offset) := read_vec L N 2 true sk 64 in
  let '(s2, offset) := read_vec K N 2 true sk offset in
  let '(t, _) := read_vec K N 3 false sk offset in
  (rho, K_bytes, s1, s2, t).

Definition _pack_signature (c : list Z) (z : list (list Z)) : result bytes :=
  data <- write_poly 1 true [] c ;;
  write_vec 3 true data z.

Definition _unpack_signature (sig : bytes) : list Z * list (list Z) :=
  let c := map (fun i => from_bytes_le_signed (slice sig i 1)) (range N) in
  let '(z, _) := read_vec L N 3 true sig N in
  (c, z).

Definition _pack_w1 (w1 : list (list Z)) : result bytes :=
  write_vec 1 false [] w1.

(** [keygen], with the [os.urandom(32)] draw as the argument [seed] *)
Definition keygen (seed : bytes) : result (bytes * bytes) :=
  let rho := _shake256 seed 32 in
  let rhoprime := _shake256 (seed ++ [x01]) 64 in
  let K_bytes := _shake256 (seed ++ [x02]) 32 in
  A <- _expand_matrix rho ;;
  s1 <- _sample_in_ball (firstn 32 rhoprime) L ;;
  s2 <- _sample_in_ball (skipn 32 rhoprime) K ;;
  t <- _matrix_vector_mul A s1 ;;
  t <- _vector_add t s2 ;;
  pk <- _pack_public_key rho t ;;
  sk <- _pack_private_key rho K_bytes s1 s2 t ;;
  Ok (pk, sk).

(** one pass of the [while True] body of [sign]: [Ok None] is [continue],
    [Ok (Some (c, z))] is [break] *)
Definition sign_iteration (A : list (list (list Z))) (K_bytes : bytes)
  (s1 s2 : list (list Z)) (mu : bytes) (nonce : Z)
  : result (option (list Z * list (list Z))) :=
  nb <- to_bytes_le 2 nonce ;;
  y <- _sample_mask (K_bytes ++ nb) ;;
  w <- _matrix_vector_mul A y ;;
  let w1 := _high_bits w in
  pw1 <- _pack_w1 w1 ;;
  c <- _sample_challenge (mu ++ pw1) ;;
  cs1 <- _scalar_vector_mul c s1 ;;
  z <- _vector_add y cs1 ;;
  if _check_bounds z (GAMMA1 - BETA) then Ok None
  else
    cs2 <- _scalar_vector_mul c s2 ;;
    w_minus_cs2 <- _vector_sub w cs2 ;;
    let r0 := _low_bits w_minus_cs2 in
    if _check_bounds r0 (GAMMA2 - BETA) then Ok None
    else Ok (Some (c, z)).

(** the loop: [continue] leaves [nonce] as it is *)
Fixpoint sign_loop (fuel : nat) (A : list (list (list Z))) (K_bytes : bytes)
  (s1 s2 : list (list Z)) (mu : bytes) (nonce : Z) : option (result bytes) :=
  match fuel with
  | O => running
  | S fuel' =>
      match sign_iteration A K_bytes s1 s2 mu nonce with
      | Raise e => finished (Raise e)
      | Ok (Some (c, z)) => finished (_pack_signature c z)
      | Ok None => sign_loop fuel' A K_bytes s1 s2 mu nonce
      end
  end.

Definition sign (fuel : nat) (message private_key : bytes) : option (result bytes) :=
  let '(rho, K_bytes, s1, s2, t) := _unpack_private_key private_key in
  match
    (A <- _expand_matrix rho ;;
     ppk <- _pack_public_key rho t ;;
     Ok (A, _shake256 (message ++ ppk) 64))
  with
  | Raise e => finished (Raise e)
  | Ok (A, mu) => sign_loop fuel A K_bytes s1 s2 mu 0
  end.

Definition verify_body (message signature public_key : bytes) : result bool :=
  let '(rho, t) := _unpack_public_key public_key in
  let '(c, z) := _unpack_signature signature in
  if negb (_check_bounds z (GAMMA1 - BETA)) then Ok false
  else
    A <- _expand_matrix rho ;;
    let mu := _shake256 (message ++ public_key) 64 in
    Az <- _matrix_vector_mul A z ;;
    ct <- _scalar_vector_mul c t ;;
    w_prime <- _vector_sub Az ct ;;
    let w1_prime := _high_bits w_prime in
    pw1 <- _pack_w1 w1_prime ;;
    c_prime <- _sample_challenge (mu ++ pw1) ;;
    Ok (ints_eqb c c_prime).

Definition verify (message signature public_key : bytes) : result bool :=
  try_except_false (verify_body message signature public_key).

End QuantumSignatures.

(** ** core/block.py

    A Python [str] is represented by its UTF-8 encoding: [a + b] is [a ++ b]
    and [s.encode()] is [s]. *)

(** one lower-case hexadecimal digit *)
Definition hex_digit (d : Z) : byte := z2b (if d <? 10 then 48 + d else 87 + d).

(** [hashlib.sha3_256(data).hexdigest()] *)
Definition hexdigest (data : bytes) : bytes :=
  flat_map (fun b => [hex_digit (b2z b / 16); hex_digit (b2z b mod 16)]) (sha3_256 data).


Section Block.

(** Python's [float]; the methods modelled here do not compute with it *)
Variable float : Type.

Record Transaction : Type := {
  sender : bytes;
  recipient : bytes;
  amount : float;
  fee : float;
  timestamp : float;
  data : option bytes;
  signature : option bytes;
  public_key : option bytes;
  transaction_hash : bytes
}.


(** one round of the [while len(tx_hashes) > 1] loop of
    [Block.calculate_merkle_root] *)
Definition merkle_level (tx_hashes : list bytes) : result (list bytes) :=
  for_each (range_step (length tx_hashes) 2)
    (fun next_level i =>
       left <- get tx_hashes i ;;
       right <- (if (i + 1 <? length tx_hashes)%nat then get tx_hashes (i + 1)
                 else Ok left) ;;
       let combined := left ++ right in
       Ok (next_level ++ [hexdigest combined]))
    [].

Fixpoint merkle_loop (fuel : nat) (tx_hashes : list bytes) : option (result (list bytes)) :=
  match fuel with
  | O => running
  | S fuel' =>
      if (1 <? length tx_hashes)%nat then
        match merkle_level tx_hashes with
        | Ok next_level => merkle_loop fuel' next_level
        | Raise e => finished (Raise e)
        end
      else finished (Ok tx_hashes)
  end.

(** [Block.calculate_merkle_root] on the block's transactions *)
Definition calculate_merkle_root (fuel : nat) (transactions : list Transaction)
  : option (result bytes) :=
  match transactions with
  | [] => finished (Ok (hexdigest []))
  | _ :: _ =>
      match merkle_loop fuel (map transaction_hash transactions) with
      | None => running
      | Some (Ok tx_hashes) => finished (get tx_hashes 0)
      | Some (Raise e) => finished (Raise e)
      end
  end.

End Block.

(** * Specification vocabulary

    The notions the statements below are written with: canonical
    coefficient ranges, the negacyclic convolution as a closed formula,
    shapes of vectors and matrices, and the closed form of the unpack
    loops. *)

Definition zsum (l : list Z) : Z := fold_right Z.add 0 l.

Definition coef (a : list Z) (i : nat) : Z := nth i a 0.

(** every coefficient in [[0, Q)] *)
Definition canonical (Q : Z) (p : list Z) : Prop := Forall (fun x => 0 <= x < Q) p.

(** every coefficient a multiple of [Q] *)
Definition null (Q : Z) (p : list Z) : Prop := Forall (fun x => x mod Q = 0) p.

(** every coefficient one of -1, 0, 1 *)
Definition ternary (p : list Z) : Prop := Forall (fun x => x = -1 \/ x = 0 \/ x = 1) p.

Definition nonzeros (p : list Z) : nat := length (filter (fun x => negb (x =? 0)) p).

Definition coeffs_below (bound : Z) (v : list (list Z)) : Prop :=
  Forall (Forall (fun c => 0 <= c < bound)) v.

Definition is_vec (N k : nat) (v : list (list Z)) : Prop :=
  length v = k /\ Forall (fun p => length p = N) v.

Definition is_matrix (N k l : nat) (A : list (list (list Z))) : Prop :=
  length A = k /\ Forall (is_vec N l) A.

Definition zero_vec (N k : nat) : list (list Z) := repeat (repeat 0 N) k.

Section Spec.
Variable N : nat.
Variable Q : Z.

(** the contribution of [a[i] * b[j]] to coefficient [k] of the product
    modulo [X^N + 1]: the term itself when [i + j < N], its opposite when
    the index wraps around *)
Definition negacyclic_term (a b : list Z) (k i j : nat) : Z :=
  if ((i + j) mod N =? k)%nat then
    if (i + j <? N)%nat then coef a i * coef b j else - (coef a i * coef b j)
  else 0.

Definition negacyclic (a b : list Z) : list Z :=
  map (fun k =>
         zsum (map (fun i => zsum (map (fun j => negacyclic_term a b k i j) (range N)))
                   (range N)) mod Q)
      (range N).

(** a polynomial as the arithmetic returns it *)
Definition good (p : list Z) : Prop := length p = N /\ canonical Q p.

Definition good_vec (k : nat) (v : list (list Z)) : Prop :=
  length v = k /\ Forall good v.

End Spec.

(** [int.from_bytes(..., signed=signed)] *)
Definition conv (signed : bool) (bs : bytes) : Z :=
  if signed then from_bytes_le_signed bs else from_bytes_le bs.

(** the [n] coefficients of width [w] that [read_poly] reads at [off] *)
Definition poly_at (n w : nat) (signed : bool) (data : bytes) (off : nat) : list Z :=
  map (fun j => conv signed (slice data (off + w * j) w)) (range n).

(** the [j]-th 5-byte chunk of the stream of signatures.py's uniform sampler *)
Definition candidate (stream : bytes) (j : nat) : Z := from_bytes_le (slice stream (j * 5) 5).

(** what kyber.py's [_decode_message] returns: coefficients 0 or [Q // 2] *)
Definition two_level (p : list Z) : Prop :=
  length p = Kyber1024.N /\ Forall (fun x => x = 0 \/ x = Kyber1024.Q / 2) p.

(** ** Encodings, ranges and monomials *)

(** [c.to_bytes(w, 'little', signed=signed)] when it does not raise *)
Definition enc (w : nat) (signed : bool) (c : Z) : bytes :=
  le_digits w (if signed then c mod 2 ^ (8 * Z.of_nat w) else c).

(** the integers [to_bytes] accepts on [w] bytes *)
Definition in_range (w : nat) (signed : bool) (c : Z) : Prop :=
  if signed then - 2 ^ (8 * Z.of_nat w - 1) <= c < 2 ^ (8 * Z.of_nat w - 1)
  else 0 <= c < 2 ^ (8 * Z.of_nat w).

Definition all_in_range (w : nat) (signed : bool) (v : list (list Z)) : Prop :=
  Forall (Forall (in_range w signed)) v.

(** a coefficient [(a - b) % Q] with [0 <= a, b <= eta] *)
Definition centered (Q : Z) (eta : nat) (c : Z) : Prop :=
  0 <= c <= Z.of_nat eta \/ Q - Z.of_nat eta <= c < Q.

(** the monomial [X^m] as a list of [N] coefficients *)
Definition monomial (N m : nat) : list Z :=
  map (fun j => if (j =? m)%nat then 1 else 0) (range N).

(** [X^m * a] modulo [X^N + 1] and [Q]: the coefficients of [a] moved up [m]
    places, those that pass the end coming back negated at the start *)
Definition rotate_negate (N : nat) (Q : Z) (a : list Z) (m : nat) : list Z :=
  map (fun k => (if (m <=? k)%nat then coef a (k - m) else - coef a (N + k - m)) mod Q)
      (range N).

(** the largest absolute value of a coefficient, 0 when there is none *)
Definition max_abs (v : list (list Z)) : Z :=
  fold_right Z.max 0 (map Z.abs (concat v)).

(** every coefficient in [[lo, hi)] *)
Definition coeffs_between (lo hi : Z) (v : list (list Z)) : Prop :=
  Forall (Forall (fun c => lo <= c < hi)) v.

(** some coefficient of a sampled vector is above 2, that is [(a - b) % Q]
    with [a < b] *)
Definition has_negative (r : result (list (list Z))) : bool :=
  match r with
  | Ok v => existsb (existsb (fun c => 2 <? c)) v
  | Raise _ => false
  end.

(** the hash that [merkle_level] appends for the pair starting at index [i] *)
Definition pair_hash (tx_hashes : list bytes) (i : nat) : bytes :=
  hexdigest (nth i tx_hashes []
             ++ (if (i + 1 <? length tx_hashes)%nat then nth (i + 1) tx_hashes []
                 else nth i tx_hashes [])).

(** ** Concrete inputs *)

(** a public key of quantum_signatures.py with [rho = 0] and [t = 0] *)
Definition forged_pk : bytes := repeat x00 3104.

(** the packed challenge of the forged signature: the challenge that
    [verify] recomputes for the empty message when [w' = 0] (one byte per
    coefficient, 255 for -1) *)
Definition forged_c_bytes : list Z :=
  [0; 0; 0; 0; 0; 0; 0; 255; 0; 0; 0; 0; 0; 0; 255; 0; 255; 0; 0; 255; 0; 0; 0; 0; 0;
   0; 0; 0; 0; 0; 0; 255; 0; 0; 0; 0; 0; 0; 0; 0; 255; 0; 0; 0; 0; 0; 0; 0; 0; 255; 0;
   0; 0; 0; 0; 0; 0; 0; 0; 0; 0; 0; 0; 0; 0; 0; 255; 0; 255; 0; 0; 0; 0; 0; 0; 0; 255;
   0; 0; 255; 0; 0; 0; 0; 0; 255; 0; 0; 0; 0; 0; 0; 0; 0; 255; 0; 0; 0; 0; 255; 0; 0;
   0; 0; 255; 0; 0; 0; 0; 0; 0; 255; 0; 255; 0; 0; 0; 0; 0; 255; 0; 0; 0; 0; 255; 0; 0;
   0; 0; 0; 0; 0; 0; 0; 0; 0; 0; 0; 0; 1; 0; 0; 0; 0; 0; 0; 0; 0; 0; 0; 0; 0; 0; 0; 0;
   0; 0; 0; 0; 0; 0; 0; 0; 0; 0; 0; 0; 0; 0; 0; 0; 0; 0; 0; 0; 0; 0; 0; 0; 0; 0; 0; 0;
   0; 0; 0; 0; 0; 0; 0; 0; 0; 1; 1; 0; 0; 0; 0; 0; 0; 0; 0; 1; 1; 0; 0; 0; 0; 0; 0; 0;
   0; 0; 0; 0; 0; 0; 0; 0; 0; 0; 0; 0; 1; 0; 0; 0; 0; 0; 0; 0; 0; 0; 0; 0; 0; 0; 1; 0;
   0; 0; 0; 1; 0; 0; 0; 0; 0; 0; 0; 1; 0; 0; 0; 0; 0].

(** the challenge followed by a response vector whose first coefficient
    is [Q = 8380417 = 0x7fe001], far beyond [GAMMA1 - BETA] *)
Definition forged_sig : bytes :=
  map z2b forged_c_bytes ++ [x01; xe0; x7f] ++ repeat x00 3069.

Definition forged_c : list Z := map (fun b => if b =? 255 then -1 else b) forged_c_bytes.

Definition forged_z : list (list Z) :=
  (8380417 :: repeat 0 255) :: repeat (repeat 0 256) 3.

(** a private key of quantum_signatures.py with [s1 = s2 = 0] and [t = 0] *)
Definition zero_sk : bytes := repeat x00 (64 + 2048 + 2048 + 3072).

(** a 32-byte string where a packed signature of signatures.py has
    32 + 4096 + 128 bytes *)
Definition truncated_sig : bytes :=
  map z2b [249; 39; 204; 76; 143; 46; 98; 153; 120; 13; 55; 154; 201; 69; 135; 113;
           38; 171; 143; 220; 89; 17; 161; 32; 81; 83; 212; 246; 67; 232; 116; 162].

(** a public key of signatures.py with [rho = 0] and [t = 0] *)
Definition zero_pk : bytes := repeat x00 (32 + 4096).

(** a packed signature of signatures.py whose first response coefficient is
    [2^31 - 1] *)
Definition out_of_bound_sig : bytes := repeat x00 32 ++ [xff; xff; xff; x7f].

(** a transaction of core/block.py carrying the signature [forged_sig] and
    the public key [forged_pk], with the empty string as its hash *)
Definition forged_tx : Transaction unit :=
  {| sender := []; recipient := []; amount := tt; fee := tt; timestamp := tt;
     data := None; signature := Some forged_sig; public_key := Some forged_pk;
     transaction_hash := [] |}.

(** * Verification *)

(* ---- base lemmas ---- *)
Lemma get_nth {A} (l : list A) (i : nat) (d : A) :
  (i < length l)%nat -> get l i = Ok (nth i l d).
Proof.
  intro H. unfold get. rewrite (nth_error_nth' l d H). reflexivity.
Qed.

Lemma get_map_seq {A} (f : nat -> A) (n i : nat) :
  (i < n)%nat -> get (map f (seq 0 n)) i = Ok (f i).
Proof.
  intro H. unfold get. rewrite nth_error_map, nth_error_seq.
  destruct (Nat.ltb_spec i n); [reflexivity | lia].
Qed.

Lemma set_spec {A} (l : list A) (i : nat) (v : A) :
  (i < length l)%nat ->
  exists l', set l i v = Ok l' /\ length l' = length l /\
             forall k d, nth k l' d = if (k =? i)%nat then v else nth k l d.
Proof.
  revert i. induction l as [|h t IH]; intros i H; simpl in H; [lia|].
  destruct i as [|i].
  - exists (v :: t). repeat split. intros [|k] d; reflexivity.
  - destruct (IH i) as (t' & E & Hl & Hn); [lia|].
    exists (h :: t'). simpl. rewrite E. simpl. repeat split; [congruence|].
    intros [|k] d; simpl; [reflexivity | apply Hn].
Qed.

Lemma set_map_seq_from {A} (f : nat -> A) (n s i : nat) (v : A) :
  (i < n)%nat ->
  set (map f (seq s n)) i v
  = Ok (map (fun k => if (k =? s + i)%nat then v else f k) (seq s n)).
Proof.
  revert s i. induction n as [|n IH]; intros s i H; [lia|].
  destruct i as [|i]; simpl.
  - rewrite Nat.add_0_r, Nat.eqb_refl. f_equal. f_equal.
    apply map_ext_in. intros k Hk. apply in_seq in Hk.
    destruct (Nat.eqb_spec k s); [lia | reflexivity].
  - rewrite (IH (S s) i) by lia. simpl.
    destruct (Nat.eqb_spec s (s + S i)); [lia|].
    f_equal. f_equal. apply map_ext. intro k.
    replace (S (s + i))%nat with (s + S i)%nat by lia. reflexivity.
Qed.

Lemma set_map_seq {A} (f : nat -> A) (n i : nat) (v : A) :
  (i < n)%nat ->
  set (map f (seq 0 n)) i v = Ok (map (fun k => if (k =? i)%nat then v else f k) (seq 0 n)).
Proof.
  intro H. apply (set_map_seq_from f n 0 i v H).
Qed.

Lemma map_r_ok {A B} (f : A -> result B) (g : A -> B) (xs : list A) :
  (forall x, In x xs -> f x = Ok (g x)) -> map_r f xs = Ok (map g xs).
Proof.
  induction xs as [|x xs IH]; intro H; simpl; [reflexivity|].
  rewrite (H x) by (left; reflexivity). simpl.
  rewrite IH by (intros; apply H; right; assumption). reflexivity.
Qed.

Lemma repeat_map_seq {A} (v : A) (n : nat) : repeat v n = map (fun _ => v) (seq 0 n).
Proof.
  generalize 0%nat. induction n; intro s; simpl; [reflexivity | f_equal; apply IHn].
Qed.

Section PolyRingFacts.
Variable N : nat.
Variable Q : Z.
Hypothesis Q_pos : 0 < Q.

Lemma poly_add_ok (a b : list Z) :
  length a = N -> length b = N ->
  _poly_add N Q a b = Ok (map (fun i => (coef a i + coef b i) mod Q) (range N)).
Proof.
  intros Ha Hb. unfold _poly_add. apply map_r_ok.
  intros i Hi. apply in_seq in Hi.
  rewrite (get_nth a i 0), (get_nth b i 0) by lia. reflexivity.
Qed.

Lemma poly_sub_ok (a b : list Z) :
  length a = N -> length b = N ->
  _poly_sub N Q a b = Ok (map (fun i => (coef a i - coef b i) mod Q) (range N)).
Proof.
  intros Ha Hb. unfold _poly_sub. apply map_r_ok.
  intros i Hi. apply in_seq in Hi.
  rewrite (get_nth a i 0), (get_nth b i 0) by lia. reflexivity.
Qed.

(** inner loop: one row [i] of the schoolbook product *)
Lemma poly_mul_inner (a b : list Z) (i : nat) (js : list nat) :
  length a = N -> length b = N -> (i < N)%nat ->
  (forall j, In j js -> (j < N)%nat) ->
  forall S : nat -> Z,
    for_each js
      (fun result j =>
         if (i + j <? N)%nat then
           r <- get result (i + j) ;;
           x <- get a i ;;
           y <- get b j ;;
           set result (i + j) ((r + x * y) mod Q)
         else
           r <- get result (i + j - N) ;;
           x <- get a i ;;
           y <- get b j ;;
           set result (i + j - N) ((r - x * y) mod Q))
      (map (fun k => S k mod Q) (range N))
    = Ok (map (fun k => (S k + zsum (map (fun j => negacyclic_term N a b k i j) js)) mod Q)
              (range N)).
Proof.
  intros Ha Hb Hi. induction js as [|j js IH]; intros Hjs S.
  - simpl. f_equal. apply map_ext. intro k. f_equal. lia.
  - assert (Hj : (j < N)%nat) by (apply Hjs; left; reflexivity).
    assert (Hjs' : forall j', In j' js -> (j' < N)%nat)
      by (intros j' Hj'; apply Hjs; right; exact Hj').
    cbn [for_each]. unfold range.
    assert (Hstep :
      (if (i + j <? N)%nat
       then r <- get (map (fun k => S k mod Q) (seq 0 N)) (i + j) ;;
            x <- get a i ;; y <- get b j ;;
            set (map (fun k => S k mod Q) (seq 0 N)) (i + j) ((r + x * y) mod Q)
       else r <- get (map (fun k => S k mod Q) (seq 0 N)) (i + j - N) ;;
            x <- get a i ;; y <- get b j ;;
            set (map (fun k => S k mod Q) (seq 0 N)) (i + j - N) ((r - x * y) mod Q))
      = Ok (map (fun k => (S k + negacyclic_term N a b k i j) mod Q) (seq 0 N))).
    { destruct (Nat.ltb_spec (i + j) N) as [Hlt | Hge].
      - rewrite get_map_seq by lia. cbn [bind].
        rewrite (get_nth a i 0), (get_nth b j 0) by lia. cbn [bind].
        rewrite set_map_seq by lia. f_equal.
        apply map_ext_in. intros k Hk. apply in_seq in Hk.
        unfold negacyclic_term.
        rewrite (Nat.mod_small (i + j) N) by lia.
        destruct (Nat.ltb_spec (i + j) N); [|lia].
        destruct (Nat.eqb_spec k (i + j)) as [-> | Hne].
        + rewrite Nat.eqb_refl. fold (coef a i) (coef b j).
          rewrite Z.add_mod_idemp_l by lia. reflexivity.
        + destruct (Nat.eqb_spec (i + j) k); [lia|]. f_equal; lia.
      - rewrite get_map_seq by lia. cbn [bind].
        rewrite (get_nth a i 0), (get_nth b j 0) by lia. cbn [bind].
        rewrite set_map_seq by lia. f_equal.
        apply map_ext_in. intros k Hk. apply in_seq in Hk.
        unfold negacyclic_term.
        assert (Hmod : ((i + j) mod N = i + j - N)%nat).
        { symmetry. apply (Nat.mod_unique (i + j) N 1); lia. }
        rewrite Hmod.
        destruct (Nat.ltb_spec (i + j) N); [lia|].
        destruct (Nat.eqb_spec k (i + j - N)) as [-> | Hne].
        + rewrite Nat.eqb_refl. fold (coef a i) (coef b j).
          rewrite Zminus_mod_idemp_l. f_equal; lia.
        + destruct (Nat.eqb_spec (i + j - N) k); [lia|]. f_equal; lia. }
    rewrite Hstep. cbn [bind].
    fold (range N).
    rewrite (IH Hjs' (fun k => S k + negacyclic_term N a b k i j)).
    f_equal. apply map_ext. intro k. unfold zsum. cbn [map fold_right]. f_equal; lia.
Qed.

Lemma poly_mul_outer (a b : list Z) (rows : list nat) :
  length a = N -> length b = N ->
  (forall i, In i rows -> (i < N)%nat) ->
  forall S : nat -> Z,
    for_each rows
      (fun result i =>
         for_each (range N)
           (fun result j =>
              if (i + j <? N)%nat then
                r <- get result (i + j) ;;
                x <- get a i ;;
                y <- get b j ;;
                set result (i + j) ((r + x * y) mod Q)
              else
                r <- get result (i + j - N) ;;
                x <- get a i ;;
                y <- get b j ;;
                set result (i + j - N) ((r - x * y) mod Q))
           result)
      (map (fun k => S k mod Q) (range N))
    = Ok (map (fun k =>
                 (S k + zsum (map (fun i => zsum (map (fun j => negacyclic_term N a b k i j)
                                                      (range N))) rows)) mod Q)
              (range N)).
Proof.
  intros Ha Hb. induction rows as [|i rows IH]; intros His S.
  - simpl. f_equal. apply map_ext. intro k. f_equal; lia.
  - cbn [for_each].
    rewrite (poly_mul_inner a b i (range N) Ha Hb).
    + cbn [bind]. rewrite IH by (intros i' Hi'; apply His; right; exact Hi').
      f_equal. apply map_ext. intro k. unfold zsum. cbn [map fold_right]. f_equal; lia.
    + apply His. left. reflexivity.
    + intros j Hj. apply in_seq in Hj. lia.
Qed.

Lemma poly_mul_negacyclic (a b : list Z) :
  length a = N -> length b = N ->
  _poly_mul N Q a b = Ok (negacyclic N Q a b).
Proof.
  intros Ha Hb. unfold _poly_mul.
  replace (repeat 0 N) with (map (fun k : nat => (fun _ : nat => 0) k mod Q) (range N)).
  - rewrite (poly_mul_outer a b (range N) Ha Hb).
    + reflexivity.
    + intros i Hi. apply in_seq in Hi. lia.
  - rewrite repeat_map_seq. apply map_ext. intro k. apply Z.mod_0_l. lia.
Qed.

Lemma canonical_map_mod (f : nat -> Z) (l : list nat) :
  canonical Q (map (fun k => f k mod Q) l).
Proof.
  unfold canonical. apply Forall_forall. intros x Hx.
  apply in_map_iff in Hx. destruct Hx as (k & <- & _).
  apply Z.mod_pos_bound. exact Q_pos.
Qed.

Lemma negacyclic_canonical (a b : list Z) :
  length (negacyclic N Q a b) = N /\ canonical Q (negacyclic N Q a b).
Proof.
  split.
  - unfold negacyclic, range. rewrite length_map, length_seq. reflexivity.
  - apply canonical_map_mod.
Qed.

(** every arithmetic operation returns, and returns a canonical polynomial *)
Lemma poly_ops_canonical (a b : list Z) :
  length a = N -> length b = N ->
  (exists r, _poly_add N Q a b = Ok r /\ length r = N /\ canonical Q r) /\
  (exists r, _poly_sub N Q a b = Ok r /\ length r = N /\ canonical Q r) /\
  (exists r, _poly_mul N Q a b = Ok r /\ length r = N /\ canonical Q r).
Proof.
  intros Ha Hb. repeat split.
  - eexists. split; [apply poly_add_ok; assumption|]. split.
    + unfold range. rewrite length_map, length_seq. reflexivity.
    + apply canonical_map_mod.
  - eexists. split; [apply poly_sub_ok; assumption|]. split.
    + unfold range. rewrite length_map, length_seq. reflexivity.
    + apply canonical_map_mod.
  - eexists. split; [apply poly_mul_negacyclic; assumption|].
    apply negacyclic_canonical.
Qed.

End PolyRingFacts.

(* ---- loop invariants ---- *)
Lemma for_each_inv {A S : Type} (P : S -> Prop) (xs : list A)
      (body : S -> A -> result S) (s0 : S) :
  P s0 ->
  (forall s x, In x xs -> P s -> exists s', body s x = Ok s' /\ P s') ->
  exists s', for_each xs body s0 = Ok s' /\ P s'.
Proof.
  revert s0. induction xs as [|x xs IH]; intros s0 H0 Hstep.
  - exists s0. split; [reflexivity | exact H0].
  - destruct (Hstep s0 x (or_introl eq_refl) H0) as (s1 & E & H1).
    cbn [for_each]. rewrite E. cbn [bind].
    apply IH; [exact H1|]. intros s y Hy. apply Hstep. right. exact Hy.
Qed.

Lemma for_break_inv {A S : Type} (P : S -> Prop) (xs : list A)
      (body : S -> A -> result (ctl S)) (s0 : S) :
  P s0 ->
  (forall s x, In x xs -> P s ->
     exists c, body s x = Ok c /\ P (match c with Next s' => s' | Break s' => s' end)) ->
  exists s', for_break xs body s0 = Ok s' /\ P s'.
Proof.
  revert s0. induction xs as [|x xs IH]; intros s0 H0 Hstep.
  - exists s0. split; [reflexivity | exact H0].
  - destruct (Hstep s0 x (or_introl eq_refl) H0) as (c & E & H1).
    cbn [for_break]. rewrite E. cbn [bind]. destruct c as [s1 | s1].
    + apply IH; [exact H1|]. intros s y Hy. apply Hstep. right. exact Hy.
    + exists s1. split; [reflexivity | exact H1].
Qed.

Lemma map_r_inv {A B : Type} (P : B -> Prop) (f : A -> result B) (xs : list A) :
  (forall x, In x xs -> exists y, f x = Ok y /\ P y) ->
  exists ys, map_r f xs = Ok ys /\ length ys = length xs /\ Forall P ys.
Proof.
  induction xs as [|x xs IH]; intro H.
  - exists []. repeat split. constructor.
  - destruct (H x (or_introl eq_refl)) as (y & E & Hy).
    destruct IH as (ys & Eys & Hl & HP); [intros z Hz; apply H; right; exact Hz|].
    exists (y :: ys). cbn [map_r]. rewrite E. cbn [bind]. rewrite Eys. cbn [bind].
    repeat split; [simpl; congruence | constructor; assumption].
Qed.

(* ---- Keccak output length ---- *)
Lemma le_digits_length (n : nat) (z : Z) : length (le_digits n z) = n.
Proof. revert z. induction n; intro z; simpl; [reflexivity | f_equal; apply IHn]. Qed.

Lemma flat_map_length_const {A B} (f : A -> list B) (c : nat) (l : list A) :
  (forall x, length (f x) = c) -> length (flat_map f l) = (c * length l)%nat.
Proof.
  intro H. induction l as [|x l IH]; simpl; [lia|].
  rewrite length_app, H, IH. lia.
Qed.

Lemma bytes_of_lanes_length (st : list Z) : length (Keccak.bytes_of_lanes st) = 200%nat.
Proof.
  unfold Keccak.bytes_of_lanes.
  rewrite (flat_map_length_const _ 8); [rewrite length_seq; reflexivity|].
  intro x. apply le_digits_length.
Qed.

Lemma squeeze_length (k rate : nat) (st : list Z) :
  (rate <= 200)%nat -> length (Keccak.squeeze k rate st) = (k * rate)%nat.
Proof.
  intro H. revert st. induction k as [|k IH]; intro st; simpl; [reflexivity|].
  rewrite length_app, length_firstn, bytes_of_lanes_length, IH. lia.
Qed.

Lemma sponge_length (rate : nat) (suffix : Z) (msg : bytes) (outlen : nat) :
  (0 < rate <= 200)%nat -> length (Keccak.sponge rate suffix msg outlen) = outlen.
Proof.
  intros [H0 H]. unfold Keccak.sponge.
  rewrite length_firstn, squeeze_length by exact H.
  pose proof (Nat.div_mod_eq outlen rate) as E.
  pose proof (Nat.mod_upper_bound outlen rate ltac:(lia)) as B.
  nia.
Qed.

Lemma shake_128_length (data : bytes) (n : nat) : length (shake_128 data n) = n.
Proof. apply sponge_length. lia. Qed.

Lemma shake_256_length (data : bytes) (n : nat) : length (shake_256 data n) = n.
Proof. apply sponge_length. lia. Qed.

Lemma sha3_256_length (data : bytes) : length (sha3_256 data) = 32%nat.
Proof. apply sponge_length. lia. Qed.

(* ---- unpack loops ---- *)
Lemma read_poly_fold (w : nat) (signed : bool) (data : bytes) (xs : list nat) :
  forall (acc : list Z) (off : nat),
    fold_left
      (fun '(poly, offset) _ =>
         let coeff := if signed then from_bytes_le_signed (slice data offset w)
                      else from_bytes_le (slice data offset w) in
         (poly ++ [coeff], (offset + w)%nat))
      xs (acc, off)
    = (acc ++ map (fun j => conv signed (slice data (off + w * j) w)) (seq 0 (length xs)),
       (off + w * length xs)%nat).
Proof.
  induction xs as [|x xs IH]; intros acc off.
  - simpl. rewrite app_nil_r. f_equal. lia.
  - cbn [fold_left length]. rewrite IH.
    cbn [seq map]. rewrite <- seq_shift, map_map, <- app_assoc. cbn [app].
    f_equal.
    + f_equal. f_equal.
      * unfold conv. replace (off + w * 0)%nat with off by lia. reflexivity.
      * apply map_ext. intro j. do 2 f_equal. lia.
    + lia.
Qed.

Lemma read_poly_spec (n w : nat) (signed : bool) (data : bytes) (off : nat) :
  read_poly n w signed data off
  = (map (fun j => conv signed (slice data (off + w * j) w)) (range n), (off + w * n)%nat).
Proof.
  unfold read_poly. rewrite read_poly_fold. unfold range. rewrite length_seq. reflexivity.
Qed.

Lemma read_vec_fold (n w : nat) (signed : bool) (data : bytes) (xs : list nat) :
  forall (acc : list (list Z)) (off : nat),
    fold_left
      (fun '(vec, offset) _ =>
         let '(poly, offset') := read_poly n w signed data offset in
         (vec ++ [poly], offset'))
      xs (acc, off)
    = (acc ++ map (fun i => poly_at n w signed data (off + w * n * i)) (seq 0 (length xs)),
       (off + w * n * length xs)%nat).
Proof.
  induction xs as [|x xs IH]; intros acc off.
  - simpl. rewrite app_nil_r. f_equal. lia.
  - cbn [fold_left length]. rewrite read_poly_spec, IH.
    cbn [seq map]. rewrite <- seq_shift, map_map, <- app_assoc. cbn [app].
    f_equal.
    + f_equal. f_equal.
      * unfold poly_at. replace (off + w * n * 0)%nat with off by lia. reflexivity.
      * apply map_ext. intro i. f_equal. lia.
    + lia.
Qed.

Lemma read_vec_spec (k n w : nat) (signed : bool) (data : bytes) (off : nat) :
  read_vec k n w signed data off
  = (map (fun i => poly_at n w signed data (off + w * n * i)) (range k),
     (off + w * n * k)%nat).
Proof.
  unfold read_vec. rewrite read_vec_fold. unfold range. rewrite length_seq. reflexivity.
Qed.

Lemma is_vec_nth (N k : nat) (v : list (list Z)) (i : nat) :
  is_vec N k v -> (i < k)%nat -> length (nth i v []) = N.
Proof.
  intros [Hl Hf] Hi. rewrite Forall_forall in Hf. apply Hf. apply nth_In. lia.
Qed.

Lemma is_vec_zero (N k : nat) : is_vec N k (zero_vec N k).
Proof.
  split; [apply repeat_length|]. apply Forall_forall. intros p Hp.
  apply repeat_spec in Hp. subst. apply repeat_length.
Qed.

Lemma canonical_zero (Q : Z) (n : nat) : 0 < Q -> canonical Q (repeat 0 n).
Proof.
  intro H. apply Forall_forall. intros x Hx. apply repeat_spec in Hx. lia.
Qed.

Section VectorFacts.
Variable N : nat.
Variable Q : Z.
Hypothesis Q_pos : 0 < Q.

Lemma poly_add_good (a b : list Z) :
  length a = N -> length b = N -> exists r, _poly_add N Q a b = Ok r /\ good N Q r.
Proof.
  intros Ha Hb. destruct (poly_ops_canonical N Q Q_pos a b Ha Hb) as (H & _ & _).
  destruct H as (r & E & Hr). exists r. split; [exact E | exact Hr].
Qed.

Lemma poly_sub_good (a b : list Z) :
  length a = N -> length b = N -> exists r, _poly_sub N Q a b = Ok r /\ good N Q r.
Proof.
  intros Ha Hb. destruct (poly_ops_canonical N Q Q_pos a b Ha Hb) as (_ & H & _).
  destruct H as (r & E & Hr). exists r. split; [exact E | exact Hr].
Qed.

Lemma poly_mul_good (a b : list Z) :
  length a = N -> length b = N -> exists r, _poly_mul N Q a b = Ok r /\ good N Q r.
Proof.
  intros Ha Hb. destruct (poly_ops_canonical N Q Q_pos a b Ha Hb) as (_ & _ & H).
  destruct H as (r & E & Hr). exists r. split; [exact E | exact Hr].
Qed.

Lemma good_vec_is_vec (k : nat) (v : list (list Z)) : good_vec N Q k v -> is_vec N k v.
Proof.
  intros [Hl Hf]. split; [exact Hl|].
  eapply Forall_impl; [|exact Hf]. intros p [Hp _]. exact Hp.
Qed.

Lemma vector_add_good (k : nat) (a b : list (list Z)) :
  is_vec N k a -> is_vec N k b ->
  exists r, _vector_add N Q a b = Ok r /\ good_vec N Q k r.
Proof.
  intros Ha Hb. unfold _vector_add.
  destruct (map_r_inv (good N Q)
              (fun i => x <- get a i ;; y <- get b i ;; _poly_add N Q x y)
              (range (length a))) as (r & E & Hl & Hf).
  - intros i Hi. apply in_seq in Hi. destruct Ha as [Hla Hfa], Hb as [Hlb Hfb].
    rewrite (get_nth a i []), (get_nth b i []) by lia. cbn [bind].
    apply poly_add_good.
    + apply (is_vec_nth N k); [split; assumption | lia].
    + apply (is_vec_nth N k); [split; assumption | lia].
  - exists r. split; [exact E|]. split; [|exact Hf].
    unfold range in Hl. rewrite length_seq in Hl. destruct Ha. lia.
Qed.

Lemma vector_sub_good (k : nat) (a b : list (list Z)) :
  is_vec N k a -> is_vec N k b ->
  exists r, _vector_sub N Q a b = Ok r /\ good_vec N Q k r.
Proof.
  intros Ha Hb. unfold _vector_sub.
  destruct (map_r_inv (good N Q)
              (fun i => x <- get a i ;; y <- get b i ;; _poly_sub N Q x y)
              (range (length a))) as (r & E & Hl & Hf).
  - intros i Hi. apply in_seq in Hi. destruct Ha as [Hla Hfa], Hb as [Hlb Hfb].
    rewrite (get_nth a i []), (get_nth b i []) by lia. cbn [bind].
    apply poly_sub_good.
    + apply (is_vec_nth N k); [split; assumption | lia].
    + apply (is_vec_nth N k); [split; assumption | lia].
  - exists r. split; [exact E|]. split; [|exact Hf].
    unfold range in Hl. rewrite length_seq in Hl. destruct Ha. lia.
Qed.

Lemma good_zero : good N Q (repeat 0 N).
Proof. split; [apply repeat_length | apply canonical_zero; exact Q_pos]. Qed.

Lemma vector_dot_product_good (k : nat) (a b : list (list Z)) :
  is_vec N k a -> is_vec N k b ->
  exists r, _vector_dot_product N Q a b = Ok r /\ good N Q r.
Proof.
  intros Ha Hb. unfold _vector_dot_product.
  apply for_each_inv; [exact good_zero|].
  intros s i Hi [Hs _]. apply in_seq in Hi. destruct Ha as [Hla Hfa], Hb as [Hlb Hfb].
  rewrite (get_nth a i []), (get_nth b i []) by lia. cbn [bind].
  destruct (poly_mul_good (nth i a []) (nth i b [])) as (p & E & [Hp _]).
  - apply (is_vec_nth N k); [split; assumption | lia].
  - apply (is_vec_nth N k); [split; assumption | lia].
  - rewrite E. cbn [bind]. apply poly_add_good; assumption.
Qed.

Lemma matrix_vector_mul_good (k l : nat) (A : list (list (list Z))) (v : list (list Z)) :
  is_matrix N k l A -> is_vec N l v ->
  exists r, _matrix_vector_mul N Q A v = Ok r /\ good_vec N Q k r.
Proof.
  intros [HlA HfA] Hv. unfold _matrix_vector_mul.
  destruct (map_r_inv (good N Q)
              (fun i =>
                 for_each (range (length v))
                   (fun poly_sum j =>
                      row <- get A i ;;
                      aij <- get row j ;;
                      vj <- get v j ;;
                      poly_prod <- _poly_mul N Q aij vj ;;
                      _poly_add N Q poly_sum poly_prod)
                   (repeat 0 N))
              (range (length A))) as (r & E & Hl & Hf).
  - intros i Hi. apply in_seq in Hi.
    apply for_each_inv; [exact good_zero|].
    intros s j Hj [Hs _]. apply in_seq in Hj.
    assert (Hrow : is_vec N l (nth i A [])).
    { rewrite Forall_forall in HfA. apply HfA. apply nth_In. lia. }
    destruct Hv as [Hlv Hfv].
    rewrite (get_nth A i []) by lia. cbn [bind].
    rewrite (get_nth (nth i A []) j []) by (destruct Hrow; lia). cbn [bind].
    rewrite (get_nth v j []) by lia. cbn [bind].
    destruct (poly_mul_good (nth j (nth i A []) []) (nth j v [])) as (p & Ep & [Hp _]).
    + apply (is_vec_nth N l); [exact Hrow | lia].
    + apply (is_vec_nth N l); [split; assumption | lia].
    + rewrite Ep. cbn [bind]. apply poly_add_good; assumption.
  - exists r. split; [exact E|]. split; [|exact Hf].
    unfold range in Hl. rewrite length_seq in Hl. lia.
Qed.

Lemma scalar_vector_mul_good (k : nat) (c : list Z) (v : list (list Z)) :
  length c = N -> is_vec N k v ->
  exists r, _scalar_vector_mul N Q c v = Ok r /\ good_vec N Q k r.
Proof.
  intros Hc [Hlv Hfv]. unfold _scalar_vector_mul.
  destruct (map_r_inv (good N Q) (fun i => vi <- get v i ;; _poly_mul N Q c vi)
              (range (length v))) as (r & E & Hl & Hf).
  - intros i Hi. apply in_seq in Hi.
    rewrite (get_nth v i []) by lia. cbn [bind].
    apply poly_mul_good; [exact Hc|].
    apply (is_vec_nth N k); [split; assumption | lia].
  - exists r. split; [exact E|]. split; [|exact Hf].
    unfold range in Hl. rewrite length_seq in Hl. lia.
Qed.

(** *** products with an operand that vanishes modulo [Q] *)

Lemma zsum_divide (l : list Z) : Forall (fun x => (Q | x)) l -> (Q | zsum l).
Proof.
  induction 1 as [|x l Hx Hl IH]; simpl.
  - apply Z.divide_0_r.
  - apply Z.divide_add_r; assumption.
Qed.

Lemma null_coef (b : list Z) (j : nat) : null Q b -> (Q | coef b j).
Proof.
  intro H. unfold coef. destruct (Nat.lt_ge_cases j (length b)) as [Hj | Hj].
  - unfold null in H. rewrite Forall_forall in H.
    apply Z.mod_divide; [lia|]. apply H. apply nth_In. exact Hj.
  - rewrite nth_overflow by exact Hj. apply Z.divide_0_r.
Qed.

Lemma negacyclic_null_r (a b : list Z) :
  null Q b -> negacyclic N Q a b = repeat 0 N.
Proof.
  intro Hb. unfold negacyclic. rewrite repeat_map_seq. apply map_ext. intro k.
  apply Z.mod_divide; [lia|].
  apply zsum_divide. apply Forall_forall. intros x Hx.
  apply in_map_iff in Hx. destruct Hx as (i & <- & _).
  apply zsum_divide. apply Forall_forall. intros y Hy.
  apply in_map_iff in Hy. destruct Hy as (j & <- & _).
  unfold negacyclic_term.
  destruct ((i + j) mod N =? k)%nat; [|apply Z.divide_0_r].
  destruct (i + j <? N)%nat.
  - apply Z.divide_mul_r. apply null_coef. exact Hb.
  - apply Z.divide_opp_r. apply Z.divide_mul_r. apply null_coef. exact Hb.
Qed.

Lemma poly_mul_null_r (a b : list Z) :
  length a = N -> length b = N -> null Q b -> _poly_mul N Q a b = Ok (repeat 0 N).
Proof.
  intros Ha Hb Hn. rewrite poly_mul_negacyclic by assumption.
  rewrite negacyclic_null_r by exact Hn. reflexivity.
Qed.

Lemma poly_add_zero_zero : _poly_add N Q (repeat 0 N) (repeat 0 N) = Ok (repeat 0 N).
Proof.
  rewrite poly_add_ok by apply repeat_length.
  rewrite repeat_map_seq. f_equal. apply map_ext_in. intros i Hi.
  unfold coef. rewrite <- repeat_map_seq.
  rewrite nth_repeat. apply Z.mod_0_l. lia.
Qed.

Lemma matrix_vector_mul_null (k l : nat) (A : list (list (list Z))) (v : list (list Z)) :
  is_matrix N k l A -> is_vec N l v -> Forall (null Q) v ->
  _matrix_vector_mul N Q A v = Ok (zero_vec N k).
Proof.
  intros [HlA HfA] [Hlv Hfv] Hn. unfold _matrix_vector_mul, zero_vec.
  rewrite (repeat_map_seq (repeat 0 N) k). rewrite HlA.
  apply map_r_ok. intros i Hi. apply in_seq in Hi.
  assert (Hrow : is_vec N l (nth i A [])).
  { rewrite Forall_forall in HfA. apply HfA. apply nth_In. lia. }
  destruct (for_each_inv (fun s => s = repeat 0 N) (range (length v))
              (fun poly_sum j =>
                 row <- get A i ;;
                 aij <- get row j ;;
                 vj <- get v j ;;
                 poly_prod <- _poly_mul N Q aij vj ;;
                 _poly_add N Q poly_sum poly_prod)
              (repeat 0 N) eq_refl) as (s & E & ->); [|exact E].
  intros s j Hj ->. apply in_seq in Hj.
  rewrite (get_nth A i []) by lia. cbn [bind].
  rewrite (get_nth (nth i A []) j []) by (destruct Hrow; lia). cbn [bind].
  rewrite (get_nth v j []) by lia. cbn [bind].
  rewrite poly_mul_null_r.
  - cbn [bind]. exists (repeat 0 N). split; [apply poly_add_zero_zero | reflexivity].
  - apply (is_vec_nth N l); [exact Hrow | lia].
  - apply (is_vec_nth N l); [split; assumption | lia].
  - rewrite Forall_forall in Hn. apply Hn. apply nth_In. lia.
Qed.

Lemma scalar_vector_mul_null (k : nat) (c : list Z) (v : list (list Z)) :
  length c = N -> is_vec N k v -> Forall (null Q) v ->
  _scalar_vector_mul N Q c v = Ok (zero_vec N k).
Proof.
  intros Hc [Hlv Hfv] Hn. unfold _scalar_vector_mul, zero_vec.
  rewrite (repeat_map_seq (repeat 0 N) k). rewrite Hlv.
  apply map_r_ok. intros i Hi. apply in_seq in Hi.
  rewrite (get_nth v i []) by lia. cbn [bind].
  apply poly_mul_null_r; [exact Hc | |].
  - apply (is_vec_nth N k); [split; assumption | lia].
  - rewrite Forall_forall in Hn. apply Hn. apply nth_In. lia.
Qed.

End VectorFacts.

(* ---- bytes ---- *)
Lemma b2z_range (b : byte) : 0 <= b2z b < 256.
Proof.
  unfold b2z. pose proof (Byte.to_N_bounded b) as H.
  lia.
Qed.








Lemma poly_at_length (n w : nat) (s : bool) (data : bytes) (off : nat) :
  length (poly_at n w s data off) = n.
Proof. unfold poly_at, range. rewrite length_map, length_seq. reflexivity. Qed.

Lemma read_vec_is_vec (k n w : nat) (s : bool) (data : bytes) (off : nat) :
  is_vec n k (fst (read_vec k n w s data off)).
Proof.
  rewrite read_vec_spec. cbn [fst]. split.
  - unfold range. rewrite length_map, length_seq. reflexivity.
  - apply Forall_forall. intros p Hp. apply in_map_iff in Hp.
    destruct Hp as (i & <- & _). apply poly_at_length.
Qed.

Module KyberFacts.
Import Kyber1024.









End KyberFacts.


Lemma set_length {A} (l l' : list A) (i : nat) (v : A) :
  set l i v = Ok l' -> length l' = length l.
Proof.
  revert l' i. induction l as [|h t IH]; intros l' i E; [discriminate|].
  destruct i as [|i]; simpl in E.
  - injection E as <-. reflexivity.
  - destruct (set t i v) as [t'|e] eqn:Et; [|discriminate].
    simpl in E. injection E as <-. simpl. f_equal. apply (IH t' i). exact Et.
Qed.

Lemma set_ok {A} (l : list A) (i : nat) (v : A) :
  (i < length l)%nat -> exists l', set l i v = Ok l' /\ length l' = length l.
Proof.
  intro H. destruct (set_spec l i v H) as (l' & E & Hl & _). exists l'. split; assumption.
Qed.

Lemma range_step_in (n step i : nat) :
  (0 < step)%nat -> (n mod step = 0)%nat -> In i (range_step n step) ->
  (i + step <= n)%nat.
Proof.
  intros Hs Hm Hi. unfold range_step in Hi. apply in_map_iff in Hi.
  destruct Hi as (k & <- & Hk). apply in_seq in Hk.
  pose proof (Nat.div_mod_eq n step) as E. rewrite Hm in E.
  assert (Hd : ((n + step - 1) / step = n / step)%nat).
  { symmetry. apply (Nat.div_unique (n + step - 1) step (n / step) (step - 1)); lia. }
  rewrite Hd in Hk. nia.
Qed.

(** the 12-bit sampler of kyber.py and quantum_signatures.py *)
Lemma uniform_from_stream_ok (N : nat) (Q : Z) (stream : bytes) :
  (length stream mod 3 = 0)%nat ->
  exists p, uniform_from_stream N Q stream = Ok p /\ length p = N.
Proof.
  intro Hm. unfold uniform_from_stream.
  destruct (for_break_inv (fun s : list Z * nat => length (fst s) = N)
              (range_step (length stream) 3)
              (fun '(poly, j) i =>
                 if (N <=? j)%nat then Ok (Break (poly, j))
                 else
                   s0 <- get stream i ;;
                   s1 <- get stream (i + 1) ;;
                   d1 <- Ok (b2z s0 + 256 * (b2z s1 mod 16)) ;;
                   s1' <- get stream (i + 1) ;;
                   s2 <- get stream (i + 2) ;;
                   d2 <- Ok (b2z s1' / 16 + 16 * b2z s2) ;;
                   pj1 <- (if d1 <? Q then p <- set poly j d1 ;; Ok (p, S j)
                           else Ok (poly, j)) ;;
                   pj2 <- (if (d2 <? Q) && (snd pj1 <? N)%nat
                           then p <- set (fst pj1) (snd pj1) d2 ;; Ok (p, S (snd pj1))
                           else Ok pj1) ;;
                   Ok (Next pj2))
              (repeat 0 N, 0%nat)) as (s & E & Hs).
  - apply repeat_length.
  - intros [poly j] i Hi Hp. cbn [fst] in Hp.
    apply (range_step_in _ 3) in Hi; [|lia|exact Hm].
    destruct (Nat.leb_spec N j) as [Hj | Hj].
    + eexists. split; [reflexivity | exact Hp].
    + rewrite (get_nth stream i x00), (get_nth stream (i + 1) x00),
        (get_nth stream (i + 2) x00) by lia.
      cbn [bind].
      set (d1 := b2z (nth i stream x00) + 256 * (b2z (nth (i + 1) stream x00) mod 16)).
      set (d2 := b2z (nth (i + 1) stream x00) / 16 + 16 * b2z (nth (i + 2) stream x00)).
      assert (H1 : exists pj1,
                 (if d1 <? Q then p <- set poly j d1 ;; Ok (p, S j) else Ok (poly, j))
                 = Ok pj1 /\ length (fst pj1) = N).
      { destruct (d1 <? Q).
        - destruct (set_ok poly j d1) as (p & Ep & Hl); [lia|].
          rewrite Ep. cbn [bind]. eexists. split; [reflexivity|]. cbn [fst]. lia.
        - eexists. split; [reflexivity | exact Hp]. }
      destruct H1 as (pj1 & E1 & Hl1). rewrite E1. cbn [bind].
      destruct ((d2 <? Q) && (snd pj1 <? N)%nat) eqn:Ec.
      * apply andb_prop in Ec. destruct Ec as [_ Ec]. apply Nat.ltb_lt in Ec.
        destruct (set_ok (fst pj1) (snd pj1) d2) as (p & Ep & Hl); [lia|].
        rewrite Ep. cbn [bind]. eexists. split; [reflexivity|]. cbn [fst]. lia.
      * cbn [bind]. eexists. split; [reflexivity | exact Hl1].
  - rewrite E. cbn [bind]. exists (fst s). split; [reflexivity | exact Hs].
Qed.

Lemma bytes_of_ints_2 (a b : nat) :
  (a < 256)%nat -> (b < 256)%nat ->
  bytes_of_ints [Z.of_nat a; Z.of_nat b] = Ok [z2b (Z.of_nat a); z2b (Z.of_nat b)].
Proof.
  intros Ha Hb. unfold bytes_of_ints. cbn [map_r].
  destruct (Z.leb_spec 0 (Z.of_nat a)); [|lia].
  destruct (Z.ltb_spec (Z.of_nat a) 256); [|lia].
  destruct (Z.leb_spec 0 (Z.of_nat b)); [|lia].
  destruct (Z.ltb_spec (Z.of_nat b) 256); [|lia].
  reflexivity.
Qed.

Lemma bytes_of_ints_1 (a : nat) :
  (a < 256)%nat -> bytes_of_ints [Z.of_nat a] = Ok [z2b (Z.of_nat a)].
Proof.
  intros Ha. unfold bytes_of_ints. cbn [map_r].
  destruct (Z.leb_spec 0 (Z.of_nat a)); [|lia].
  destruct (Z.ltb_spec (Z.of_nat a) 256); [|lia].
  reflexivity.
Qed.

(** a [K] by [L] matrix expanded from per-entry seeds *)
Lemma expand_ok (N K L : nat) (sample : bytes -> result (list Z)) (rho : bytes) :
  (K < 256)%nat -> (L < 256)%nat ->
  (forall seed, exists p, sample seed = Ok p /\ length p = N) ->
  exists A,
    map_r (fun i =>
             map_r (fun j =>
                      ji <- bytes_of_ints [Z.of_nat j; Z.of_nat i] ;;
                      sample (rho ++ ji))
                   (range L))
          (range K) = Ok A /\ is_matrix N K L A.
Proof.
  intros HK HL Hs.
  destruct (map_r_inv (is_vec N L)
              (fun i =>
                 map_r (fun j =>
                          ji <- bytes_of_ints [Z.of_nat j; Z.of_nat i] ;;
                          sample (rho ++ ji))
                       (range L))
              (range K)) as (A & E & Hl & Hf).
  - intros i Hi. apply in_seq in Hi.
    destruct (map_r_inv (fun p : list Z => length p = N)
                (fun j =>
                   ji <- bytes_of_ints [Z.of_nat j; Z.of_nat i] ;;
                   sample (rho ++ ji))
                (range L)) as (row & Er & Hlr & Hfr).
    + intros j Hj. apply in_seq in Hj.
      rewrite bytes_of_ints_2 by lia. cbn [bind]. apply Hs.
    + exists row. split; [exact Er|]. split; [|exact Hfr].
      unfold range in Hlr. rewrite length_seq in Hlr. exact Hlr.
  - exists A. split; [exact E|]. split; [|exact Hf].
    unfold range in Hl. rewrite length_seq in Hl. exact Hl.
Qed.

Lemma for_each_app {A S : Type} (xs ys : list A) (body : S -> A -> result S) (s : S) :
  for_each (xs ++ ys) body s = (s' <- for_each xs body s ;; for_each ys body s').
Proof.
  revert s. induction xs as [|x xs IH]; intro s; simpl; [reflexivity|].
  destruct (body s x); simpl; [apply IH | reflexivity].
Qed.

Lemma from_bytes_le_firstn_S (l : bytes) (n : nat) :
  from_bytes_le (firstn (S n) l)
  = from_bytes_le (firstn n l)
    + match nth_error l n with
      | Some b => Z.shiftl (b2z b) (8 * Z.of_nat n)
      | None => 0
      end.
Proof.
  revert l. induction n as [|n IH]; intros [|b l].
  - reflexivity.
  - cbn [firstn from_bytes_le nth_error]. change (8 * Z.of_nat 0) with 0. rewrite Z.shiftl_0_r. lia.
  - reflexivity.
  - change (firstn (S (S n)) (b :: l)) with (b :: firstn (S n) l).
    change (firstn (S n) (b :: l)) with (b :: firstn n l).
    cbn [from_bytes_le nth_error]. rewrite IH.
    destruct (nth_error l n) as [c|]; [|lia].
    rewrite !Z.shiftl_mul_pow2 by lia.
    replace (8 * Z.of_nat (S n)) with (8 + 8 * Z.of_nat n) by lia.
    rewrite Z.pow_add_r by lia. change (2 ^ 8) with 256. lia.
Qed.

Lemma gather_spec (n : nat) (stream : bytes) (i : nat) :
  gather n stream i = Ok (from_bytes_le (slice stream i n)).
Proof.
  unfold gather, range. induction n as [|n IH].
  - unfold slice. reflexivity.
  - rewrite seq_S, for_each_app, IH. cbn [bind for_each Nat.add].
    unfold slice. rewrite from_bytes_le_firstn_S, nth_error_skipn.
    destruct (Nat.ltb_spec (i + n) (length stream)) as [Hlt | Hge].
    + rewrite (get_nth stream (i + n) x00) by exact Hlt. cbn [bind].
      rewrite (nth_error_nth' stream x00 Hlt). reflexivity.
    + rewrite (proj2 (nth_error_None stream (i + n)) Hge). cbn [bind]. f_equal. lia.
Qed.

Lemma set_app_middle {A} (l1 l2 : list A) (x v : A) :
  set (l1 ++ x :: l2) (length l1) v = Ok (l1 ++ v :: l2).
Proof.
  induction l1 as [|h t IH]; simpl; [reflexivity|]. rewrite IH. reflexivity.
Qed.

Lemma set_after_prefix {A} (f : nat -> A) (k : nat) (l2 : list A) (x v : A) :
  set (map f (seq 0 k) ++ x :: l2) k v = Ok (map f (seq 0 k) ++ v :: l2).
Proof.
  pose proof (set_app_middle (map f (seq 0 k)) l2 x v) as H.
  rewrite length_map, length_seq in H. exact H.
Qed.

Module SignaturesFacts.
Import Signatures.

Lemma uniform_loop (stream : bytes) (m : nat) :
  forall k, (k + m = N)%nat ->
    for_break (map (fun k => (k * 5)%nat) (seq k m))
      (fun '(poly, j) i =>
         if (N <=? j)%nat then Ok (Break (poly, j))
         else
           coeff <- gather 5 stream i ;;
           let coeff := coeff mod Q in
           if coeff <? Q then p <- set poly j coeff ;; Ok (Next (p, S j))
           else Ok (Next (poly, j)))
      (map (fun j => candidate stream j mod Q) (seq 0 k) ++ repeat 0 m, k)
    = Ok (map (fun j => candidate stream j mod Q) (seq 0 N), N).
Proof.
  induction m as [|m IH]; intros k Hk.
  - simpl. rewrite app_nil_r. replace k with N by lia. reflexivity.
  - cbn [seq map for_break].
    destruct (Nat.leb_spec N k) as [H | H]; [lia|].
    rewrite gather_spec. cbn [bind]. fold (candidate stream k).
    destruct (Z.ltb_spec (candidate stream k mod Q) Q) as [Hq | Hq].
    + cbn [repeat].
      rewrite set_after_prefix. cbn [bind].
      rewrite <- (IH (S k)) by lia.
      rewrite seq_S, map_app, <- app_assoc. reflexivity.
    + pose proof (Z.mod_pos_bound (candidate stream k) Q ltac:(reflexivity)). lia.
Qed.

Lemma uniform_from_stream_spec (stream : bytes) :
  length stream = (5 * N)%nat ->
  uniform_from_stream stream = Ok (map (fun j => candidate stream j mod Q) (range N)).
Proof.
  intro Hl. unfold uniform_from_stream, range_step. rewrite Hl.
  replace ((5 * N + 5 - 1) / 5)%nat with N by reflexivity.
  pose proof (uniform_loop stream N 0 eq_refl) as H. cbn [seq map app] in H.
  rewrite H. reflexivity.
Qed.

Lemma sample_uniform_poly_spec (seed : bytes) :
  _sample_uniform_poly seed
  = Ok (map (fun j => candidate (shake_256 seed (5 * N)) j mod Q) (range N)).
Proof.
  unfold _sample_uniform_poly, _shake256.
  apply uniform_from_stream_spec. apply shake_256_length.
Qed.

Lemma sample_uniform_poly_ok (seed : bytes) :
  exists p, _sample_uniform_poly seed = Ok p /\ length p = N.
Proof.
  eexists. split; [apply sample_uniform_poly_spec|].
  unfold range. rewrite length_map, length_seq. reflexivity.
Qed.

Lemma expand_A_ok (rho : bytes) : exists A, _expand_A rho = Ok A /\ is_matrix N K L A.
Proof.
  apply expand_ok; [unfold K; lia | unfold L; lia | apply sample_uniform_poly_ok].
Qed.

End SignaturesFacts.

Lemma for_break_inv_n {A St : Type} (P : nat -> St -> Prop) (xs : list A)
      (body : St -> A -> result (ctl St)) :
  (forall n s x, In x xs -> P n s ->
     exists c, body s x = Ok c /\
               match c with Next s' => P (S n) s' | Break s' => P n s' end) ->
  forall n0 s0, P n0 s0 ->
    exists s' n, for_break xs body s0 = Ok s' /\ (n <= n0 + length xs)%nat /\ P n s'.
Proof.
  induction xs as [|x xs IH]; intros Hstep n0 s0 H0.
  - exists s0, n0. repeat split; [simpl; lia | exact H0].
  - destruct (Hstep n0 s0 x (or_introl eq_refl) H0) as (c & E & Hc).
    cbn [for_break]. rewrite E. cbn [bind]. destruct c as [s1 | s1].
    + destruct (IH (fun n s y Hy => Hstep n s y (or_intror Hy)) (S n0) s1 Hc)
        as (s' & n & E' & Hn & Hp).
      exists s', n. repeat split; [exact E' | simpl; lia | exact Hp].
    + exists s1, n0. repeat split; [simpl; lia | exact Hc].
Qed.

Lemma nonzeros_set (l l' : list Z) (i : nat) (v : Z) :
  set l i v = Ok l' -> (nonzeros l' <= S (nonzeros l))%nat.
Proof.
  revert l' i. induction l as [|h t IH]; intros l' i E; [discriminate|].
  destruct i as [|i]; simpl in E.
  - injection E as <-. unfold nonzeros. simpl.
    destruct (negb (v =? 0)), (negb (h =? 0)); simpl; lia.
  - destruct (set t i v) as [t'|e] eqn:Et; [|discriminate].
    simpl in E. injection E as <-. specialize (IH t' i Et).
    unfold nonzeros in *. simpl. destruct (negb (h =? 0)); simpl; lia.
Qed.

Lemma nonzeros_zero (n : nat) : nonzeros (repeat 0 n) = 0%nat.
Proof. unfold nonzeros. induction n; simpl; [reflexivity | exact IHn]. Qed.

Module QuantumFacts.
Import QuantumSignatures.

Lemma challenge_from_stream_ok (stream : bytes) :
  exists p, challenge_from_stream stream = Ok p /\ length p = N /\
            (nonzeros p <= length stream)%nat.
Proof.
  unfold challenge_from_stream.
  destruct (for_break_inv_n
              (fun n (s : list Z * list nat) =>
                 length (fst s) = N /\ (nonzeros (fst s) <= length (snd s))%nat /\
                 (length (snd s) <= n)%nat)
              (range (length stream))
              (fun '(poly, positions) i =>
                 if (TAU <=? length positions)%nat then Ok (Break (poly, positions))
                 else
                   si <- get stream i ;;
                   let pos := Z.to_nat (b2z si mod Z.of_nat N) in
                   if existsb (Nat.eqb pos) positions then Ok (Next (poly, positions))
                   else
                     poly <- set poly pos (if Z.shiftr (b2z si) 7 =? 0 then -1 else 1) ;;
                     Ok (Next (poly, pos :: positions))))
    with (n0 := 0%nat) (s0 := (repeat 0 N, @nil nat)) as (s & n & E & Hn & Hl & Hz & Hp).
  - intros n [poly positions] i Hi (Hl & Hz & Hp). cbn [fst snd] in *.
    apply in_seq in Hi.
    destruct (TAU <=? length positions)%nat.
    + eexists. split; [reflexivity|]. cbn [fst snd]. auto.
    + rewrite (get_nth stream i x00) by lia. cbn [bind].
      set (b := nth i stream x00).
      set (pos := Z.to_nat (b2z b mod Z.of_nat N)).
      destruct (existsb (Nat.eqb pos) positions).
      * eexists. split; [reflexivity|]. cbn [fst snd]. repeat split; [assumption | assumption | lia].
      * assert (Hpos : (pos < length poly)%nat).
        { rewrite Hl. unfold pos.
          pose proof (Z.mod_pos_bound (b2z b) (Z.of_nat N) ltac:(unfold N; lia)). lia. }
        destruct (set_ok poly pos (if Z.shiftr (b2z b) 7 =? 0 then -1 else 1) Hpos)
          as (p' & Ep & Hl').
        rewrite Ep. cbn [bind]. eexists. split; [reflexivity|]. cbn [fst snd length].
        pose proof (nonzeros_set _ _ _ _ Ep). repeat split; lia.
  - cbn [fst snd]. rewrite repeat_length, nonzeros_zero. simpl. auto.
  - cbv zeta in E. rewrite E. cbn [bind]. exists (fst s). repeat split; [exact Hl|].
    unfold range in Hn. rewrite length_seq in Hn. lia.
Qed.

Lemma sample_challenge_ok (seed : bytes) :
  exists p, _sample_challenge seed = Ok p /\ length p = N /\ (nonzeros p <= 32)%nat.
Proof.
  unfold _sample_challenge.
  destruct (challenge_from_stream_ok (_shake256 seed 32)) as (p & E & Hl & Hz).
  exists p. repeat split; [exact E | exact Hl|].
  unfold _shake256 in Hz. rewrite shake_256_length in Hz. exact Hz.
Qed.

Lemma quantum_sample_uniform_poly_ok (seed : bytes) :
  exists p, _sample_uniform_poly seed = Ok p /\ length p = N.
Proof.
  unfold _sample_uniform_poly. apply uniform_from_stream_ok.
  unfold _shake256. rewrite shake_256_length. reflexivity.
Qed.

Lemma expand_matrix_ok (rho : bytes) :
  exists A, _expand_matrix rho = Ok A /\ is_matrix N K L A.
Proof.
  apply expand_ok; [unfold K; lia | unfold L; lia | apply quantum_sample_uniform_poly_ok].
Qed.

Lemma sample_gamma1_ok (stream : bytes) :
  exists p, _sample_gamma1 stream = Ok p /\ length p = N.
Proof.
  unfold _sample_gamma1. apply for_each_inv; [apply repeat_length|].
  intros poly i Hi Hl. apply in_seq in Hi.
  destruct (i * 5 / 8 + 4 <? length stream)%nat.
  - destruct (set_ok poly i
                (from_bytes_le (slice stream (i * 5 / 8) 4) mod (2 * GAMMA1 + 1) - GAMMA1))
      as (p & E & Hp); [lia|].
    exists p. split; [exact E | lia].
  - exists poly. split; [reflexivity | exact Hl].
Qed.

Lemma sample_mask_ok (seed : bytes) :
  exists y, _sample_mask seed = Ok y /\ is_vec N L y.
Proof.
  unfold _sample_mask.
  destruct (map_r_inv (fun p : list Z => length p = N)
              (fun i =>
                 bi <- bytes_of_ints [Z.of_nat i] ;;
                 let stream := _shake256 (seed ++ bi) (5 * N) in
                 _sample_gamma1 stream)
              (range L)) as (y & E & Hl & Hf).
  - intros i Hi. apply in_seq in Hi. unfold L in Hi.
    rewrite bytes_of_ints_1 by lia. cbn [bind]. apply sample_gamma1_ok.
  - exists y. split; [exact E|]. split; [|exact Hf].
    unfold range in Hl. rewrite length_seq in Hl. exact Hl.
Qed.

End QuantumFacts.

(** C4, as the code of quantum_signatures.py has it: for every seed
    [_sample_challenge] returns a polynomial of [N = 256] coefficients
    with at most 32 nonzero entries, one candidate position per byte of
    its 32-byte stream; the number of nonzero entries is therefore never
    [TAU = 39]. *)
Theorem sample_challenge_has_at_most_32_nonzeros (seed : bytes) :
  exists poly,
    QuantumSignatures._sample_challenge seed = Ok poly /\
    length poly = QuantumSignatures.N /\
    (nonzeros poly <= 32)%nat /\
    nonzeros poly <> QuantumSignatures.TAU.
Proof.
  destruct (QuantumFacts.sample_challenge_ok seed) as (p & E & Hl & Hz).
  exists p. repeat split; [exact E | exact Hl | exact Hz|].
  unfold QuantumSignatures.TAU. lia.
Qed.

Lemma bind_Ok {A B : Type} (a : A) (k : A -> result B) : bind (Ok a) k = k a.
Proof. reflexivity. Qed.

Lemma Forall_forallb {A} (f : A -> bool) (P : A -> Prop) (l : list A) :
  (forall x, f x = true -> P x) -> forallb f l = true -> Forall P l.
Proof.
  intros H E. apply Forall_forall. intros x Hx. apply H.
  apply (proj1 (forallb_forall f l) E x Hx).
Qed.

Lemma is_vec_forallb (N k : nat) (v : list (list Z)) :
  ((length v =? k)%nat && forallb (fun p => (length p =? N)%nat) v) = true -> is_vec N k v.
Proof.
  intro H. apply andb_prop in H. destruct H as [H1 H2]. split.
  - apply Nat.eqb_eq. exact H1.
  - apply (Forall_forallb (fun p => (length p =? N)%nat)); [|exact H2].
    intros p Hp. apply Nat.eqb_eq. exact Hp.
Qed.

Lemma null_vec_forallb (Q : Z) (v : list (list Z)) :
  forallb (forallb (fun x => x mod Q =? 0)) v = true -> Forall (null Q) v.
Proof.
  apply Forall_forallb. intros p Hp.
  apply (Forall_forallb (fun x => x mod Q =? 0)); [|exact Hp].
  intros x Hx. apply Z.eqb_eq. exact Hx.
Qed.

Section ZeroVectors.
Variable N : nat.
Variable Q : Z.
Hypothesis Q_pos : 0 < Q.

Lemma poly_sub_zero_zero : _poly_sub N Q (repeat 0 N) (repeat 0 N) = Ok (repeat 0 N).
Proof.
  rewrite poly_sub_ok by apply repeat_length.
  rewrite repeat_map_seq. f_equal. apply map_ext_in. intros i Hi.
  unfold coef. rewrite <- repeat_map_seq.
  rewrite nth_repeat. apply Z.mod_0_l. lia.
Qed.

Lemma nth_zero_vec (k i : nat) : (i < k)%nat -> nth i (zero_vec N k) [] = repeat 0 N.
Proof.
  intro H. unfold zero_vec.
  rewrite (nth_indep _ [] (repeat 0 N)) by (rewrite repeat_length; exact H).
  apply nth_repeat.
Qed.

Lemma vector_sub_zero_zero (k : nat) :
  _vector_sub N Q (zero_vec N k) (zero_vec N k) = Ok (zero_vec N k).
Proof.
  assert (Hlen : length (zero_vec N k) = k) by apply repeat_length.
  unfold _vector_sub. rewrite Hlen.
  replace (Ok (zero_vec N k)) with (Ok (map (fun _ : nat => repeat 0 N) (range k)))
    by (unfold zero_vec, range; rewrite <- repeat_map_seq; reflexivity).
  apply map_r_ok. intros i Hi. apply in_seq in Hi.
  rewrite (get_nth (zero_vec N k) i []) by (unfold zero_vec; rewrite repeat_length; lia).
  cbn [bind]. rewrite nth_zero_vec by lia. apply poly_sub_zero_zero.
Qed.

Lemma null_zero (n : nat) : null Q (repeat 0 n).
Proof.
  apply Forall_forall. intros x Hx. apply repeat_spec in Hx. subst. apply Z.mod_0_l. lia.
Qed.

Lemma null_zero_vec (k : nat) : Forall (null Q) (zero_vec N k).
Proof.
  apply Forall_forall. intros p Hp. apply repeat_spec in Hp. subst. apply null_zero.
Qed.

End ZeroVectors.

Module QuantumForgery.
Import QuantumSignatures.

(** [[cls._poly_mul(c, poly) for poly in v]] against a vector that vanishes
    modulo [Q] *)
Lemma quantum_scalar_vector_mul_null (k : nat) (c : list Z) (v : list (list Z)) :
  length c = N -> is_vec N k v -> Forall (null Q) v ->
  _scalar_vector_mul c v = Ok (zero_vec N k).
Proof.
  intros Hc [Hl Hf] Hn. unfold _scalar_vector_mul, zero_vec. rewrite <- Hl.
  clear Hl. induction v as [|p v IH]; [reflexivity|].
  inversion Hf; subst. inversion Hn; subst.
  cbn [map_r length repeat]. unfold _poly_mul at 1.
  rewrite poly_mul_null_r by (try assumption; reflexivity). cbn [bind].
  rewrite IH by assumption. reflexivity.
Qed.

Lemma forged_unpack_pk :
  _unpack_public_key forged_pk = (repeat x00 32, zero_vec N K).
Proof. vm_compute. reflexivity. Qed.

Lemma forged_unpack_sig : _unpack_signature forged_sig = (forged_c, forged_z).
Proof. vm_compute. reflexivity. Qed.

Lemma forged_z_out_of_bound : _check_bounds forged_z (GAMMA1 - BETA) = true.
Proof. vm_compute. reflexivity. Qed.

Lemma forged_tail :
  (pw1 <- _pack_w1 (_high_bits (zero_vec N K)) ;;
   c_prime <- _sample_challenge (_shake256 ([] ++ forged_pk) 64 ++ pw1) ;;
   Ok (ints_eqb forged_c c_prime)) = Ok true.
Proof. vm_compute. reflexivity. Qed.

Lemma forged_verify_body : verify_body [] forged_sig forged_pk = Ok true.
Proof.
  unfold verify_body.
  rewrite forged_unpack_pk, forged_unpack_sig, forged_z_out_of_bound. cbn [negb].
  destruct (QuantumFacts.expand_matrix_ok (repeat x00 32)) as (A & EA & HA).
  rewrite EA, bind_Ok.
  unfold _matrix_vector_mul.
  rewrite (matrix_vector_mul_null N Q ltac:(reflexivity) K L A forged_z HA),
    bind_Ok.
  - rewrite (quantum_scalar_vector_mul_null K forged_c (zero_vec N K)), bind_Ok.
    + unfold _vector_sub.
      rewrite (vector_sub_zero_zero N Q ltac:(reflexivity) K), bind_Ok.
      exact forged_tail.
    + reflexivity.
    + apply is_vec_zero.
    + apply null_zero_vec. reflexivity.
  - apply is_vec_forallb. vm_compute. reflexivity.
  - apply null_vec_forallb. vm_compute. reflexivity.
Qed.

End QuantumForgery.

(** C3, as the code of quantum_signatures.py has it: [verify] returns
    [True] on the empty message, the public key [forged_pk] and the
    signature [forged_sig], whose unpacked response vector [forged_z] has
    infinity norm [Q >= GAMMA1 - BETA]; the bound test of [verify] is
    negated, [_check_bounds] being true on that vector. *)
Theorem verify_accepts_out_of_bound_response :
  QuantumSignatures._unpack_signature forged_sig = (forged_c, forged_z) /\
  QuantumSignatures.GAMMA1 - QuantumSignatures.BETA
    <= Signatures._infinity_norm forged_z /\
  QuantumSignatures.verify [] forged_sig forged_pk = Ok true.
Proof.
  split; [apply QuantumForgery.forged_unpack_sig|]. split.
  - vm_compute. discriminate.
  - unfold QuantumSignatures.verify. rewrite QuantumForgery.forged_verify_body. reflexivity.
Qed.

Lemma write_poly_ok (w : nat) (data : bytes) (poly : list Z) :
  Forall (fun c => 0 <= c < 2 ^ (8 * Z.of_nat w)) poly ->
  exists bs, write_poly w false data poly = Ok bs.
Proof.
  intro H. unfold write_poly.
  destruct (for_each_inv (fun _ : bytes => True) poly
              (fun data coeff =>
                 bs <- (if false then to_bytes_le_signed w coeff else to_bytes_le w coeff) ;;
                 Ok (data ++ bs))
              data I) as (bs & E & _).
  - intros s c Hc _. rewrite Forall_forall in H. specialize (H c Hc).
    unfold to_bytes_le.
    destruct (Z.leb_spec 0 c); [|lia].
    destruct (Z.ltb_spec c (2 ^ (8 * Z.of_nat w))); [|lia].
    cbn [andb bind]. eexists. split; [reflexivity | exact I].
  - exists bs. exact E.
Qed.

Lemma write_vec_ok (w : nat) (data : bytes) (v : list (list Z)) :
  coeffs_below (2 ^ (8 * Z.of_nat w)) v -> exists bs, write_vec w false data v = Ok bs.
Proof.
  intro H. unfold write_vec.
  destruct (for_each_inv (fun _ : bytes => True) v (write_poly w false) data I)
    as (bs & E & _).
  - intros s p Hp _. unfold coeffs_below in H. rewrite Forall_forall in H.
    destruct (write_poly_ok w s p (H p Hp)) as (bs & E). exists bs. split; [exact E | exact I].
  - exists bs. exact E.
Qed.

Lemma coeffs_below_map (f : Z -> Z) (Q bound : Z) (k : nat) (v : list (list Z)) :
  (forall c, 0 <= c < Q -> 0 <= f c < bound) ->
  Forall (canonical Q) v -> coeffs_below bound (map (map f) v).
Proof.
  intros Hf Hv. unfold coeffs_below. apply Forall_forall. intros p Hp.
  apply in_map_iff in Hp. destruct Hp as (p0 & <- & Hp0).
  rewrite Forall_forall in Hv. specialize (Hv p0 Hp0).
  apply Forall_forall. intros c Hc. apply in_map_iff in Hc.
  destruct Hc as (c0 & <- & Hc0). apply Hf.
  unfold canonical in Hv. rewrite Forall_forall in Hv. apply Hv. exact Hc0.
Qed.

Lemma good_vec_canonical (N : nat) (Q : Z) (k : nat) (v : list (list Z)) :
  good_vec N Q k v -> Forall (canonical Q) v.
Proof.
  intros [_ H]. eapply Forall_impl; [|exact H]. intros p [_ Hp]. exact Hp.
Qed.

Module QuantumShapes.
Import QuantumSignatures.

Lemma pack_w1_high_bits_ok (k : nat) (w : list (list Z)) :
  good_vec N Q k w -> exists bs, _pack_w1 (_high_bits w) = Ok bs.
Proof.
  intro Hw. unfold _pack_w1. apply write_vec_ok.
  unfold _high_bits, _decompose_high.
  apply (coeffs_below_map _ Q _ k); [|apply (good_vec_canonical N Q k); exact Hw].
  intros c Hc. change (2 ^ (8 * Z.of_nat 1)) with 256.
  unfold Q in Hc. unfold GAMMA2, Q. change ((8380417 - 1) / 88) with 95232.
  split.
  - apply Z.div_pos; lia.
  - apply Z.div_lt_upper_bound; lia.
Qed.

Lemma quantum_scalar_vector_mul_good (k : nat) (c : list Z) (v : list (list Z)) :
  length c = N -> is_vec N k v ->
  exists r, _scalar_vector_mul c v = Ok r /\ good_vec N Q k r.
Proof.
  intros Hc [Hl Hf]. unfold _scalar_vector_mul.
  destruct (map_r_inv (good N Q) (fun poly => _poly_mul c poly) v) as (r & E & Hlr & Hfr).
  - intros p Hp. rewrite Forall_forall in Hf.
    apply (poly_mul_good N Q ltac:(reflexivity)); [exact Hc | apply Hf; exact Hp].
  - exists r. split; [exact E|]. split; [lia | exact Hfr].
Qed.

Lemma quantum_unpack_public_key_shape (pk : bytes) : is_vec N K (snd (_unpack_public_key pk)).
Proof.
  unfold _unpack_public_key.
  pose proof (read_vec_is_vec K N 3 false pk 32) as H.
  destruct (read_vec K N 3 false pk 32) as [t off]. exact H.
Qed.

Lemma unpack_signature_shape (sig : bytes) :
  length (fst (_unpack_signature sig)) = N /\ is_vec N L (snd (_unpack_signature sig)).
Proof.
  unfold _unpack_signature.
  pose proof (read_vec_is_vec L N 3 true sig N) as H.
  destruct (read_vec L N 3 true sig N) as [z off]. cbn [fst snd]. split; [|exact H].
  unfold range. rewrite length_map, length_seq. reflexivity.
Qed.

(** [verify]'s body runs to completion on every input *)
Lemma quantum_verify_body_never_raises (message signature public_key : bytes) :
  exists b, verify_body message signature public_key = Ok b.
Proof.
  unfold verify_body.
  pose proof (quantum_unpack_public_key_shape public_key) as Ht.
  pose proof (unpack_signature_shape signature) as [Hc Hz].
  destruct (_unpack_public_key public_key) as [rho t].
  destruct (_unpack_signature signature) as [c z]. cbn [fst snd] in *.
  destruct (negb (_check_bounds z (GAMMA1 - BETA))); [eexists; reflexivity|].
  destruct (QuantumFacts.expand_matrix_ok rho) as (A & EA & HA). rewrite EA, bind_Ok.
  destruct (matrix_vector_mul_good N Q ltac:(reflexivity) K L A z HA Hz) as (az & Eaz & Haz).
  unfold _matrix_vector_mul. rewrite Eaz, bind_Ok.
  destruct (quantum_scalar_vector_mul_good K c t Hc Ht) as (ct & Ect & Hct).
  rewrite Ect, bind_Ok.
  destruct (vector_sub_good N Q ltac:(reflexivity) K az ct
              (good_vec_is_vec N Q K az Haz) (good_vec_is_vec N Q K ct Hct))
    as (wp & Ewp & Hwp).
  unfold _vector_sub. rewrite Ewp, bind_Ok.
  destruct (pack_w1_high_bits_ok K wp Hwp) as (pw1 & Epw1). rewrite Epw1, bind_Ok.
  destruct (QuantumFacts.sample_challenge_ok
              (_shake256 (message ++ public_key) 64 ++ pw1)) as (c' & Ec' & _).
  rewrite Ec', bind_Ok. eexists. reflexivity.
Qed.

End QuantumShapes.

Lemma Ok_inj {A : Type} (a b : A) : Ok a = Ok b -> a = b.
Proof. intro H. injection H as H. exact H. Qed.

Module QuantumSignLoop.
Import QuantumSignatures.

Lemma zero_sk_unpack :
  _unpack_private_key zero_sk
  = (repeat x00 32, repeat x00 32, zero_vec N L, zero_vec N K, zero_vec N K).
Proof. vm_compute. reflexivity. Qed.

Lemma zero_pk_pack :
  _pack_public_key (repeat x00 32) (zero_vec N K) = Ok (repeat x00 3104).
Proof. vm_compute. reflexivity. Qed.

Lemma nonce_zero : to_bytes_le 2 0 = Ok [x00; x00].
Proof. vm_compute. reflexivity. Qed.

(** the first candidate: [z = y + c * 0] has a coefficient out of bound *)
Lemma first_mask_out_of_bound :
  (y <- _sample_mask (repeat x00 32 ++ [x00; x00]) ;;
   z <- _vector_add y (zero_vec N L) ;;
   Ok (_check_bounds z (GAMMA1 - BETA))) = Ok true.
Proof. vm_compute. reflexivity. Qed.

Lemma first_pass_rejected (A : list (list (list Z))) (mu : bytes) :
  is_matrix N K L A ->
  sign_iteration A (repeat x00 32) (zero_vec N L) (zero_vec N K) mu 0 = Ok None.
Proof.
  intro HA. unfold sign_iteration.
  rewrite nonce_zero, bind_Ok.
  pose proof first_mask_out_of_bound as Hrej.
  destruct (QuantumFacts.sample_mask_ok (repeat x00 32 ++ [x00; x00])) as (y & Ey & Hy).
  rewrite Ey, bind_Ok in Hrej. rewrite Ey, bind_Ok.
  destruct (matrix_vector_mul_good N Q ltac:(reflexivity) K L A y HA Hy) as (w & Ew & Hw).
  unfold _matrix_vector_mul. rewrite Ew, bind_Ok.
  destruct (QuantumShapes.pack_w1_high_bits_ok K w Hw) as (pw1 & Epw1).
  rewrite Epw1, bind_Ok.
  destruct (QuantumFacts.sample_challenge_ok (mu ++ pw1)) as (c & Ec & Hc & _).
  rewrite Ec, bind_Ok.
  rewrite (QuantumForgery.quantum_scalar_vector_mul_null L c (zero_vec N L) Hc
             (is_vec_zero N L) (null_zero_vec N Q ltac:(reflexivity) L)), bind_Ok.
  destruct (_vector_add y (zero_vec N L)) as [z | e].
  - rewrite bind_Ok in Hrej. apply Ok_inj in Hrej.
    rewrite bind_Ok, Hrej. reflexivity.
  - discriminate Hrej.
Qed.

Lemma sign_loop_running (A : list (list (list Z))) (mu : bytes) (fuel : nat) :
  is_matrix N K L A ->
  sign_loop fuel A (repeat x00 32) (zero_vec N L) (zero_vec N K) mu 0 = running.
Proof.
  intro HA. induction fuel as [|fuel IH]; [reflexivity|].
  cbn [sign_loop]. rewrite (first_pass_rejected A mu HA). exact IH.
Qed.

Lemma sign_running (fuel : nat) : sign fuel [] zero_sk = running.
Proof.
  unfold sign. rewrite zero_sk_unpack.
  destruct (QuantumFacts.expand_matrix_ok (repeat x00 32)) as (A & EA & HA).
  rewrite EA, bind_Ok, zero_pk_pack, bind_Ok.
  apply sign_loop_running. exact HA.
Qed.

End QuantumSignLoop.

(** C6: the rejection loop of [sign] of quantum_signatures.py is not
    bounded.  On the empty message and the private key [zero_sk], [sign]
    returns no signature and raises nothing, however many iterations of
    its loop are run: a rejected iteration [continue]s with the nonce as
    it was, and the first mask, which is rejected, is drawn again. *)
Lemma sign_loops_forever_on_zero_key :
  ~ (exists (fuel : nat) (r : result bytes),
       QuantumSignatures.sign fuel [] zero_sk = finished r).
Proof.
  intros (fuel & r & H). rewrite QuantumSignLoop.sign_running in H. discriminate H.
Qed.

Lemma b2z_z2b (z : Z) : b2z (z2b z) = z mod 256.
Proof.
  unfold z2b, b2z.
  assert (H : Z.land z 255 = z mod 256).
  { change 255 with (Z.ones 8). rewrite Z.land_ones by lia. reflexivity. }
  rewrite H. pose proof (Z.mod_pos_bound z 256 ltac:(lia)) as Hb.
  destruct (Byte.of_N (Z.to_N (z mod 256))) as [b|] eqn:E.
  - apply Byte.to_of_N in E. rewrite E. lia.
  - apply Byte.of_N_None_iff in E. lia.
Qed.

Lemma from_bytes_le_digits_2 (z : Z) :
  0 <= z < 65536 -> from_bytes_le (le_digits 2 z) = z.
Proof.
  intro H. cbn [le_digits from_bytes_le]. rewrite !b2z_z2b.
  rewrite Z.shiftr_div_pow2 by lia. change (2 ^ 8) with 256.
  rewrite (Z.mod_small (z / 256) 256).
  - pose proof (Z.div_mod z 256 ltac:(lia)). lia.
  - split; [apply Z.div_pos; lia | apply Z.div_lt_upper_bound; lia].
Qed.

Lemma NoDup_map_inj_in {A B : Type} (f : A -> B) (l : list A) :
  (forall x y, In x l -> In y l -> f x = f y -> x = y) -> NoDup l -> NoDup (map f l).
Proof.
  intros Hinj Hnd. induction Hnd as [|a l Ha Hnd IH]; simpl; constructor.
  - intro Hin. apply in_map_iff in Hin. destruct Hin as (y & Hy & Hyl).
    assert (y = a) by (apply Hinj; [right; exact Hyl | left; reflexivity | exact Hy]).
    subst. contradiction.
  - apply IH. intros x y Hx Hy. apply Hinj; right; assumption.
Qed.

Lemma nonce_encodings_distinct (n : nat) :
  Z.of_nat n <= 65536 -> NoDup (map (fun k => to_bytes_le 2 (Z.of_nat k)) (seq 0 n)).
Proof.
  intro Hn. apply NoDup_map_inj_in; [|apply seq_NoDup].
  intros x y Hx Hy E. apply in_seq in Hx. apply in_seq in Hy.
  unfold to_bytes_le in E. change (2 ^ (8 * Z.of_nat 2)) with 65536 in E.
  destruct (Z.leb_spec 0 (Z.of_nat x)); [|lia].
  destruct (Z.ltb_spec (Z.of_nat x) 65536); [|lia].
  destruct (Z.leb_spec 0 (Z.of_nat y)); [|lia].
  destruct (Z.ltb_spec (Z.of_nat y) 65536); [|lia].
  cbn [andb] in E. apply Ok_inj in E.
  apply (f_equal from_bytes_le) in E.
  rewrite !from_bytes_le_digits_2 in E by lia. lia.
Qed.

Module SignaturesSignLoop.
Import Signatures.

Section Loop.
Variables (rho K_seed : bytes) (s1 s2 : list (list Z)) (mu : bytes).

Lemma pass_overflow (kappa : Z) :
  65536 <= kappa -> sign_iteration rho K_seed s1 s2 mu kappa = Raise OverflowError.
Proof.
  intro H. unfold sign_iteration, to_bytes_le.
  change (2 ^ (8 * Z.of_nat 2)) with 65536.
  destruct (Z.leb_spec 0 kappa); [|lia].
  destruct (Z.ltb_spec kappa 65536); [lia|]. reflexivity.
Qed.

Lemma loop_ends (fuel : nat) :
  forall kappa, 0 <= kappa -> 65536 <= kappa + Z.of_nat fuel ->
    exists (n : nat) (r : result bytes),
      (n <= fuel)%nat /\
      sign_loop (S n) rho K_seed s1 s2 mu kappa = finished r /\
      Forall (fun k => sign_iteration rho K_seed s1 s2 mu (kappa + Z.of_nat k) = Ok None)
             (seq 0 n).
Proof.
  induction fuel as [|fuel IH]; intros kappa H0 H.
  - exists 0%nat, (Raise OverflowError). repeat split; [lia | | constructor].
    cbn [sign_loop]. rewrite pass_overflow by lia. reflexivity.
  - destruct (sign_iteration rho K_seed s1 s2 mu kappa) as [[sig|]|e] eqn:E.
    + exists 0%nat, (Ok sig). repeat split; [lia | | constructor].
      cbn [sign_loop]. rewrite E. reflexivity.
    + destruct (IH (kappa + 1)) as (n & r & Hn & Hl & Hf); [lia | lia |].
      exists (S n), r. repeat split; [lia | |].
      * cbn [sign_loop]. rewrite E. exact Hl.
      * cbn [seq]. constructor.
        -- replace (kappa + Z.of_nat 0) with kappa by lia. exact E.
        -- rewrite <- seq_shift. apply Forall_map.
           eapply Forall_impl; [|exact Hf]. intros k Hk. cbn beta in *.
           replace (kappa + Z.of_nat (S k)) with (kappa + 1 + Z.of_nat k) by lia.
           exact Hk.
    + exists 0%nat, (Raise e). repeat split; [lia | | constructor].
      cbn [sign_loop]. rewrite E. reflexivity.
Qed.

End Loop.

Lemma sign_ends (message sk : bytes) :
  exists (n : nat) (r : result bytes),
    Z.of_nat n <= 65536 /\
    sign (S n) message sk = finished r /\
    (let '(rho, K_seed, s1, s2, _) := _unpack_private_key sk in
     Forall (fun k => sign_iteration rho K_seed s1 s2 (_sha3_256 message) (Z.of_nat k)
                      = Ok None)
            (seq 0 n)).
Proof.
  unfold sign.
  destruct (_unpack_private_key sk) as [[[[rho K_seed] s1] s2] t].
  assert (Hfuel : exists fuel : nat, Z.of_nat fuel = 65536).
  { exists (Z.to_nat 65536). apply Z2Nat.id. discriminate. }
  destruct Hfuel as (fuel & Hfuel).
  destruct (loop_ends rho K_seed s1 s2 (_sha3_256 message) fuel 0)
    as (n & r & Hn & Hl & Hf); [lia | lia |].
  exists n, r. split; [lia|]. split; [exact Hl | exact Hf].
Qed.

End SignaturesSignLoop.

(** The sibling loop, [sign] of signatures.py, does increment its nonce
    ([kappa += 1] before each [continue]), and is bounded by it.  For every
    message and private key there is a number [n <= 65536] of rejected
    iterations, those with nonce [kappa = 0, ..., n - 1], after which the
    next iteration ends the call by returning or raising (at the latest
    with the OverflowError of [kappa.to_bytes(2, 'little')] at
    [kappa = 65536]); the two-byte nonce encodings appended to the mask
    seed in the rejected iterations are pairwise distinct. *)
Theorem sign_ends_within_the_nonce_range (message sk : bytes) :
  exists (n : nat) (r : result bytes),
    Z.of_nat n <= 65536 /\
    Signatures.sign (S n) message sk = finished r /\
    (let '(rho, K_seed, s1, s2, _) := Signatures._unpack_private_key sk in
     Forall (fun k => Signatures.sign_iteration rho K_seed s1 s2
                        (Signatures._sha3_256 message) (Z.of_nat k) = Ok None)
            (seq 0 n)) /\
    NoDup (map (fun k => to_bytes_le 2 (Z.of_nat k)) (seq 0 n)).
Proof.
  destruct (SignaturesSignLoop.sign_ends message sk) as (n & r & Hn & Hs & Hf).
  exists n, r. split; [exact Hn|]. split; [exact Hs|]. split; [exact Hf|].
  apply nonce_encodings_distinct. exact Hn.
Qed.

Module SignaturesShapes.
Import Signatures.

Lemma in_ball_loop (stream : bytes) (signs : byte) (tau m : nat) :
  forall (i pos : nat) (poly : list Z),
    (i + m = N)%nat -> (pos + m <= length stream)%nat -> length poly = N ->
    exists pp,
      for_each (seq i m)
        (fun '(poly, pos) i =>
           sp <- get stream pos ;;
           let j := Z.to_nat (b2z sp mod (Z.of_nat i + 1)) in
           pj <- get poly j ;;
           poly <- set poly i pj ;;
           let bit := Z.land (Z.shiftr (b2z signs) (Z.of_nat (i - (N - tau)))) 1 in
           poly <- set poly j (if bit =? 0 then -1 else 1) ;;
           Ok (poly, S pos))
        (poly, pos) = Ok pp /\ length (fst pp) = N.
Proof.
  induction m as [|m IH]; intros i pos poly Him Hpos Hl.
  - exists (poly, pos). split; [reflexivity | exact Hl].
  - cbn [seq for_each].
    rewrite (get_nth stream pos x00) by lia. rewrite bind_Ok. cbv zeta.
    set (j := Z.to_nat (b2z (nth pos stream x00) mod (Z.of_nat i + 1))).
    assert (Hj : (j <= i)%nat).
    { unfold j. pose proof (Z.mod_pos_bound (b2z (nth pos stream x00)) (Z.of_nat i + 1)
                              ltac:(lia)). lia. }
    rewrite (get_nth poly j 0) by lia. rewrite bind_Ok.
    destruct (set_ok poly i (nth j poly 0)) as (p1 & E1 & Hl1); [lia|].
    rewrite E1, bind_Ok.
    destruct (set_ok p1 j
                (if Z.land (Z.shiftr (b2z signs) (Z.of_nat (i - (N - tau)))) 1 =? 0
                 then -1 else 1)) as (p2 & E2 & Hl2); [lia|].
    rewrite E2, bind_Ok.
    apply IH; lia.
Qed.

Lemma in_ball_from_stream_ok (stream : bytes) (tau : nat) :
  (tau <= N)%nat -> length stream = (8 + tau)%nat ->
  exists c, in_ball_from_stream stream tau = Ok c /\ length c = N.
Proof.
  intros Ht Hl. unfold in_ball_from_stream.
  rewrite (get_nth stream 0 x00) by lia. rewrite bind_Ok.
  unfold range_from. replace (N - (N - tau))%nat with tau by lia.
  destruct (in_ball_loop stream (nth 0 stream x00) tau tau (N - tau) 8 (repeat 0 N))
    as (pp & E & Hp); [lia | lia | apply repeat_length |].
  cbv zeta in E. cbv zeta. rewrite E, bind_Ok. exists (fst pp). split; [reflexivity | exact Hp].
Qed.

Lemma sample_in_ball_ok (seed : bytes) :
  exists c, _sample_in_ball seed TAU = Ok c /\ length c = N.
Proof.
  unfold _sample_in_ball. apply in_ball_from_stream_ok.
  - unfold TAU, N. lia.
  - unfold _shake256. apply shake_256_length.
Qed.

Lemma signatures_unpack_public_key_shape (pk : bytes) : is_vec N K (snd (_unpack_public_key pk)).
Proof.
  unfold _unpack_public_key.
  pose proof (read_vec_is_vec K N 4 false pk 32) as H.
  destruct (read_vec K N 4 false pk 32) as [t off]. exact H.
Qed.

Lemma unpack_signature_ok (sig : bytes) :
  exists c_tilde z h, _unpack_signature sig = Ok (c_tilde, z, h) /\ is_vec N L z.
Proof.
  unfold _unpack_signature.
  pose proof (read_vec_is_vec L N 4 true sig 32) as Hz.
  destruct (read_vec L N 4 true sig 32) as [z off]. cbn [fst] in Hz.
  destruct (for_each_inv (fun _ : list Z => True) (range (K * N))
              (fun h i =>
                 let byte_idx := (i / 8)%nat in
                 let bit_idx := (i mod 8)%nat in
                 if (byte_idx <? length (slice sig off ((K * N + 7) / 8)))%nat then
                   hb <- get (slice sig off ((K * N + 7) / 8)) byte_idx ;;
                   Ok (h ++ [Z.land (Z.shiftr (b2z hb) (Z.of_nat bit_idx)) 1])
                 else Ok (h ++ [0]))
              [] I) as (h & E & _).
  - intros s i _ _. cbv zeta.
    destruct (Nat.ltb_spec (i / 8) (length (slice sig off ((K * N + 7) / 8)))) as [H | H].
    + rewrite (get_nth _ (i / 8) x00) by exact H. rewrite bind_Ok.
      eexists. split; [reflexivity | exact I].
    + eexists. split; [reflexivity | exact I].
  - exists (firstn 32 sig), z, h. split; [|exact Hz].
    cbv zeta. cbv zeta in E. rewrite E, bind_Ok. reflexivity.
Qed.

Lemma high_range (c : Z) : 0 <= c < Q -> 0 <= c / (2 * GAMMA2) < 65535.
Proof.
  intro H. unfold Q in H. unfold GAMMA2, Q. change ((8380417 - 1) / 88) with 95232.
  split; [apply Z.div_pos; lia | apply Z.div_lt_upper_bound; lia].
Qed.

Lemma use_hint_ok (h : list Z) (k : nat) (w : list (list Z)) :
  good_vec N Q k w -> exists w1, _use_hint h w = Ok w1 /\ coeffs_below 65536 w1.
Proof.
  intros [Hlw Hfw]. unfold _use_hint.
  destruct (for_each_inv
              (fun s : list (list Z) * nat => coeffs_below 65536 (fst s))
              (range (length w))
              (fun '(result, hint_idx) i =>
                 ph <- for_each (range N)
                         (fun '(poly, hint_idx) j =>
                            hinted <- (if (hint_idx <? length h)%nat
                                       then hv <- get h hint_idx ;; Ok (negb (hv =? 0))
                                       else Ok false) ;;
                            wi <- get w i ;;
                            wij <- get wi j ;;
                            if hinted : bool then
                              let high := wij / (2 * GAMMA2) in
                              Ok (poly ++ [high + 1], S hint_idx)
                            else Ok (poly ++ [wij / (2 * GAMMA2)], S hint_idx))
                         ([], hint_idx) ;;
                 Ok (result ++ [fst ph], snd ph))
              ([], 0%nat)) as (s & E & Hs).
  - constructor.
  - intros [result hint_idx] i Hi Hr. cbn [fst] in Hr. apply in_seq in Hi.
    assert (Hwi : good N Q (nth i w [])).
    { rewrite Forall_forall in Hfw. apply Hfw. apply nth_In. lia. }
    destruct Hwi as [Hli Hci].
    destruct (for_each_inv
                (fun s : list Z * nat => Forall (fun c => 0 <= c < 65536) (fst s))
                (range N)
                (fun '(poly, hint_idx) j =>
                   hinted <- (if (hint_idx <? length h)%nat
                              then hv <- get h hint_idx ;; Ok (negb (hv =? 0))
                              else Ok false) ;;
                   wi <- get w i ;;
                   wij <- get wi j ;;
                   if hinted : bool then
                     let high := wij / (2 * GAMMA2) in
                     Ok (poly ++ [high + 1], S hint_idx)
                   else Ok (poly ++ [wij / (2 * GAMMA2)], S hint_idx))
                ([], hint_idx)) as (ph & Eph & Hph).
    + constructor.
    + intros [poly hi] j Hj Hp. cbn [fst] in Hp. apply in_seq in Hj.
      assert (Hh : exists b, (if (hi <? length h)%nat
                              then hv <- get h hi ;; Ok (negb (hv =? 0))
                              else Ok false) = Ok b).
      { destruct (Nat.ltb_spec hi (length h)) as [H | H].
        - rewrite (get_nth h hi 0) by exact H. rewrite bind_Ok. eexists. reflexivity.
        - eexists. reflexivity. }
      destruct Hh as (b & Eb). rewrite Eb, bind_Ok.
      rewrite (get_nth w i []) by lia. rewrite bind_Ok.
      rewrite (get_nth (nth i w []) j 0) by lia. rewrite bind_Ok.
      assert (Hc : 0 <= nth j (nth i w []) 0 / (2 * GAMMA2) < 65535).
      { apply high_range. unfold canonical in Hci. rewrite Forall_forall in Hci.
        apply Hci. apply nth_In. lia. }
      destruct b; cbv zeta; eexists; (split; [reflexivity|]); cbn [fst];
        apply Forall_app; (split; [exact Hp|]); constructor; [lia | constructor | lia | constructor].
    + cbv zeta in Eph. cbv zeta. rewrite Eph, bind_Ok. eexists. split; [reflexivity|]. cbn [fst].
      apply Forall_app. split; [exact Hr|]. constructor; [exact Hph | constructor].
  - cbv zeta in E. cbv zeta. rewrite E, bind_Ok. exists (fst s). split; [reflexivity | exact Hs].
Qed.

Lemma pack_w1_ok (w1 : list (list Z)) :
  coeffs_below 65536 w1 -> exists bs, _pack_w1 w1 = Ok bs.
Proof. intro H. unfold _pack_w1. apply write_vec_ok. exact H. Qed.

(** [verify]'s body runs to completion on every input *)
Lemma signatures_verify_body_never_raises (message signature pk : bytes) :
  exists b, verify_body message signature pk = Ok b.
Proof.
  unfold verify_body.
  pose proof (signatures_unpack_public_key_shape pk) as Ht.
  destruct (_unpack_public_key pk) as [rho t]. cbn [snd] in Ht.
  destruct (unpack_signature_ok signature) as (c_tilde & z & h & Eu & Hz).
  rewrite Eu, bind_Ok.
  destruct (GAMMA1 - BETA <=? _infinity_norm z); [eexists; reflexivity|].
  destruct (sample_in_ball_ok c_tilde) as (c & Ec & Hc). rewrite Ec, bind_Ok.
  destruct (SignaturesFacts.expand_A_ok rho) as (A & EA & HA). rewrite EA, bind_Ok.
  destruct (matrix_vector_mul_good N Q ltac:(reflexivity) K L A z HA Hz) as (az & Eaz & Haz).
  unfold _matrix_vector_mul. rewrite Eaz, bind_Ok.
  destruct (scalar_vector_mul_good N Q ltac:(reflexivity) K c t Hc Ht) as (ct & Ect & Hct).
  unfold _scalar_vector_mul. rewrite Ect, bind_Ok.
  destruct (vector_sub_good N Q ltac:(reflexivity) K az ct
              (good_vec_is_vec N Q K az Haz) (good_vec_is_vec N Q K ct Hct))
    as (wp & Ewp & Hwp).
  unfold _vector_sub. rewrite Ewp, bind_Ok.
  destruct (use_hint_ok h K wp Hwp) as (w1 & Ew1 & Hw1). rewrite Ew1, bind_Ok.
  cbv zeta.
  destruct (pack_w1_ok w1 Hw1) as (pw1 & Epw1). rewrite Epw1, bind_Ok.
  eexists. reflexivity.
Qed.

(** *** a truncated signature that verifies *)

Lemma zero_pk_unpack : _unpack_public_key zero_pk = (repeat x00 32, zero_vec N K).
Proof. vm_compute. reflexivity. Qed.

Lemma truncated_sig_unpack :
  _unpack_signature truncated_sig = Ok (truncated_sig, zero_vec N L, repeat 0 (K * N)).
Proof. vm_compute. reflexivity. Qed.

Lemma zero_response_in_bound :
  (GAMMA1 - BETA <=? _infinity_norm (zero_vec N L)) = false.
Proof. vm_compute. reflexivity. Qed.

Lemma truncated_tail :
  (w1 <- _use_hint (repeat 0 (K * N)) (zero_vec N K) ;;
   pw1 <- _pack_w1 w1 ;;
   Ok (bytes_eqb truncated_sig (_sha3_256 (_sha3_256 [] ++ pw1)))) = Ok true.
Proof. vm_compute. reflexivity. Qed.

Lemma truncated_verify_body : verify_body [] truncated_sig zero_pk = Ok true.
Proof.
  unfold verify_body.
  rewrite zero_pk_unpack, truncated_sig_unpack, bind_Ok, zero_response_in_bound.
  destruct (sample_in_ball_ok truncated_sig) as (c & Ec & Hc). rewrite Ec, bind_Ok.
  destruct (SignaturesFacts.expand_A_ok (repeat x00 32)) as (A & EA & HA).
  rewrite EA, bind_Ok.
  unfold _matrix_vector_mul.
  rewrite (matrix_vector_mul_null N Q ltac:(reflexivity) K L A (zero_vec N L) HA
             (is_vec_zero N L) (null_zero_vec N Q ltac:(reflexivity) L)), bind_Ok.
  unfold _scalar_vector_mul.
  rewrite (scalar_vector_mul_null N Q ltac:(reflexivity) K c (zero_vec N K) Hc
             (is_vec_zero N K) (null_zero_vec N Q ltac:(reflexivity) K)), bind_Ok.
  unfold _vector_sub.
  rewrite (vector_sub_zero_zero N Q ltac:(reflexivity) K), bind_Ok.
  cbv zeta. exact truncated_tail.
Qed.

End SignaturesShapes.

(** C7, counterexample: [verify] of signatures.py returns [True] on the
    empty message, the public key [zero_pk] and the 32-byte string
    [truncated_sig], where a packed signature has 32 + 4096 + 128 bytes:
    a malformed signature is not answered with [False]. *)
Lemma verify_accepts_truncated_signature :
  length truncated_sig = 32%nat /\
  Signatures.verify [] truncated_sig zero_pk = Ok true.
Proof.
  split; [reflexivity|].
  unfold Signatures.verify. rewrite SignaturesShapes.truncated_verify_body. reflexivity.
Qed.

(** C7, amended: [verify] is total in both signature modules.  For all
    message, signature and public-key byte strings, whatever their
    lengths, the body of [verify] raises nothing and returns a boolean,
    which [verify] returns.  (No length is checked: the unpack routines
    read missing bytes as zeros.) *)
Theorem verify_is_total (message signature pk : bytes) :
  (exists b, Signatures.verify_body message signature pk = Ok b /\
             Signatures.verify message signature pk = Ok b) /\
  (exists b, QuantumSignatures.verify_body message signature pk = Ok b /\
             QuantumSignatures.verify message signature pk = Ok b).
Proof.
  split.
  - destruct (SignaturesShapes.signatures_verify_body_never_raises message signature pk) as (b & E).
    exists b. split; [exact E|]. unfold Signatures.verify. rewrite E. reflexivity.
  - destruct (QuantumShapes.quantum_verify_body_never_raises message signature pk) as (b & E).
    exists b. split; [exact E|]. unfold QuantumSignatures.verify. rewrite E. reflexivity.
Qed.

Lemma set_Forall {A} (P : A -> Prop) (l l' : list A) (i : nat) (v : A) :
  set l i v = Ok l' -> Forall P l -> P v -> Forall P l'.
Proof.
  revert l' i. induction l as [|h t IH]; intros l' i E Hl Hv; [discriminate|].
  inversion Hl; subst. destruct i as [|i]; simpl in E.
  - apply Ok_inj in E. subst. constructor; assumption.
  - destruct (set t i v) as [t'|e] eqn:Et; [|discriminate].
    simpl in E. apply Ok_inj in E. subst. constructor; [assumption|].
    apply (IH t' i); [exact Et | assumption | assumption].
Qed.

Lemma set_repeat_same {A} (a : A) (n i : nat) :
  (i < n)%nat -> set (repeat a n) i a = Ok (repeat a n).
Proof.
  revert i. induction n as [|n IH]; intros i H; [lia|].
  destruct i as [|i]; simpl; [reflexivity|].
  rewrite IH by lia. reflexivity.
Qed.

Module KyberCodec.
Import Kyber1024.

Lemma decode_message_two_level (m : bytes) :
  length m = 32%nat -> exists p, _decode_message m = Ok p /\ two_level p.
Proof.
  intro Hm. unfold _decode_message.
  apply for_each_inv.
  - split; [apply repeat_length|]. apply Forall_forall. intros x Hx.
    apply repeat_spec in Hx. left. exact Hx.
  - intros p i Hi Hp. apply in_seq in Hi.
    apply for_each_inv; [exact Hp|].
    intros q j Hj [Hlq Hfq]. apply in_seq in Hj.
    rewrite (get_nth m i x00) by lia. rewrite bind_Ok. cbv zeta.
    unfold N in *.
    destruct (Nat.ltb_spec (i * 8 + j) 256) as [H | H]; [|lia].
    set (bit := Z.land (Z.shiftr (b2z (nth i m x00)) (Z.of_nat j)) 1).
    destruct (set_ok q (i * 8 + j) (bit * (Q / 2))) as (q' & E & Hl'); [lia|].
    exists q'. split; [exact E|]. split; [unfold N; lia|].
    apply (set_Forall _ q q' (i * 8 + j) (bit * (Q / 2)) E Hfq).
    assert (Hb : bit = 0 \/ bit = 1).
    { pose proof (Z.land_ones (Z.shiftr (b2z (nth i m x00)) (Z.of_nat j)) 1
                    ltac:(lia)) as Hland.
      change (Z.ones 1) with 1 in Hland. change (2 ^ 1) with 2 in Hland.
      fold bit in Hland.
      pose proof (Z.mod_pos_bound (Z.shiftr (b2z (nth i m x00)) (Z.of_nat j)) 2
                    ltac:(lia)). lia. }
    destruct Hb as [-> | ->]; [left | right]; lia.
Qed.

Lemma encode_message_two_level (p : list Z) :
  two_level p -> _encode_message p = Ok (repeat x00 32).
Proof.
  intros [Hl Hf]. unfold _encode_message.
  destruct (for_each_inv (fun m : bytes => m = repeat x00 32) (range N)
              (fun m i =>
                 c <- get p i ;;
                 let bit := if Q / 2 <? c then 1 else 0 in
                 let byte_pos := (i / 8)%nat in
                 let bit_pos := (i mod 8)%nat in
                 if (byte_pos <? 32)%nat then
                   old <- get m byte_pos ;;
                   set_byte m byte_pos (Z.lor (b2z old) (Z.shiftl bit (Z.of_nat bit_pos)))
                 else Ok m)
              (repeat x00 32) eq_refl) as (m & E & ->).
  - intros m i Hi ->. apply in_seq in Hi. unfold N in *.
    rewrite (get_nth p i 0) by lia. rewrite bind_Ok. cbv zeta.
    assert (Hc : (Q / 2 <? nth i p 0) = false).
    { rewrite Forall_forall in Hf. destruct (Hf (nth i p 0)) as [-> | ->].
      - apply nth_In. lia.
      - reflexivity.
      - apply Z.ltb_irrefl. }
    rewrite Hc.
    assert (Hbp : (i / 8 < 32)%nat) by (apply Nat.Div0.div_lt_upper_bound; lia).
    destruct (Nat.ltb_spec (i / 8) 32); [|lia].
    rewrite (get_nth (repeat x00 32) (i / 8) x00) by (rewrite repeat_length; lia).
    rewrite bind_Ok, nth_repeat, Z.shiftl_0_l.
    exists (repeat x00 32). split; [|reflexivity].
    unfold set_byte. change (Z.lor (b2z x00) 0) with 0. cbn [Z.leb Z.ltb andb Z.compare].
    change (z2b 0) with x00. apply set_repeat_same. lia.
  - cbv zeta in E. exact E.
Qed.

End KyberCodec.

(** C2, as the code of kyber.py has it: for every 32-byte message [m],
    [_decode_message m] returns a polynomial [p] (coefficients 0 or
    [Q // 2], without noise) and [_encode_message p] returns 32 zero
    bytes, not [m]: the bit test [poly[i] > Q // 2] is false at
    [Q // 2] itself. *)
Theorem decoding_an_encoded_message_returns_zeros (m : bytes) :
  length m = 32%nat ->
  exists p,
    Kyber1024._decode_message m = Ok p /\
    Kyber1024._encode_message p = Ok (repeat x00 32).
Proof.
  intro Hm. destruct (KyberCodec.decode_message_two_level m Hm) as (p & E & Hp).
  exists p. split; [exact E|]. apply KyberCodec.encode_message_two_level. exact Hp.
Qed.

Lemma decoding_an_encoded_message_returns_zeros_witness :
  exists p,
    Kyber1024._decode_message (x01 :: repeat x00 31) = Ok p /\
    Kyber1024._encode_message p = Ok (repeat x00 32).
Proof.
  apply (decoding_an_encoded_message_returns_zeros (x01 :: repeat x00 31)).
  reflexivity.
Defined.


(** C8: for all polynomials [a] and [b] of [N = 256] coefficients,
    [_poly_mul a b] of kyber.py and of signatures.py returns the negacyclic
    convolution modulo [X^N + 1]: coefficient [k] is the sum modulo [Q]
    of the terms [a[i] * b[j]] with [(i + j) mod N = k], a term being
    subtracted when [i + j >= N]. *)
Theorem poly_mul_is_negacyclic_convolution (a b : list Z) :
  length a = 256%nat -> length b = 256%nat ->
  Kyber1024._poly_mul a b = Ok (negacyclic 256 3329 a b) /\
  Signatures._poly_mul a b = Ok (negacyclic 256 8380417 a b).
Proof.
  intros Ha Hb. split.
  - apply poly_mul_negacyclic; [reflexivity | exact Ha | exact Hb].
  - apply poly_mul_negacyclic; [reflexivity | exact Ha | exact Hb].
Qed.

Lemma poly_mul_is_negacyclic_convolution_witness :
  Kyber1024._poly_mul (repeat 3 256) (repeat (-2) 256)
  = Ok (negacyclic 256 3329 (repeat 3 256) (repeat (-2) 256)) /\
  Signatures._poly_mul (repeat 3 256) (repeat (-2) 256)
  = Ok (negacyclic 256 8380417 (repeat 3 256) (repeat (-2) 256)).
Proof.
  apply (poly_mul_is_negacyclic_convolution (repeat 3 256) (repeat (-2) 256));
    reflexivity.
Defined.

(** C9: for all polynomials [a] and [b] of [N = 256] integer
    coefficients, of any sign and size, [_poly_add], [_poly_sub] and
    [_poly_mul] of kyber.py and of signatures.py return a polynomial of
    [N] coefficients, each in [[0, Q)]. *)
Theorem arithmetic_results_are_canonical (a b : list Z) :
  length a = 256%nat -> length b = 256%nat ->
  ((exists r, Kyber1024._poly_add a b = Ok r /\ length r = 256%nat /\ canonical 3329 r) /\
   (exists r, Kyber1024._poly_sub a b = Ok r /\ length r = 256%nat /\ canonical 3329 r) /\
   (exists r, Kyber1024._poly_mul a b = Ok r /\ length r = 256%nat /\ canonical 3329 r)) /\
  ((exists r, Signatures._poly_add a b = Ok r /\ length r = 256%nat /\ canonical 8380417 r) /\
   (exists r, Signatures._poly_sub a b = Ok r /\ length r = 256%nat /\ canonical 8380417 r) /\
   (exists r, Signatures._poly_mul a b = Ok r /\ length r = 256%nat /\ canonical 8380417 r)).
Proof.
  intros Ha Hb. split.
  - apply (poly_ops_canonical 256 3329 ltac:(reflexivity) a b Ha Hb).
  - apply (poly_ops_canonical 256 8380417 ltac:(reflexivity) a b Ha Hb).
Qed.

Lemma arithmetic_results_are_canonical_witness :
  ((exists r, Kyber1024._poly_add (repeat 3 256) (repeat (-2) 256) = Ok r /\
              length r = 256%nat /\ canonical 3329 r) /\
   (exists r, Kyber1024._poly_sub (repeat 3 256) (repeat (-2) 256) = Ok r /\
              length r = 256%nat /\ canonical 3329 r) /\
   (exists r, Kyber1024._poly_mul (repeat 3 256) (repeat (-2) 256) = Ok r /\
              length r = 256%nat /\ canonical 3329 r)) /\
  ((exists r, Signatures._poly_add (repeat 3 256) (repeat (-2) 256) = Ok r /\
              length r = 256%nat /\ canonical 8380417 r) /\
   (exists r, Signatures._poly_sub (repeat 3 256) (repeat (-2) 256) = Ok r /\
              length r = 256%nat /\ canonical 8380417 r) /\
   (exists r, Signatures._poly_mul (repeat 3 256) (repeat (-2) 256) = Ok r /\
              length r = 256%nat /\ canonical 8380417 r)).
Proof.
  apply (arithmetic_results_are_canonical (repeat 3 256) (repeat (-2) 256));
    reflexivity.
Defined.

(** the sibling path: signatures.py rejects an out-of-bound response *)
Lemma signatures_verify_rejects_out_of_bound
      (message signature pk c_tilde : bytes) (z : list (list Z)) (h : list Z) :
  Signatures._unpack_signature signature = Ok (c_tilde, z, h) ->
  Signatures.GAMMA1 - Signatures.BETA <= Signatures._infinity_norm z ->
  Signatures.verify message signature pk = Ok false.
Proof.
  intros Eu Hn. unfold Signatures.verify, Signatures.verify_body.
  destruct (Signatures._unpack_public_key pk) as [rho t].
  rewrite Eu, bind_Ok.
  destruct (Z.leb_spec (Signatures.GAMMA1 - Signatures.BETA) (Signatures._infinity_norm z));
    [reflexivity | lia].
Qed.

Lemma set_nth {A} (l l' : list A) (i : nat) (v : A) :
  set l i v = Ok l' ->
  forall k d, nth k l' d = if (k =? i)%nat then v else nth k l d.
Proof.
  revert l' i. induction l as [|h t IH]; intros l' i E; [discriminate|].
  destruct i as [|i]; simpl in E.
  - apply Ok_inj in E. subst. intros [|k] d; reflexivity.
  - destruct (set t i v) as [t'|e] eqn:Et; [|discriminate].
    simpl in E. apply Ok_inj in E. subst. intros [|k] d; [reflexivity|].
    simpl. apply (IH t' i Et).
Qed.

Lemma nonzeros_set_exact (l l' : list Z) (i : nat) (v : Z) :
  set l i v = Ok l' ->
  (nonzeros l' + (if (nth i l 0%Z =? 0)%Z then 0 else 1)
   = nonzeros l + (if (v =? 0)%Z then 0 else 1))%nat.
Proof.
  revert l' i. induction l as [|h t IH]; intros l' i E; [discriminate|].
  destruct i as [|i]; simpl in E.
  - apply Ok_inj in E. subst. unfold nonzeros. simpl.
    destruct (v =? 0), (h =? 0); simpl; lia.
  - destruct (set t i v) as [t'|e] eqn:Et; [|discriminate].
    simpl in E. apply Ok_inj in E. subst. specialize (IH t' i Et).
    unfold nonzeros in *. simpl. destruct (h =? 0); simpl; lia.
Qed.

Module SignaturesBall.
Import Signatures.

Lemma in_ball_loop_count (stream : bytes) (signs : byte) (tau m : nat) :
  forall (i pos : nat) (poly : list Z) (c : nat),
    (i + m = N)%nat -> (pos + m <= length stream)%nat -> length poly = N ->
    (forall k, (i <= k)%nat -> nth k poly 0 = 0) ->
    ternary poly -> nonzeros poly = c ->
    exists pp,
      for_each (seq i m)
        (fun '(poly, pos) i =>
           sp <- get stream pos ;;
           let j := Z.to_nat (b2z sp mod (Z.of_nat i + 1)) in
           pj <- get poly j ;;
           poly <- set poly i pj ;;
           let bit := Z.land (Z.shiftr (b2z signs) (Z.of_nat (i - (N - tau)))) 1 in
           poly <- set poly j (if bit =? 0 then -1 else 1) ;;
           Ok (poly, S pos))
        (poly, pos) = Ok pp /\
      length (fst pp) = N /\ ternary (fst pp) /\ nonzeros (fst pp) = (c + m)%nat.
Proof.
  induction m as [|m IH]; intros i pos poly c Him Hpos Hl Hz Ht Hc.
  - exists (poly, pos). cbn [seq for_each fst].
    split; [reflexivity|]. split; [exact Hl|]. split; [exact Ht | lia].
  - cbn [seq for_each].
    rewrite (get_nth stream pos x00) by lia. rewrite bind_Ok. cbv zeta.
    set (j := Z.to_nat (b2z (nth pos stream x00) mod (Z.of_nat i + 1))).
    assert (Hj : (j <= i)%nat).
    { unfold j. pose proof (Z.mod_pos_bound (b2z (nth pos stream x00)) (Z.of_nat i + 1)
                              ltac:(lia)). lia. }
    rewrite (get_nth poly j 0) by lia. rewrite bind_Ok.
    destruct (set_ok poly i (nth j poly 0)) as (p1 & E1 & Hl1); [lia|].
    rewrite E1, bind_Ok.
    set (sgn := if Z.land (Z.shiftr (b2z signs) (Z.of_nat (i - (N - tau)))) 1 =? 0
                then -1 else 1).
    destruct (set_ok p1 j sgn) as (p2 & E2 & Hl2); [lia|].
    fold sgn. rewrite E2, bind_Ok.
    assert (Hsgn : sgn = -1 \/ sgn = 1).
    { unfold sgn. destruct (_ =? 0); [left | right]; reflexivity. }
    assert (Hpj : nth j poly 0 = -1 \/ nth j poly 0 = 0 \/ nth j poly 0 = 1).
    { unfold ternary in Ht. rewrite Forall_forall in Ht. apply Ht. apply nth_In. lia. }
    pose proof (nonzeros_set_exact poly p1 i (nth j poly 0) E1) as H1.
    pose proof (nonzeros_set_exact p1 p2 j sgn E2) as H2.
    pose proof (set_nth poly p1 i (nth j poly 0) E1) as N1.
    pose proof (set_nth p1 p2 j sgn E2) as N2.
    rewrite (Hz i (Nat.le_refl i)) in H1. cbn [Z.eqb] in H1.
    assert (Hj1 : nth j p1 0 = nth j poly 0).
    { rewrite N1. destruct (Nat.eqb_spec j i); reflexivity. }
    rewrite Hj1 in H2.
    assert (Hs0 : (sgn =? 0) = false) by (destruct Hsgn as [-> | ->]; reflexivity).
    rewrite Hs0 in H2.
    destruct (IH (S i) (S pos) p2 (S c)) as (pp & E & Hlp & Htp & Hcp).
    + lia.
    + lia.
    + lia.
    + intros k Hk. rewrite N2.
      destruct (Nat.eqb_spec k j) as [-> | _]; [lia|].
      rewrite N1. destruct (Nat.eqb_spec k i) as [-> | _]; [lia|].
      apply Hz. lia.
    + unfold ternary in *.
      apply (set_Forall _ p1 p2 j sgn E2).
      * apply (set_Forall _ poly p1 i (nth j poly 0) E1 Ht Hpj).
      * destruct Hsgn as [-> | ->]; [left | right; right]; reflexivity.
    + destruct (nth j poly 0 =? 0); lia.
    + exists pp. split; [exact E|]. split; [exact Hlp|]. split; [exact Htp | lia].
Qed.

Lemma in_ball_from_stream_count (stream : bytes) (tau : nat) :
  (tau <= N)%nat -> length stream = (8 + tau)%nat ->
  exists c, in_ball_from_stream stream tau = Ok c /\
            length c = N /\ ternary c /\ nonzeros c = tau.
Proof.
  intros Ht Hl. unfold in_ball_from_stream.
  rewrite (get_nth stream 0 x00) by lia. rewrite bind_Ok.
  unfold range_from. replace (N - (N - tau))%nat with tau by lia.
  destruct (in_ball_loop_count stream (nth 0 stream x00) tau tau (N - tau) 8
              (repeat 0 N) 0)
    as (pp & E & Hp & Ht' & Hc).
  - lia.
  - lia.
  - apply repeat_length.
  - intros k _. apply nth_repeat.
  - unfold ternary. apply Forall_forall. intros x Hx. apply repeat_spec in Hx.
    right; left. exact Hx.
  - apply nonzeros_zero.
  - cbv zeta in E. cbv zeta. rewrite E, bind_Ok. exists (fst pp).
    split; [reflexivity|]. split; [exact Hp|]. split; [exact Ht' | exact Hc].
Qed.

(** the sibling sampler of signatures.py does place exactly [TAU] signs *)
Lemma sample_in_ball_exactly_tau (seed : bytes) :
  exists c, _sample_in_ball seed TAU = Ok c /\
            length c = N /\ ternary c /\ nonzeros c = TAU.
Proof.
  unfold _sample_in_ball. apply in_ball_from_stream_count.
  - unfold TAU, N. lia.
  - unfold _shake256. apply shake_256_length.
Qed.

End SignaturesBall.

(** * Further properties of the code *)

(** *** Byte strings of integers *)

Lemma from_bytes_le_digits (n : nat) (z : Z) :
  from_bytes_le (le_digits n z) = z mod 2 ^ (8 * Z.of_nat n).
Proof.
  revert z. induction n as [|n IH]; intro z.
  - cbn [le_digits from_bytes_le]. change (2 ^ (8 * Z.of_nat 0)) with 1.
    rewrite Z.mod_1_r. reflexivity.
  - cbn [le_digits from_bytes_le]. rewrite IH, b2z_z2b.
    rewrite Z.shiftr_div_pow2 by lia. change (2 ^ 8) with 256.
    replace (2 ^ (8 * Z.of_nat (S n))) with (256 * 2 ^ (8 * Z.of_nat n)).
    + rewrite Z.rem_mul_r; [reflexivity | lia |].
      apply Z.pow_pos_nonneg; lia.
    + replace (8 * Z.of_nat (S n)) with (8 + 8 * Z.of_nat n) by lia.
      rewrite Z.pow_add_r by lia. reflexivity.
Qed.

Lemma enc_length (w : nat) (s : bool) (c : Z) : length (enc w s c) = w.
Proof. apply le_digits_length. Qed.

Lemma to_bytes_enc (w : nat) (s : bool) (c : Z) :
  (0 < w)%nat -> in_range w s c ->
  (if s then to_bytes_le_signed w c else to_bytes_le w c) = Ok (enc w s c).
Proof.
  intros Hw Hc. unfold in_range in Hc. destruct s.
  - unfold to_bytes_le_signed, enc.
    destruct (Nat.eqb_spec w 0); [lia|].
    destruct (Z.leb_spec (- 2 ^ (8 * Z.of_nat w - 1)) c); [|lia].
    destruct (Z.ltb_spec c (2 ^ (8 * Z.of_nat w - 1))); [|lia].
    reflexivity.
  - unfold to_bytes_le, enc.
    destruct (Z.leb_spec 0 c); [|lia].
    destruct (Z.ltb_spec c (2 ^ (8 * Z.of_nat w))); [|lia].
    reflexivity.
Qed.

Lemma to_bytes_out_of_range (w : nat) (s : bool) (c : Z) :
  (0 < w)%nat -> ~ in_range w s c ->
  (if s then to_bytes_le_signed w c else to_bytes_le w c) = Raise OverflowError.
Proof.
  intros Hw Hc. unfold in_range in Hc. destruct s.
  - unfold to_bytes_le_signed.
    destruct (Nat.eqb_spec w 0); [lia|].
    destruct (Z.leb_spec (- 2 ^ (8 * Z.of_nat w - 1)) c);
      destruct (Z.ltb_spec c (2 ^ (8 * Z.of_nat w - 1))); try reflexivity. lia.
  - unfold to_bytes_le.
    destruct (Z.leb_spec 0 c); destruct (Z.ltb_spec c (2 ^ (8 * Z.of_nat w)));
      try reflexivity. lia.
Qed.

Lemma pow2_half (w : nat) :
  (0 < w)%nat -> 2 ^ (8 * Z.of_nat w) = 2 * 2 ^ (8 * Z.of_nat w - 1).
Proof.
  intro Hw. replace (8 * Z.of_nat w) with (1 + (8 * Z.of_nat w - 1)) at 1 by lia.
  rewrite Z.pow_add_r by lia. reflexivity.
Qed.

Lemma conv_enc (w : nat) (s : bool) (c : Z) :
  (0 < w)%nat -> in_range w s c -> conv s (enc w s c) = c.
Proof.
  intros Hw Hc. unfold in_range in Hc. unfold conv, enc. destruct s.
  - unfold from_bytes_le_signed. rewrite le_digits_length, from_bytes_le_digits.
    rewrite Z.mod_mod by (apply Z.pow_nonzero; lia).
    pose proof (pow2_half w Hw) as Hp.
    assert (Hh : 0 < 2 ^ (8 * Z.of_nat w - 1)) by (apply Z.pow_pos_nonneg; lia).
    destruct (Z.ltb_spec 0 (8 * Z.of_nat w)); [|lia]. cbn [andb].
    destruct (Z_lt_le_dec c 0) as [Hneg | Hpos].
    + assert (E : c mod 2 ^ (8 * Z.of_nat w) = c + 2 ^ (8 * Z.of_nat w)).
      { symmetry. apply (Z.mod_unique _ _ (-1)); lia. }
      rewrite E. destruct (Z.leb_spec (2 ^ (8 * Z.of_nat w - 1)) (c + 2 ^ (8 * Z.of_nat w)));
        lia.
    + rewrite Z.mod_small by lia.
      destruct (Z.leb_spec (2 ^ (8 * Z.of_nat w - 1)) c); lia.
  - rewrite from_bytes_le_digits. apply Z.mod_small. exact Hc.
Qed.

(** *** Packing loops in closed form *)

Lemma write_poly_enc (w : nat) (s : bool) (poly : list Z) :
  (0 < w)%nat -> Forall (in_range w s) poly ->
  forall data, write_poly w s data poly = Ok (data ++ flat_map (enc w s) poly).
Proof.
  intros Hw H. unfold write_poly. induction H as [|c poly Hc _ IH]; intro data.
  - cbn [for_each flat_map]. rewrite app_nil_r. reflexivity.
  - cbn [for_each flat_map]. rewrite (to_bytes_enc w s c Hw Hc), !bind_Ok, IH.
    rewrite <- app_assoc. reflexivity.
Qed.

Lemma write_vec_enc (w : nat) (s : bool) (v : list (list Z)) :
  (0 < w)%nat -> all_in_range w s v ->
  forall data, write_vec w s data v = Ok (data ++ flat_map (flat_map (enc w s)) v).
Proof.
  intros Hw H. unfold write_vec. induction H as [|p v Hp _ IH]; intro data.
  - cbn [for_each flat_map]. rewrite app_nil_r. reflexivity.
  - cbn [for_each flat_map]. rewrite (write_poly_enc w s p Hw Hp), bind_Ok, IH.
    rewrite <- app_assoc. reflexivity.
Qed.

Lemma flat_enc_length (w : nat) (s : bool) (p : list Z) :
  length (flat_map (enc w s) p) = (w * length p)%nat.
Proof.
  rewrite (flat_map_length_const (enc w s) w); [lia|]. intros c. apply enc_length.
Qed.

Lemma flat_flat_enc_length (w n k : nat) (s : bool) (v : list (list Z)) :
  is_vec n k v -> length (flat_map (flat_map (enc w s)) v) = (w * n * k)%nat.
Proof.
  intros [Hl Hf]. subst k. induction Hf as [|p v Hp _ IH]; cbn [flat_map length]; [lia|].
  rewrite length_app, flat_enc_length, IH, Hp. lia.
Qed.

(** *** Reading back what was packed *)

Lemma slice_middle {A} (pre x post : list A) :
  slice (pre ++ x ++ post) (length pre) (length x) = x.
Proof.
  unfold slice. rewrite skipn_app, skipn_all, Nat.sub_diag. cbn [app skipn].
  rewrite firstn_app, firstn_all, Nat.sub_diag. cbn [firstn]. apply app_nil_r.
Qed.

Lemma poly_at_S (n w : nat) (s : bool) (data : bytes) (off : nat) :
  poly_at (S n) w s data off
  = conv s (slice data off w) :: poly_at n w s data (off + w).
Proof.
  unfold poly_at, range. cbn [seq map]. f_equal.
  - do 2 f_equal. lia.
  - rewrite <- seq_shift, map_map. apply map_ext. intro j. do 2 f_equal. lia.
Qed.

Lemma poly_at_enc (w : nat) (s : bool) (poly : list Z) :
  (0 < w)%nat -> Forall (in_range w s) poly ->
  forall pre post,
    poly_at (length poly) w s (pre ++ flat_map (enc w s) poly ++ post) (length pre) = poly.
Proof.
  intros Hw H. induction H as [|c poly Hc _ IH]; intros pre post; [reflexivity|].
  cbn [length flat_map]. rewrite poly_at_S. f_equal.
  - rewrite <- app_assoc.
    pose proof (slice_middle pre (enc w s c) (flat_map (enc w s) poly ++ post)) as E.
    rewrite enc_length in E. rewrite E. apply conv_enc; assumption.
  - specialize (IH (pre ++ enc w s c) post).
    rewrite length_app, enc_length in IH. rewrite <- !app_assoc in IH.
    rewrite <- app_assoc. exact IH.
Qed.

Lemma vec_at_S (k n w : nat) (s : bool) (data : bytes) (off : nat) :
  map (fun i => poly_at n w s data (off + w * n * i)) (range (S k))
  = poly_at n w s data off
    :: map (fun i => poly_at n w s data (off + w * n + w * n * i)) (range k).
Proof.
  unfold range. cbn [seq map]. f_equal.
  - f_equal. lia.
  - rewrite <- seq_shift, map_map. apply map_ext. intro i. f_equal. lia.
Qed.

Lemma vec_at_enc (w n : nat) (s : bool) (v : list (list Z)) :
  (0 < w)%nat -> all_in_range w s v -> Forall (fun p => length p = n) v ->
  forall pre post,
    map (fun i => poly_at n w s (pre ++ flat_map (flat_map (enc w s)) v ++ post)
                    (length pre + w * n * i))
        (range (length v)) = v.
Proof.
  intros Hw H. induction H as [|p v Hp _ IH]; intros Hn pre post; [reflexivity|].
  inversion Hn as [|p' v' Hlp Hn']; subst p' v'.
  cbn [length flat_map]. rewrite vec_at_S. f_equal.
  - rewrite <- app_assoc, <- Hlp. apply poly_at_enc; assumption.
  - specialize (IH Hn' (pre ++ flat_map (enc w s) p) post).
    rewrite length_app, flat_enc_length, Hlp in IH.
    rewrite <- !app_assoc in IH. rewrite <- app_assoc. exact IH.
Qed.

Lemma read_vec_enc (w n k : nat) (s : bool) (v : list (list Z)) (pre post : bytes) :
  (0 < w)%nat -> all_in_range w s v -> is_vec n k v ->
  read_vec k n w s (pre ++ flat_map (flat_map (enc w s)) v ++ post) (length pre)
  = (v, (length pre + w * n * k)%nat).
Proof.
  intros Hw Hr [Hl Hf]. rewrite read_vec_spec. f_equal. subst k.
  apply vec_at_enc; assumption.
Qed.

Lemma read_poly_enc (w n : nat) (s : bool) (p : list Z) (pre post : bytes) :
  (0 < w)%nat -> Forall (in_range w s) p -> length p = n ->
  read_poly n w s (pre ++ flat_map (enc w s) p ++ post) (length pre)
  = (p, (length pre + w * n)%nat).
Proof.
  intros Hw Hr Hl. rewrite read_poly_spec. f_equal. subst n.
  apply (poly_at_enc w s p Hw Hr pre post).
Qed.

Lemma coeffs_below_in_range (w : nat) (v : list (list Z)) :
  coeffs_below (2 ^ (8 * Z.of_nat w)) v -> all_in_range w false v.
Proof. intro H. exact H. Qed.

Lemma coeffs_below_weaken (a b : Z) (v : list (list Z)) :
  a <= b -> coeffs_below a v -> coeffs_below b v.
Proof.
  intros Hab H. unfold coeffs_below in *.
  eapply Forall_impl; [|exact H]. intros p Hp.
  eapply Forall_impl; [|exact Hp]. intros c Hc. cbv beta in *. lia.
Qed.

Lemma good_vec_coeffs_below (N : nat) (Q : Z) (k : nat) (v : list (list Z)) :
  good_vec N Q k v -> coeffs_below Q v.
Proof.
  intros [_ H]. unfold coeffs_below. eapply Forall_impl; [|exact H].
  intros p [_ Hp]. exact Hp.
Qed.

Lemma coeffs_below_zero_vec (N k : nat) (b : Z) : 0 < b -> coeffs_below b (zero_vec N k).
Proof.
  intro Hb. unfold coeffs_below, zero_vec. apply Forall_forall. intros p Hp.
  apply repeat_spec in Hp. subst p. apply Forall_forall. intros c Hc.
  apply repeat_spec in Hc. lia.
Qed.

Section SamplerFacts.
Variable N : nat.
Variable Q : Z.
Hypothesis Q_pos : 0 < Q.

Lemma cbd_bit_ok (stream : bytes) (pos : nat) (acc : Z) :
  exists acc', cbd_bit stream pos acc = Ok acc' /\ acc <= acc' <= acc + 1.
Proof.
  unfold cbd_bit. cbv zeta.
  destruct (Nat.ltb_spec (pos / 8) (length stream)) as [H | H].
  - rewrite (get_nth stream (pos / 8) x00) by lia. rewrite bind_Ok.
    eexists. split; [reflexivity|].
    pose proof (Z.land_ones (Z.shiftr (b2z (nth (pos / 8) stream x00))
                                      (Z.of_nat (pos mod 8))) 1 ltac:(lia)) as Hl.
    change (Z.ones 1) with 1 in Hl. change (2 ^ 1) with 2 in Hl.
    pose proof (Z.mod_pos_bound (Z.shiftr (b2z (nth (pos / 8) stream x00))
                                          (Z.of_nat (pos mod 8))) 2 ltac:(lia)).
    lia.
  - exists acc. split; [reflexivity | lia].
Qed.

Lemma cbd_pair_ok (stream : bytes) (eta i : nat) :
  exists ab,
    for_each (range eta)
      (fun '(a, b) j =>
         a' <- cbd_bit stream (2 * eta * i + j) a ;;
         b' <- cbd_bit stream (2 * eta * i + eta + j) b ;;
         Ok (a', b'))
      (0, 0) = Ok ab /\
    0 <= fst ab <= Z.of_nat eta /\ 0 <= snd ab <= Z.of_nat eta.
Proof.
  unfold range.
  assert (G : forall m s (ab0 : Z * Z),
             exists ab,
               for_each (seq s m)
                 (fun '(a, b) j =>
                    a' <- cbd_bit stream (2 * eta * i + j) a ;;
                    b' <- cbd_bit stream (2 * eta * i + eta + j) b ;;
                    Ok (a', b'))
                 ab0 = Ok ab /\
               fst ab0 <= fst ab <= fst ab0 + Z.of_nat m /\
               snd ab0 <= snd ab <= snd ab0 + Z.of_nat m).
  { induction m as [|m IH]; intros s [a b].
    - exists (a, b). cbn [seq for_each fst snd]. split; [reflexivity | lia].
    - cbn [seq for_each].
      destruct (cbd_bit_ok stream (2 * eta * i + s) a) as (a' & Ea & Ha).
      destruct (cbd_bit_ok stream (2 * eta * i + eta + s) b) as (b' & Eb & Hb).
      rewrite Ea, bind_Ok, Eb, !bind_Ok.
      destruct (IH (S s) (a', b')) as (ab & E & H1 & H2).
      exists ab. split; [exact E|]. cbn [fst snd] in *. lia. }
  destruct (G eta 0%nat (0, 0)) as (ab & E & H1 & H2).
  exists ab. split; [exact E|]. cbn [fst snd] in *. lia.
Qed.

Lemma centered_mod (eta : nat) (a b : Z) :
  Z.of_nat eta < Q ->
  0 <= a <= Z.of_nat eta -> 0 <= b <= Z.of_nat eta ->
  centered Q eta ((a - b) mod Q) /\ 0 <= (a - b) mod Q < Q.
Proof.
  intros He Ha Hb. split; [|apply Z.mod_pos_bound; exact Q_pos].
  unfold centered. destruct (Z_lt_le_dec (a - b) 0) as [Hn | Hp].
  - right. assert (E : (a - b) mod Q = a - b + Q).
    { symmetry. apply (Z.mod_unique _ _ (-1)); lia. }
    rewrite E. lia.
  - left. rewrite Z.mod_small by lia. lia.
Qed.

(** [_cbd]: on a stream of any length, [N] coefficients [(a - b) % Q] *)
Lemma cbd_centered (stream : bytes) (eta : nat) :
  Z.of_nat eta < Q ->
  exists p, _cbd N Q stream eta = Ok p /\ good N Q p /\ Forall (centered Q eta) p.
Proof.
  intro He. unfold _cbd.
  destruct (for_each_inv
              (fun p : list Z => length p = N /\ canonical Q p /\ Forall (centered Q eta) p)
              (range N)
              (fun poly i =>
                 ab <- for_each (range eta)
                         (fun '(a, b) j =>
                            a' <- cbd_bit stream (2 * eta * i + j) a ;;
                            b' <- cbd_bit stream (2 * eta * i + eta + j) b ;;
                            Ok (a', b'))
                         (0, 0) ;;
                 set poly i ((fst ab - snd ab) mod Q))
              (repeat 0 N)) as (p & E & Hl & Hc & Hs).
  - split; [apply repeat_length|]. split; [apply canonical_zero; exact Q_pos|].
    apply Forall_forall. intros c Hc. apply repeat_spec in Hc. subst c.
    left. lia.
  - intros poly i Hi (Hl & Hc & Hs). apply in_seq in Hi.
    destruct (cbd_pair_ok stream eta i) as (ab & Eab & Ha & Hb).
    rewrite Eab, bind_Ok.
    destruct (set_ok poly i ((fst ab - snd ab) mod Q)) as (p' & Ep & Hl'); [lia|].
    destruct (centered_mod eta (fst ab) (snd ab) He Ha Hb) as [Hcen Hcan].
    exists p'. split; [exact Ep|]. split; [lia|]. split.
    + unfold canonical in *. apply (set_Forall _ poly p' i _ Ep Hc Hcan).
    + apply (set_Forall _ poly p' i _ Ep Hs Hcen).
  - exists p. split; [exact E|]. split; [split; assumption | exact Hs].
Qed.

(** the 12-bit sampler keeps candidates below [Q] only *)
Lemma uniform_from_stream_range (stream : bytes) :
  (length stream mod 3 = 0)%nat ->
  exists p, uniform_from_stream N Q stream = Ok p /\ length p = N /\
            Forall (fun c => 0 <= c < Q /\ c < 4096) p.
Proof.
  intro Hm. unfold uniform_from_stream.
  destruct (for_break_inv
              (fun s : list Z * nat =>
                 length (fst s) = N /\ Forall (fun c => 0 <= c < Q /\ c < 4096) (fst s))
              (range_step (length stream) 3)
              (fun '(poly, j) i =>
                 if (N <=? j)%nat then Ok (Break (poly, j))
                 else
                   s0 <- get stream i ;;
                   s1 <- get stream (i + 1) ;;
                   d1 <- Ok (b2z s0 + 256 * (b2z s1 mod 16)) ;;
                   s1' <- get stream (i + 1) ;;
                   s2 <- get stream (i + 2) ;;
                   d2 <- Ok (b2z s1' / 16 + 16 * b2z s2) ;;
                   pj1 <- (if d1 <? Q then p <- set poly j d1 ;; Ok (p, S j)
                           else Ok (poly, j)) ;;
                   pj2 <- (if (d2 <? Q) && (snd pj1 <? N)%nat
                           then p <- set (fst pj1) (snd pj1) d2 ;; Ok (p, S (snd pj1))
                           else Ok pj1) ;;
                   Ok (Next pj2))
              (repeat 0 N, 0%nat)) as (s & E & Hs).
  - cbn [fst]. split; [apply repeat_length|].
    apply Forall_forall. intros c Hc. apply repeat_spec in Hc. lia.
  - intros [poly j] i Hi [Hp Hf]. cbn [fst] in Hp, Hf.
    apply (range_step_in _ 3) in Hi; [|lia|exact Hm].
    destruct (Nat.leb_spec N j) as [Hj | Hj].
    + eexists. split; [reflexivity|]. cbn [fst]. split; assumption.
    + rewrite (get_nth stream i x00), (get_nth stream (i + 1) x00),
        (get_nth stream (i + 2) x00) by lia.
      rewrite !bind_Ok.
      pose proof (b2z_range (nth i stream x00)) as R0.
      pose proof (b2z_range (nth (i + 1) stream x00)) as R1.
      pose proof (b2z_range (nth (i + 2) stream x00)) as R2.
      set (d1 := b2z (nth i stream x00) + 256 * (b2z (nth (i + 1) stream x00) mod 16)).
      set (d2 := b2z (nth (i + 1) stream x00) / 16 + 16 * b2z (nth (i + 2) stream x00)).
      assert (Hd1 : 0 <= d1 < 4096).
      { unfold d1. pose proof (Z.mod_pos_bound (b2z (nth (i + 1) stream x00)) 16
                                 ltac:(lia)). lia. }
      assert (Hd2 : 0 <= d2 < 4096).
      { unfold d2.
        assert (0 <= b2z (nth (i + 1) stream x00) / 16 < 16).
        { split; [apply Z.div_pos; lia | apply Z.div_lt_upper_bound; lia]. }
        lia. }
      assert (H1 : exists pj1,
                 (if d1 <? Q then p <- set poly j d1 ;; Ok (p, S j) else Ok (poly, j))
                 = Ok pj1 /\ length (fst pj1) = N /\
                 Forall (fun c => 0 <= c < Q /\ c < 4096) (fst pj1)).
      { destruct (Z.ltb_spec d1 Q) as [Hq | Hq].
        - destruct (set_ok poly j d1) as (p & Ep & Hl); [lia|].
          rewrite Ep, bind_Ok. eexists. split; [reflexivity|]. cbn [fst].
          split; [lia|]. apply (set_Forall _ poly p j d1 Ep Hf). lia.
        - eexists. split; [reflexivity|]. cbn [fst]. split; assumption. }
      destruct H1 as (pj1 & E1 & Hl1 & Hf1). rewrite E1, bind_Ok.
      destruct (Z.ltb_spec d2 Q) as [Hq | Hq]; cbn [andb].
      * destruct (Nat.ltb_spec (snd pj1) N) as [Hn | Hn].
        -- destruct (set_ok (fst pj1) (snd pj1) d2) as (p & Ep & Hl); [lia|].
           rewrite Ep, !bind_Ok. eexists. split; [reflexivity|]. cbn [fst].
           split; [lia|]. apply (set_Forall _ (fst pj1) p (snd pj1) d2 Ep Hf1). lia.
        -- rewrite bind_Ok. eexists. split; [reflexivity|]. split; assumption.
      * rewrite bind_Ok. eexists. split; [reflexivity|]. split; assumption.
  - rewrite E, bind_Ok. exists (fst s). split; [reflexivity | exact Hs].
Qed.

Lemma matrix_transpose_vector_mul_good (k l : nat) (A : list (list (list Z)))
      (v : list (list Z)) :
  (0 < k)%nat -> is_matrix N k l A -> is_vec N k v ->
  exists r, _matrix_transpose_vector_mul N Q A v = Ok r /\ good_vec N Q l r.
Proof.
  intros Hk [HlA HfA] [Hlv Hfv]. unfold _matrix_transpose_vector_mul.
  rewrite (get_nth A 0 []) by lia. rewrite bind_Ok.
  assert (Hrow : forall i, (i < k)%nat -> is_vec N l (nth i A [])).
  { intros i Hi. rewrite Forall_forall in HfA. apply HfA. apply nth_In. lia. }
  destruct (map_r_inv (good N Q)
              (fun j =>
                 for_each (range (length A))
                   (fun poly_sum i =>
                      row <- get A i ;;
                      aij <- get row j ;;
                      vi <- get v i ;;
                      poly_prod <- _poly_mul N Q aij vi ;;
                      _poly_add N Q poly_sum poly_prod)
                   (repeat 0 N))
              (range (length (nth 0 A [])))) as (r & E & Hl & Hf).
  - intros j Hj. apply in_seq in Hj.
    destruct (Hrow 0%nat Hk) as [Hl0 _]. rewrite Hl0 in Hj.
    apply for_each_inv; [apply good_zero; exact Q_pos|].
    intros s i Hi [Hs _]. apply in_seq in Hi.
    rewrite (get_nth A i []) by lia. rewrite bind_Ok.
    rewrite (get_nth (nth i A []) j []) by (destruct (Hrow i ltac:(lia)); lia).
    rewrite bind_Ok. rewrite (get_nth v i []) by lia. rewrite bind_Ok.
    destruct (poly_mul_good N Q Q_pos (nth j (nth i A []) []) (nth i v []))
      as (p & Ep & [Hp _]).
    + apply (is_vec_nth N l); [apply Hrow; lia | lia].
    + apply (is_vec_nth N k); [split; assumption | lia].
    + rewrite Ep, bind_Ok. apply poly_add_good; assumption.
  - exists r. split; [exact E|]. split; [|exact Hf].
    unfold range in Hl. rewrite length_seq in Hl.
    destruct (Hrow 0%nat Hk) as [Hl0 _]. lia.
Qed.

End SamplerFacts.

Module KyberKeys.
Import Kyber1024.

Lemma sample_poly_cbd_centered (seed : bytes) (eta k : nat) :
  (k <= 256)%nat -> Z.of_nat eta < Q ->
  exists v, _sample_poly_cbd seed eta k = Ok v /\ good_vec N Q k v /\
            Forall (Forall (centered Q eta)) v.
Proof.
  intros Hk He. unfold _sample_poly_cbd.
  destruct (map_r_inv (fun p : list Z => good N Q p /\ Forall (centered Q eta) p)
              (fun i =>
                 bi <- bytes_of_ints [Z.of_nat i] ;;
                 let stream := _shake128 (seed ++ bi) (64 * eta) in
                 _cbd stream eta)
              (range k)) as (v & E & Hl & Hf).
  - intros i Hi. apply in_seq in Hi. rewrite bytes_of_ints_1 by lia.
    rewrite bind_Ok. cbv zeta.
    destruct (cbd_centered N Q ltac:(reflexivity) (_shake128 (seed ++ [z2b (Z.of_nat i)])
                                                     (64 * eta)) eta He)
      as (p & Ep & Hg & Hc).
    exists p. split; [exact Ep|]. split; assumption.
  - exists v. split; [exact E|]. unfold range in Hl. rewrite length_seq in Hl.
    split.
    + split; [exact Hl|]. eapply Forall_impl; [|exact Hf]. intros p [Hp _]. exact Hp.
    + eapply Forall_impl; [|exact Hf]. intros p [_ Hp]. exact Hp.
Qed.

Lemma sample_uniform_poly_range (seed : bytes) :
  exists p, _sample_uniform_poly seed = Ok p /\ length p = N /\ canonical Q p.
Proof.
  unfold _sample_uniform_poly. cbv zeta.
  destruct (uniform_from_stream_range N Q ltac:(reflexivity) (_shake128 seed (3 * N)))
    as (p & E & Hl & Hf).
  - unfold _shake128. rewrite shake_128_length, Nat.mul_comm. apply Nat.Div0.mod_mul.
  - exists p. split; [exact E|]. split; [exact Hl|].
    unfold canonical. eapply Forall_impl; [|exact Hf]. intros c [Hc _]. exact Hc.
Qed.

Lemma gen_matrix_ok (rho : bytes) :
  exists A, _gen_matrix rho = Ok A /\ is_matrix N K K A.
Proof.
  apply expand_ok; [unfold K; lia | unfold K; lia |].
  intro seed. destruct (sample_uniform_poly_range seed) as (p & E & Hl & _).
  exists p. split; assumption.
Qed.

Lemma pack_vec (data : bytes) (k : nat) (v : list (list Z)) :
  is_vec N k v -> coeffs_below 65536 v ->
  write_vec 2 false data v = Ok (data ++ flat_map (flat_map (enc 2 false)) v) /\
  length (flat_map (flat_map (enc 2 false)) v) = (2 * N * k)%nat.
Proof.
  intros Hv Hc. split.
  - apply write_vec_enc; [lia | exact Hc].
  - apply flat_flat_enc_length. exact Hv.
Qed.

Lemma public_key_codec (t : list (list Z)) (rho : bytes) :
  length rho = 32%nat -> is_vec N K t -> coeffs_below 65536 t ->
  exists pk, _pack_public_key t rho = Ok pk /\ length pk = 2080%nat /\
             _unpack_public_key pk = (t, rho).
Proof.
  intros Hr Ht Hc. destruct (pack_vec rho K t Ht Hc) as [E Hl].
  unfold _pack_public_key. rewrite E. eexists. split; [reflexivity|]. split.
  - rewrite length_app, Hl, Hr. reflexivity.
  - unfold _unpack_public_key. cbv zeta.
    pose proof (read_vec_enc 2 N K false t rho [] ltac:(lia) Hc Ht) as R.
    rewrite app_nil_r, Hr in R. rewrite R.
    rewrite firstn_app, <- Hr, firstn_all, Nat.sub_diag. cbn [firstn].
    rewrite app_nil_r. reflexivity.
Qed.

Lemma private_key_codec (s : list (list Z)) :
  is_vec N K s -> coeffs_below 65536 s ->
  exists sk, _pack_private_key s = Ok sk /\ length sk = 2048%nat /\
             _unpack_private_key sk = s.
Proof.
  intros Hs Hc. destruct (pack_vec [] K s Hs Hc) as [E Hl].
  unfold _pack_private_key. rewrite E. eexists. split; [reflexivity|]. split.
  - cbn [app]. rewrite Hl. reflexivity.
  - unfold _unpack_private_key.
    pose proof (read_vec_enc 2 N K false s [] [] ltac:(lia) Hc Hs) as R.
    rewrite app_nil_r in R. cbn [app length] in R. cbn [app]. rewrite R. reflexivity.
Qed.

Lemma ciphertext_codec (u : list (list Z)) (v : list Z) :
  is_vec N K u -> length v = N -> coeffs_below 65536 u ->
  Forall (fun c => 0 <= c < 65536) v ->
  exists ct, _pack_ciphertext u v = Ok ct /\ length ct = 2560%nat /\
             _unpack_ciphertext ct = (u, v).
Proof.
  intros Hu Hv Hcu Hcv. destruct (pack_vec [] K u Hu Hcu) as [E Hl].
  unfold _pack_ciphertext. rewrite E, bind_Ok. cbn [app].
  rewrite (write_poly_enc 2 false v ltac:(lia) Hcv).
  eexists. split; [reflexivity|]. split.
  - rewrite length_app, Hl, flat_enc_length, Hv. reflexivity.
  - unfold _unpack_ciphertext.
    pose proof (read_vec_enc 2 N K false u [] (flat_map (enc 2 false) v)
                  ltac:(lia) Hcu Hu) as R.
    cbn [app length Nat.add] in R. rewrite R.
    pose proof (read_poly_enc 2 N false v (flat_map (flat_map (enc 2 false)) u) []
                  ltac:(lia) Hcv Hv) as R2.
    rewrite app_nil_r, Hl in R2. rewrite R2. reflexivity.
Qed.

Lemma keygen_total (seed : bytes) :
  exists pk sk, keygen seed = Ok (pk, sk) /\
                length pk = 2080%nat /\ length sk = 2048%nat.
Proof.
  unfold keygen. cbv zeta.
  destruct (gen_matrix_ok (_shake128 seed 32)) as (A & EA & HA). rewrite EA, bind_Ok.
  destruct (sample_poly_cbd_centered (_shake128 (seed ++ [x01]) 32) ETA1 K)
    as (s & Es & Hs & _); [unfold K; lia | reflexivity|].
  rewrite Es, bind_Ok.
  destruct (sample_poly_cbd_centered (_shake128 (seed ++ [x01]) 32 ++ [x01]) ETA1 K)
    as (e & Ee & He & _); [unfold K; lia | reflexivity|].
  rewrite Ee, bind_Ok.
  destruct (matrix_vector_mul_good N Q ltac:(reflexivity) K K A s HA
              (good_vec_is_vec N Q K s Hs)) as (t0 & Et0 & Ht0).
  unfold _matrix_vector_mul. rewrite Et0, bind_Ok.
  destruct (vector_add_good N Q ltac:(reflexivity) K t0 e
              (good_vec_is_vec N Q K t0 Ht0) (good_vec_is_vec N Q K e He))
    as (t & Et & Ht).
  unfold _vector_add. rewrite Et, bind_Ok.
  destruct (public_key_codec t (_shake128 seed 32)) as (pk & Epk & Hpk & _).
  - unfold _shake128. apply shake_128_length.
  - exact (good_vec_is_vec N Q K t Ht).
  - apply (coeffs_below_weaken Q); [unfold Q; lia|].
    exact (good_vec_coeffs_below N Q K t Ht).
  - rewrite Epk, bind_Ok.
    destruct (private_key_codec s) as (sk & Esk & Hsk & _).
    + exact (good_vec_is_vec N Q K s Hs).
    + apply (coeffs_below_weaken Q); [unfold Q; lia|].
      exact (good_vec_coeffs_below N Q K s Hs).
    + rewrite Esk, bind_Ok. exists pk, sk. split; [reflexivity|]. split; assumption.
Qed.

Lemma unpack_public_key_shape (pk : bytes) : is_vec N K (fst (_unpack_public_key pk)).
Proof.
  unfold _unpack_public_key. cbv zeta.
  pose proof (read_vec_is_vec K N 2 false pk 32) as H.
  destruct (read_vec K N 2 false pk 32) as [t off]. exact H.
Qed.

Lemma encaps_total (pk m : bytes) :
  length m = 32%nat ->
  exists ct ss, encaps pk m = Ok (ct, ss) /\
                length ct = 2560%nat /\ length ss = 32%nat.
Proof.
  intro Hm. unfold encaps.
  pose proof (unpack_public_key_shape pk) as Ht.
  destruct (_unpack_public_key pk) as [t rho]. cbn [fst] in Ht. cbv zeta.
  destruct (gen_matrix_ok rho) as (A & EA & HA). rewrite EA, bind_Ok.
  destruct (sample_poly_cbd_centered (_shake128 m 32) ETA1 K)
    as (r & Er & Hr & _); [unfold K; lia | reflexivity|].
  rewrite Er, bind_Ok.
  destruct (sample_poly_cbd_centered (_shake128 m 32 ++ [x01]) ETA2 K)
    as (e1 & Ee1 & He1 & _); [unfold K; lia | reflexivity|].
  rewrite Ee1, bind_Ok.
  destruct (sample_poly_cbd_centered (_shake128 m 32 ++ [x02]) ETA2 1)
    as (e2s & Ee2 & [Hl2 Hf2] & _); [lia | reflexivity|].
  rewrite Ee2, bind_Ok.
  rewrite (get_nth e2s 0 []) by lia. rewrite bind_Ok.
  assert (He2 : length (nth 0 e2s []) = N).
  { rewrite Forall_forall in Hf2. apply Hf2. apply nth_In. lia. }
  destruct (matrix_transpose_vector_mul_good N Q ltac:(reflexivity) K K A r
              ltac:(unfold K; lia) HA (good_vec_is_vec N Q K r Hr)) as (u0 & Eu0 & Hu0).
  unfold _matrix_transpose_vector_mul. rewrite Eu0, bind_Ok.
  destruct (vector_add_good N Q ltac:(reflexivity) K u0 e1
              (good_vec_is_vec N Q K u0 Hu0) (good_vec_is_vec N Q K e1 He1))
    as (u & Eu & Hu).
  unfold _vector_add. rewrite Eu, bind_Ok.
  destruct (vector_dot_product_good N Q ltac:(reflexivity) K t r Ht
              (good_vec_is_vec N Q K r Hr)) as (v0 & Ev0 & [Hv0 _]).
  unfold _vector_dot_product. rewrite Ev0, bind_Ok.
  destruct (poly_add_good N Q ltac:(reflexivity) v0 (nth 0 e2s []) Hv0 He2)
    as (v1 & Ev1 & [Hv1 _]).
  unfold _poly_add. rewrite Ev1, bind_Ok.
  destruct (KyberCodec.decode_message_two_level m Hm) as (dm & Edm & [Hdm _]).
  rewrite Edm, bind_Ok.
  destruct (poly_add_good N Q ltac:(reflexivity) v1 dm Hv1 Hdm) as (v & Ev & [Hv Hcv]).
  rewrite Ev, bind_Ok.
  destruct (ciphertext_codec u v) as (ct & Ect & Hct & _).
  - exact (good_vec_is_vec N Q K u Hu).
  - exact Hv.
  - apply (coeffs_below_weaken Q); [unfold Q; lia|].
    exact (good_vec_coeffs_below N Q K u Hu).
  - unfold canonical in Hcv. eapply Forall_impl; [|exact Hcv].
    intros c Hc. cbv beta in Hc. unfold Q in Hc. lia.
  - rewrite Ect, bind_Ok. eexists. eexists. split; [reflexivity|].
    split; [exact Hct|]. unfold _kdf. apply sha3_256_length.
Qed.

End KyberKeys.

(** *** Sums *)

Lemma zsum_app (l1 l2 : list Z) : zsum (l1 ++ l2) = zsum l1 + zsum l2.
Proof. unfold zsum. induction l1 as [|x l1 IH]; simpl; [reflexivity | rewrite IH; lia]. Qed.

Lemma zsum_map_add {A} (f g : A -> Z) (l : list A) :
  zsum (map (fun x => f x + g x) l) = zsum (map f l) + zsum (map g l).
Proof.
  unfold zsum. induction l as [|x l IH]; simpl; [reflexivity | rewrite IH; lia].
Qed.

Lemma zsum_map_zero {A} (l : list A) : zsum (map (fun _ => 0) l) = 0.
Proof. unfold zsum. induction l as [|x l IH]; simpl; [reflexivity | exact IH]. Qed.

Lemma zsum_map_ext {A} (f g : A -> Z) (l : list A) :
  (forall x, In x l -> f x = g x) -> zsum (map f l) = zsum (map g l).
Proof. intro H. f_equal. apply map_ext_in. exact H. Qed.

Lemma zsum_swap {A B} (f : A -> B -> Z) (l1 : list A) (l2 : list B) :
  zsum (map (fun i => zsum (map (fun j => f i j) l2)) l1)
  = zsum (map (fun j => zsum (map (fun i => f i j) l1)) l2).
Proof.
  induction l1 as [|x l1 IH].
  - cbn [map]. rewrite zsum_map_zero. reflexivity.
  - cbn [map]. change (zsum (?h :: ?t)) with (h + zsum t). rewrite IH.
    rewrite <- zsum_map_add. apply zsum_map_ext. intros j _. reflexivity.
Qed.

(** a sum with a single nonzero term *)
Lemma zsum_single (f : nat -> Z) (n i0 : nat) :
  (i0 < n)%nat -> (forall i, (i < n)%nat -> i <> i0 -> f i = 0) ->
  zsum (map f (seq 0 n)) = f i0.
Proof.
  intros Hi H.
  replace (seq 0 n) with (seq 0 i0 ++ [i0] ++ seq (S i0) (n - S i0)).
  - rewrite !map_app, !zsum_app.
    rewrite (zsum_map_ext f (fun _ => 0) (seq 0 i0)), zsum_map_zero.
    + rewrite (zsum_map_ext f (fun _ => 0) (seq (S i0) (n - S i0))), zsum_map_zero.
      * cbn [map zsum fold_right]. unfold zsum. cbn [fold_right]. lia.
      * intros i Hin. apply in_seq in Hin. apply H; lia.
    + intros i Hin. apply in_seq in Hin. apply H; lia.
  - change ([i0] ++ seq (S i0) (n - S i0)) with (seq i0 (S (n - S i0))).
    rewrite <- seq_app. f_equal. lia.
Qed.

Lemma zsum_mod_congr {A} (Q : Z) (f g : A -> Z) (l : list A) :
  (forall x, In x l -> f x mod Q = g x mod Q) ->
  zsum (map f l) mod Q = zsum (map g l) mod Q.
Proof.
  intro H. induction l as [|x l IH]; [reflexivity|].
  cbn [map]. change (zsum (?h :: ?t)) with (h + zsum t).
  rewrite (Zplus_mod (f x)), (Zplus_mod (g x)).
  rewrite (H x (or_introl eq_refl)), IH; [reflexivity|].
  intros y Hy. apply H. right. exact Hy.
Qed.

Lemma zsum_mod_add {A} (Q : Z) (f g : A -> Z) (l : list A) :
  (zsum (map f l) mod Q + zsum (map g l) mod Q) mod Q
  = zsum (map (fun x => f x + g x) l) mod Q.
Proof. rewrite zsum_map_add, <- Zplus_mod. reflexivity. Qed.

(** *** Laws of the ring arithmetic *)

Section RingLaws.
Variable N : nat.
Variable Q : Z.
Hypothesis Q_pos : 0 < Q.

Lemma coef_map_range (f : nat -> Z) (i : nat) :
  (i < N)%nat -> coef (map f (range N)) i = f i.
Proof.
  intro Hi. unfold coef, range.
  rewrite (nth_indep _ 0 (f 0%nat)) by (rewrite length_map, length_seq; exact Hi).
  rewrite map_nth, seq_nth by exact Hi. reflexivity.
Qed.

Lemma map_range_length (f : nat -> Z) : length (map f (range N)) = N.
Proof. unfold range. rewrite length_map, length_seq. reflexivity. Qed.

Lemma negacyclic_term_comm (a b : list Z) (k i j : nat) :
  negacyclic_term N a b k i j = negacyclic_term N b a k j i.
Proof.
  unfold negacyclic_term. rewrite (Nat.add_comm j i), (Z.mul_comm (coef b j)).
  reflexivity.
Qed.

Lemma negacyclic_comm (a b : list Z) : negacyclic N Q a b = negacyclic N Q b a.
Proof.
  unfold negacyclic. apply map_ext. intro k. f_equal.
  rewrite zsum_swap. apply zsum_map_ext. intros j _.
  apply zsum_map_ext. intros i _. apply negacyclic_term_comm.
Qed.

Lemma poly_mul_comm (a b : list Z) :
  length a = N -> length b = N -> _poly_mul N Q a b = _poly_mul N Q b a.
Proof.
  intros Ha Hb. rewrite !(poly_mul_negacyclic N Q Q_pos) by assumption.
  f_equal. apply negacyclic_comm.
Qed.

Lemma negacyclic_term_mod_r (a b b' : list Z) (k i j : nat) :
  coef b j mod Q = coef b' j mod Q ->
  negacyclic_term N a b k i j mod Q = negacyclic_term N a b' k i j mod Q.
Proof.
  intro H. unfold negacyclic_term.
  destruct ((i + j) mod N =? k)%nat; [|reflexivity].
  assert (E : (coef a i * coef b j) mod Q = (coef a i * coef b' j) mod Q).
  { rewrite (Zmult_mod (coef a i) (coef b j)), H, <- Zmult_mod. reflexivity. }
  destruct (i + j <? N)%nat; [exact E|].
  rewrite <- !Z.sub_0_l. rewrite (Zminus_mod 0 (coef a i * coef b j)), E, <- Zminus_mod.
  reflexivity.
Qed.

Lemma negacyclic_term_add (a b c : list Z) (k i j : nat) :
  negacyclic_term N a (map (fun n => coef b n + coef c n) (range N)) k i j
  = if (j <? N)%nat
    then negacyclic_term N a b k i j + negacyclic_term N a c k i j
    else 0.
Proof.
  unfold negacyclic_term. destruct (Nat.ltb_spec j N) as [Hj | Hj].
  - rewrite coef_map_range by exact Hj.
    destruct ((i + j) mod N =? k)%nat; [|reflexivity].
    destruct (i + j <? N)%nat; lia.
  - assert (E : coef (map (fun n => coef b n + coef c n) (range N)) j = 0).
    { unfold coef at 1. apply nth_overflow. rewrite map_range_length. exact Hj. }
    rewrite E. destruct ((i + j) mod N =? k)%nat; [|reflexivity].
    destruct (i + j <? N)%nat; lia.
Qed.

Lemma poly_mul_add_distr (a b c : list Z) :
  length a = N -> length b = N -> length c = N ->
  (bc <- _poly_add N Q b c ;; _poly_mul N Q a bc)
  = (ab <- _poly_mul N Q a b ;; ac <- _poly_mul N Q a c ;; _poly_add N Q ab ac).
Proof.
  intros Ha Hb Hc.
  rewrite (poly_add_ok N Q b c Hb Hc), bind_Ok.
  rewrite (poly_mul_negacyclic N Q Q_pos a _ Ha (map_range_length _)).
  rewrite !(poly_mul_negacyclic N Q Q_pos) by assumption. rewrite !bind_Ok.
  rewrite poly_add_ok by (unfold negacyclic; apply map_range_length).
  f_equal. unfold negacyclic at 1. apply map_ext_in. intros k Hk. apply in_seq in Hk.
  unfold negacyclic. rewrite !coef_map_range by lia.
  rewrite zsum_mod_add. apply zsum_mod_congr. intros i Hi.
  rewrite <- zsum_map_add. apply zsum_mod_congr. intros j Hj. apply in_seq in Hj.
  rewrite (negacyclic_term_mod_r a _ (map (fun n => coef b n + coef c n) (range N))).
  - rewrite negacyclic_term_add. destruct (Nat.ltb_spec j N); [reflexivity | lia].
  - rewrite !coef_map_range by lia. apply Z.mod_mod. lia.
Qed.

Lemma poly_add_comm (a b : list Z) :
  length a = N -> length b = N -> _poly_add N Q a b = _poly_add N Q b a.
Proof.
  intros Ha Hb. rewrite !poly_add_ok by assumption. f_equal.
  apply map_ext. intro i. f_equal. lia.
Qed.

Lemma poly_add_sub_cancel (a b : list Z) :
  length a = N -> length b = N -> canonical Q a ->
  (s <- _poly_add N Q a b ;; _poly_sub N Q s b) = Ok a.
Proof.
  intros Ha Hb Hc. rewrite poly_add_ok by assumption. rewrite bind_Ok.
  rewrite poly_sub_ok by (try apply map_range_length; assumption).
  f_equal. apply (nth_ext _ _ 0 0).
  - rewrite map_range_length. symmetry. exact Ha.
  - intros i Hi. rewrite map_range_length in Hi.
    change (nth i ?l 0) with (coef l i). rewrite !coef_map_range by exact Hi.
    rewrite Zminus_mod_idemp_l. replace (coef a i + coef b i - coef b i) with (coef a i) by lia.
    apply Z.mod_small. unfold canonical in Hc. rewrite Forall_forall in Hc.
    apply Hc. unfold coef. apply nth_In. lia.
Qed.

Lemma coef_monomial (m j : nat) :
  coef (monomial N m) j = if (j <? N)%nat && (j =? m)%nat then 1 else 0.
Proof.
  unfold monomial. destruct (Nat.ltb_spec j N) as [Hj | Hj]; cbn [andb].
  - rewrite coef_map_range by exact Hj. reflexivity.
  - unfold coef. apply nth_overflow. rewrite map_range_length. exact Hj.
Qed.

Lemma negacyclic_monomial (a : list Z) (m : nat) :
  (m < N)%nat -> negacyclic N Q a (monomial N m) = rotate_negate N Q a m.
Proof.
  intro Hm. unfold negacyclic, rotate_negate. apply map_ext_in. intros k Hk.
  apply in_seq in Hk. f_equal.
  rewrite (zsum_map_ext _ (fun i => negacyclic_term N a (monomial N m) k i m)).
  2:{ intros i _. unfold range. apply zsum_single; [exact Hm|].
      intros j Hj Hne. unfold negacyclic_term. rewrite coef_monomial.
      destruct (Nat.eqb_spec j m); [contradiction|]. rewrite andb_false_r.
      destruct ((i + j) mod N =? k)%nat; [|reflexivity].
      destruct (i + j <? N)%nat; lia. }
  assert (Hone : coef (monomial N m) m = 1).
  { rewrite coef_monomial. destruct (Nat.ltb_spec m N); [|lia].
    rewrite Nat.eqb_refl. reflexivity. }
  destruct (Nat.leb_spec m k) as [Hle | Hgt].
  - unfold range. rewrite (zsum_single _ N (k - m)); [|lia|].
    + unfold negacyclic_term. rewrite Hone.
      replace (k - m + m)%nat with k by lia.
      rewrite Nat.mod_small by lia. rewrite Nat.eqb_refl.
      destruct (Nat.ltb_spec k N); [lia | lia].
    + intros i Hi Hne. unfold negacyclic_term.
      destruct (Nat.eqb_spec ((i + m) mod N) k) as [E | _]; [|reflexivity].
      exfalso. destruct (Nat.lt_ge_cases (i + m) N) as [Hs | Hs].
      * rewrite Nat.mod_small in E by exact Hs. lia.
      * assert (E' : ((i + m) mod N = i + m - N)%nat).
        { symmetry. apply (Nat.mod_unique (i + m) N 1); lia. }
        lia.
  - unfold range. rewrite (zsum_single _ N (N + k - m)); [|lia|].
    + unfold negacyclic_term. rewrite Hone.
      assert (E : ((N + k - m + m) mod N = k)%nat).
      { symmetry. apply (Nat.mod_unique (N + k - m + m) N 1); lia. }
      rewrite E, Nat.eqb_refl.
      destruct (Nat.ltb_spec (N + k - m + m) N); lia.
    + intros i Hi Hne. unfold negacyclic_term.
      destruct (Nat.eqb_spec ((i + m) mod N) k) as [E | _]; [|reflexivity].
      exfalso. destruct (Nat.lt_ge_cases (i + m) N) as [Hs | Hs].
      * rewrite Nat.mod_small in E by exact Hs. lia.
      * assert (E' : ((i + m) mod N = i + m - N)%nat).
        { symmetry. apply (Nat.mod_unique (i + m) N 1); lia. }
        lia.
Qed.

Lemma poly_mul_monomial (a : list Z) (m : nat) :
  length a = N -> (m < N)%nat ->
  _poly_mul N Q a (monomial N m) = Ok (rotate_negate N Q a m).
Proof.
  intros Ha Hm. rewrite (poly_mul_negacyclic N Q Q_pos) by
    (try assumption; unfold monomial; apply map_range_length).
  f_equal. apply negacyclic_monomial. exact Hm.
Qed.

End RingLaws.

Lemma for_each_append {A B : Type} (f : A -> B) (xs : list A)
      (body : list B -> A -> result (list B)) :
  (forall x acc, In x xs -> body acc x = Ok (acc ++ [f x])) ->
  forall acc, for_each xs body acc = Ok (acc ++ map f xs).
Proof.
  induction xs as [|x xs IH]; intros H acc.
  - cbn [for_each map]. rewrite app_nil_r. reflexivity.
  - cbn [for_each map]. rewrite (H x acc (or_introl eq_refl)), bind_Ok.
    rewrite IH by (intros y a Hy; apply H; right; exact Hy).
    rewrite <- app_assoc. reflexivity.
Qed.

(** *** The infinity norm *)

Lemma norm_poly (p : list Z) :
  forall m, 0 <= m ->
  fold_left (fun max_norm coeff =>
               let norm := Z.abs coeff in
               if max_norm <? norm then norm else max_norm) p m
  = Z.max m (fold_right Z.max 0 (map Z.abs p)).
Proof.
  induction p as [|c p IH]; intros m Hm.
  - cbn [fold_left map fold_right]. lia.
  - cbn [fold_left map fold_right]. cbv zeta.
    destruct (Z.ltb_spec m (Z.abs c)).
    + rewrite IH by lia. lia.
    + rewrite IH by lia. lia.
Qed.

Lemma fold_max_nonneg (l : list Z) : 0 <= fold_right Z.max 0 l.
Proof. induction l as [|x l IH]; cbn [fold_right]; lia. Qed.

Lemma fold_max_app (l1 l2 : list Z) :
  fold_right Z.max 0 (l1 ++ l2) = Z.max (fold_right Z.max 0 l1) (fold_right Z.max 0 l2).
Proof.
  induction l1 as [|x l1 IH]; cbn [app fold_right].
  - pose proof (fold_max_nonneg l2). lia.
  - rewrite IH. lia.
Qed.

Lemma norm_vec (v : list (list Z)) :
  forall m, 0 <= m ->
  fold_left
    (fun max_norm poly =>
       fold_left
         (fun max_norm coeff =>
            let norm := Z.abs coeff in
            if max_norm <? norm then norm else max_norm)
         poly max_norm)
    v m
  = Z.max m (max_abs v).
Proof.
  unfold max_abs. induction v as [|p v IH]; intros m Hm.
  - cbn [fold_left concat map fold_right]. lia.
  - cbn [fold_left concat]. rewrite norm_poly by exact Hm.
    rewrite IH by (pose proof (fold_max_nonneg (map Z.abs p)); lia).
    rewrite map_app, fold_max_app. lia.
Qed.

Lemma infinity_norm_max_abs (v : list (list Z)) :
  Signatures._infinity_norm v = max_abs v.
Proof.
  unfold Signatures._infinity_norm. rewrite norm_vec by lia.
  unfold max_abs. pose proof (fold_max_nonneg (map Z.abs (concat v))). lia.
Qed.

Lemma fold_max_bound (l : list Z) (b : Z) :
  0 < b -> (fold_right Z.max 0 l < b <-> Forall (fun x => x < b) l).
Proof.
  intro Hb. induction l as [|x l IH]; cbn [fold_right].
  - split; [constructor | lia].
  - split.
    + intro H. constructor; [lia|]. apply IH. lia.
    + intro H. inversion H; subst. apply IH in H3. lia.
Qed.

Lemma max_abs_bound (v : list (list Z)) (b : Z) :
  0 < b -> (max_abs v < b <-> coeffs_between (- b + 1) b v).
Proof.
  intro Hb. unfold max_abs, coeffs_between. rewrite (fold_max_bound _ b Hb).
  rewrite Forall_map, Forall_concat. split; intro H.
  - eapply Forall_impl; [|exact H]. intros p Hp.
    eapply Forall_impl; [|exact Hp]. intros c Hc. cbv beta in Hc. lia.
  - eapply Forall_impl; [|exact H]. intros p Hp.
    eapply Forall_impl; [|exact Hp]. intros c Hc. cbv beta in Hc. lia.
Qed.

Lemma fold_max_attained (l : list Z) :
  (forall x, In x l -> 0 <= x) ->
  (forall x, In x l -> x <= fold_right Z.max 0 l) /\
  (l = [] /\ fold_right Z.max 0 l = 0 \/ In (fold_right Z.max 0 l) l).
Proof.
  induction l as [|x l IH]; intro Hpos.
  - split; [intros x [] | left; split; reflexivity].
  - destruct IH as [Hle Hat]; [intros y Hy; apply Hpos; right; exact Hy|].
    cbn [fold_right]. split.
    + intros y [-> | Hy]; [lia | specialize (Hle y Hy); lia].
    + right. destruct (Z.max_spec x (fold_right Z.max 0 l)) as [[Hlt E] | [Hge E]];
        rewrite E.
      * destruct Hat as [[El E0] | Hin].
        -- exfalso. specialize (Hpos x (or_introl eq_refl)). lia.
        -- right. exact Hin.
      * left. reflexivity.
Qed.

Module SignaturesSigning.
Import Signatures.

Lemma mask_from_stream_spec (stream : bytes) :
  mask_from_stream stream
  = Ok (map (fun j => from_bytes_le (slice stream (j * 3) 3) mod (2 * GAMMA1) - GAMMA1)
            (range N)).
Proof.
  unfold mask_from_stream.
  rewrite (for_each_append
             (fun j => from_bytes_le (slice stream (j * 3) 3) mod (2 * GAMMA1) - GAMMA1)).
  - reflexivity.
  - intros j acc _. rewrite gather_spec, bind_Ok. reflexivity.
Qed.

Lemma sample_mask_range (seed : bytes) (l : nat) :
  (l <= 256)%nat ->
  exists y, _sample_mask seed l = Ok y /\ is_vec N l y /\
            coeffs_between (- GAMMA1) GAMMA1 y.
Proof.
  intro Hl. unfold _sample_mask.
  destruct (map_r_inv
              (fun p : list Z => length p = N /\ Forall (fun c => - GAMMA1 <= c < GAMMA1) p)
              (fun i =>
                 bi <- bytes_of_ints [Z.of_nat i] ;;
                 let stream := _shake256 (seed ++ bi) (N * 3) in
                 mask_from_stream stream)
              (range l)) as (y & E & Hly & Hf).
  - intros i Hi. apply in_seq in Hi. rewrite bytes_of_ints_1 by lia.
    rewrite bind_Ok. cbv zeta. rewrite mask_from_stream_spec.
    eexists. split; [reflexivity|]. split.
    + unfold range. rewrite length_map, length_seq. reflexivity.
    + apply Forall_forall. intros c Hc. apply in_map_iff in Hc.
      destruct Hc as (j & <- & _).
      pose proof (Z.mod_pos_bound
                    (from_bytes_le (slice (_shake256 (seed ++ [z2b (Z.of_nat i)]) (N * 3))
                                          (j * 3) 3))
                    (2 * GAMMA1) ltac:(reflexivity)).
      lia.
  - exists y. split; [exact E|]. unfold range in Hly. rewrite length_seq in Hly.
    split.
    + split; [exact Hly|]. eapply Forall_impl; [|exact Hf]. intros p [Hp _]. exact Hp.
    + unfold coeffs_between. eapply Forall_impl; [|exact Hf]. intros p [_ Hp]. exact Hp.
Qed.

Lemma high_bits_below (k : nat) (w : list (list Z)) :
  good_vec N Q k w -> coeffs_below 65536 (_high_bits w).
Proof.
  intro Hw. unfold _high_bits.
  apply (coeffs_below_map _ Q 65536 k).
  - intros c Hc. pose proof (SignaturesShapes.high_range c Hc). lia.
  - exact (good_vec_canonical N Q k w Hw).
Qed.

(** one pass of the loop of [sign], with a nonce that fits two bytes: the
    candidate is rejected or the pass stops at [-c] *)
Lemma pass_outcome (rho K_seed : bytes) (s1 s2 : list (list Z)) (mu : bytes) (kappa : Z) :
  is_vec N L s1 -> is_vec N K s2 -> 0 <= kappa < 65536 ->
  sign_iteration rho K_seed s1 s2 mu kappa = Ok None \/
  sign_iteration rho K_seed s1 s2 mu kappa = Raise TypeError.
Proof.
  intros Hs1 Hs2 Hk. unfold sign_iteration.
  assert (Ekb : to_bytes_le 2 kappa = Ok (le_digits 2 kappa)).
  { unfold to_bytes_le. change (2 ^ (8 * Z.of_nat 2)) with 65536.
    destruct (Z.leb_spec 0 kappa); [|lia].
    destruct (Z.ltb_spec kappa 65536); [|lia]. reflexivity. }
  rewrite Ekb, bind_Ok. cbv zeta.
  destruct (sample_mask_range (_shake256 (K_seed ++ mu ++ le_digits 2 kappa) 64) L)
    as (y & Ey & Hy & _); [unfold L; lia|].
  rewrite Ey, bind_Ok.
  destruct (SignaturesFacts.expand_A_ok rho) as (A & EA & HA). rewrite EA, bind_Ok.
  destruct (matrix_vector_mul_good N Q ltac:(reflexivity) K L A y HA Hy) as (w & Ew & Hw).
  unfold _matrix_vector_mul. rewrite Ew, bind_Ok.
  destruct (SignaturesShapes.pack_w1_ok (_high_bits w) (high_bits_below K w Hw))
    as (pw1 & Epw1).
  rewrite Epw1, bind_Ok.
  destruct (SignaturesShapes.sample_in_ball_ok (_sha3_256 (mu ++ pw1))) as (c & Ec & Hc).
  rewrite Ec, bind_Ok.
  destruct (scalar_vector_mul_good N Q ltac:(reflexivity) L c s1 Hc Hs1)
    as (cs1 & Ecs1 & Hcs1).
  unfold _scalar_vector_mul. rewrite Ecs1, bind_Ok.
  destruct (vector_add_good N Q ltac:(reflexivity) L y cs1 Hy
              (good_vec_is_vec N Q L cs1 Hcs1)) as (z & Ez & Hz).
  unfold _vector_add. rewrite Ez, bind_Ok.
  destruct (GAMMA1 - BETA <=? _infinity_norm z); [left; reflexivity|].
  destruct (scalar_vector_mul_good N Q ltac:(reflexivity) K c s2 Hc Hs2)
    as (cs2 & Ecs2 & Hcs2).
  rewrite Ecs2, bind_Ok.
  destruct (vector_sub_good N Q ltac:(reflexivity) K w cs2
              (good_vec_is_vec N Q K w Hw) (good_vec_is_vec N Q K cs2 Hcs2))
    as (d & Ed & Hd).
  unfold _vector_sub. rewrite Ed, bind_Ok.
  destruct (GAMMA2 - BETA <=? _infinity_norm (_low_bits d)); [left; reflexivity|].
  right. reflexivity.
Qed.

Lemma unpack_private_key_shapes (sk : bytes) :
  let '(_, _, s1, s2, _) := _unpack_private_key sk in is_vec N L s1 /\ is_vec N K s2.
Proof.
  unfold _unpack_private_key. cbv zeta.
  pose proof (read_vec_is_vec L N 4 true sk 64) as H1.
  destruct (read_vec L N 4 true sk 64) as [s1 o1]. cbn [fst] in H1.
  pose proof (read_vec_is_vec K N 4 true sk o1) as H2.
  destruct (read_vec K N 4 true sk o1) as [s2 o2]. cbn [fst] in H2.
  destruct (read_vec K N 4 false sk o2) as [t o3].
  split; assumption.
Qed.

Section Loop.
Variables (rho K_seed : bytes) (s1 s2 : list (list Z)) (mu : bytes).
Hypothesis Hs1 : is_vec N L s1.
Hypothesis Hs2 : is_vec N K s2.

Lemma loop_never_returns (fuel : nat) :
  forall kappa sig, 0 <= kappa ->
    sign_loop fuel rho K_seed s1 s2 mu kappa <> finished (Ok sig).
Proof.
  induction fuel as [|fuel IH]; intros kappa sig Hk; [discriminate|].
  cbn [sign_loop].
  destruct (Z_lt_le_dec kappa 65536) as [Hlt | Hge].
  - destruct (pass_outcome rho K_seed s1 s2 mu kappa Hs1 Hs2 (conj Hk Hlt)) as [E | E];
      rewrite E; [apply IH; lia | discriminate].
  - rewrite SignaturesSignLoop.pass_overflow by exact Hge. discriminate.
Qed.

Lemma loop_raises (fuel : nat) :
  forall kappa, 0 <= kappa -> 65536 <= kappa + Z.of_nat fuel ->
    exists (n : nat) (e : exn),
      (n <= fuel)%nat /\
      sign_loop (S n) rho K_seed s1 s2 mu kappa = finished (Raise e) /\
      (e = TypeError \/ e = OverflowError).
Proof.
  induction fuel as [|fuel IH]; intros kappa H0 H.
  - exists 0%nat, OverflowError. split; [lia|]. split; [|right; reflexivity].
    cbn [sign_loop]. rewrite SignaturesSignLoop.pass_overflow by lia. reflexivity.
  - destruct (Z_lt_le_dec kappa 65536) as [Hlt | Hge].
    + destruct (pass_outcome rho K_seed s1 s2 mu kappa Hs1 Hs2 (conj H0 Hlt)) as [E | E].
      * destruct (IH (kappa + 1)) as (n & e & Hn & Hl & He); [lia | lia |].
        exists (S n), e. split; [lia|]. split; [|exact He].
        change (sign_loop (S (S n)) rho K_seed s1 s2 mu kappa)
          with (match sign_iteration rho K_seed s1 s2 mu kappa with
                | Raise e => finished (Raise e)
                | Ok (Some sig) => finished (Ok sig)
                | Ok None => sign_loop (S n) rho K_seed s1 s2 mu (kappa + 1)
                end).
        rewrite E. exact Hl.
      * exists 0%nat, TypeError. split; [lia|]. split; [|left; reflexivity].
        cbn [sign_loop]. rewrite E. reflexivity.
    + exists 0%nat, OverflowError. split; [lia|]. split; [|right; reflexivity].
      cbn [sign_loop]. rewrite SignaturesSignLoop.pass_overflow by lia. reflexivity.
Qed.

End Loop.

End SignaturesSigning.

(** *** Packing loops that overflow *)

Lemma write_poly_overflow (w : nat) (s : bool) (poly : list Z) :
  (0 < w)%nat -> ~ Forall (in_range w s) poly ->
  forall data, write_poly w s data poly = Raise OverflowError.
Proof.
  intros Hw. unfold write_poly. induction poly as [|c poly IH]; intros H data.
  - exfalso. apply H. constructor.
  - cbn [for_each].
    assert (D : in_range w s c \/ ~ in_range w s c).
    { unfold in_range. destruct s; lia. }
    destruct D as [Hc | Hc].
    + rewrite (to_bytes_enc w s c Hw Hc), !bind_Ok. apply IH.
      intro Hp. apply H. constructor; assumption.
    + rewrite (to_bytes_out_of_range w s c Hw Hc). reflexivity.
Qed.

Lemma in_range_dec_all (w : nat) (s : bool) (poly : list Z) :
  Forall (in_range w s) poly \/ ~ Forall (in_range w s) poly.
Proof.
  induction poly as [|c poly IH].
  - left. constructor.
  - assert (D : in_range w s c \/ ~ in_range w s c).
    { unfold in_range. destruct s; lia. }
    destruct D as [Hc | Hc].
    + destruct IH as [Hp | Hp].
      * left. constructor; assumption.
      * right. intro H. inversion H; subst. contradiction.
    + right. intro H. inversion H; subst. contradiction.
Qed.

Lemma write_vec_overflow (w : nat) (s : bool) (v : list (list Z)) :
  (0 < w)%nat -> ~ all_in_range w s v ->
  forall data, write_vec w s data v = Raise OverflowError.
Proof.
  intros Hw. unfold write_vec, all_in_range. induction v as [|p v IH]; intros H data.
  - exfalso. apply H. constructor.
  - cbn [for_each]. destruct (in_range_dec_all w s p) as [Hp | Hp].
    + rewrite (write_poly_enc w s p Hw Hp), bind_Ok. apply IH.
      intro Hv. apply H. constructor; assumption.
    + rewrite (write_poly_overflow w s p Hw Hp). reflexivity.
Qed.

Lemma existsb_not_all_in_range (v : list (list Z)) :
  existsb (existsb (fun c => 2 <? c)) v = true ->
  Forall (Forall (centered QuantumSignatures.Q 2)) v ->
  ~ all_in_range 2 true v.
Proof.
  intros He Hc Hr. apply existsb_exists in He. destruct He as (p & Hp & He).
  apply existsb_exists in He. destruct He as (c & Hcp & Hgt). apply Z.ltb_lt in Hgt.
  unfold all_in_range in Hr. rewrite Forall_forall in Hr, Hc.
  specialize (Hr p Hp). specialize (Hc p Hp). rewrite Forall_forall in Hr, Hc.
  specialize (Hr c Hcp). specialize (Hc c Hcp).
  unfold in_range in Hr. change (2 ^ (8 * Z.of_nat 2 - 1)) with 32768 in Hr.
  unfold centered, QuantumSignatures.Q in Hc. lia.
Qed.

Module QuantumKeys.
Import QuantumSignatures.

Lemma sample_in_ball_centered (seed : bytes) (k : nat) :
  (k <= 256)%nat ->
  exists v, _sample_in_ball seed k = Ok v /\ good_vec N Q k v /\
            Forall (Forall (centered Q ETA)) v.
Proof.
  intros Hk. unfold _sample_in_ball.
  destruct (map_r_inv (fun p : list Z => good N Q p /\ Forall (centered Q ETA) p)
              (fun i =>
                 bi <- bytes_of_ints [Z.of_nat i] ;;
                 let stream := _shake256 (seed ++ bi) 64 in
                 _cbd stream ETA)
              (range k)) as (v & E & Hl & Hf).
  - intros i Hi. apply in_seq in Hi. rewrite bytes_of_ints_1 by lia.
    rewrite bind_Ok. cbv zeta.
    destruct (cbd_centered N Q ltac:(reflexivity)
                (_shake256 (seed ++ [z2b (Z.of_nat i)]) 64) ETA ltac:(reflexivity))
      as (p & Ep & Hg & Hc).
    exists p. split; [exact Ep|]. split; assumption.
  - exists v. split; [exact E|]. unfold range in Hl. rewrite length_seq in Hl.
    split.
    + split; [exact Hl|]. eapply Forall_impl; [|exact Hf]. intros p [Hp _]. exact Hp.
    + eapply Forall_impl; [|exact Hf]. intros p [_ Hp]. exact Hp.
Qed.

Lemma sample_uniform_poly_12_bits (seed : bytes) :
  exists p, _sample_uniform_poly seed = Ok p /\ length p = N /\
            Forall (fun c => 0 <= c < 4096) p.
Proof.
  unfold _sample_uniform_poly. cbv zeta.
  destruct (uniform_from_stream_range N Q ltac:(reflexivity) (_shake256 seed (3 * N)))
    as (p & E & Hl & Hf).
  - unfold _shake256. rewrite shake_256_length, Nat.mul_comm. apply Nat.Div0.mod_mul.
  - exists p. split; [exact E|]. split; [exact Hl|].
    eapply Forall_impl; [|exact Hf]. intros c Hc. cbv beta in Hc. lia.
Qed.

Lemma expand_matrix_12_bits (rho : bytes) :
  exists A, _expand_matrix rho = Ok A /\ is_matrix N K L A /\
            Forall (coeffs_below 4096) A.
Proof.
  unfold _expand_matrix.
  destruct (map_r_inv (fun row => is_vec N L row /\ coeffs_below 4096 row)
              (fun i =>
                 map_r (fun j =>
                          ji <- bytes_of_ints [Z.of_nat j; Z.of_nat i] ;;
                          _sample_uniform_poly (rho ++ ji))
                       (range L))
              (range K)) as (A & E & Hl & Hf).
  - intros i Hi. apply in_seq in Hi. unfold K in Hi.
    destruct (map_r_inv (fun p : list Z => length p = N /\ Forall (fun c => 0 <= c < 4096) p)
                (fun j =>
                   ji <- bytes_of_ints [Z.of_nat j; Z.of_nat i] ;;
                   _sample_uniform_poly (rho ++ ji))
                (range L)) as (row & Er & Hlr & Hfr).
    + intros j Hj. apply in_seq in Hj. unfold L in Hj.
      rewrite bytes_of_ints_2 by lia. rewrite bind_Ok.
      apply sample_uniform_poly_12_bits.
    + exists row. split; [exact Er|]. unfold range in Hlr. rewrite length_seq in Hlr.
      split.
      * split; [exact Hlr|]. eapply Forall_impl; [|exact Hfr]. intros p [Hp _]. exact Hp.
      * unfold coeffs_below. eapply Forall_impl; [|exact Hfr]. intros p [_ Hp]. exact Hp.
  - exists A. split; [exact E|]. unfold range in Hl. rewrite length_seq in Hl.
    split.
    + split; [exact Hl|]. eapply Forall_impl; [|exact Hf]. intros r [Hr _]. exact Hr.
    + eapply Forall_impl; [|exact Hf]. intros r [_ Hr]. exact Hr.
Qed.

Lemma keygen_overflow (seed : bytes) :
  has_negative (_sample_in_ball (firstn 32 (_shake256 (seed ++ [x01]) 64)) L)
  || has_negative (_sample_in_ball (skipn 32 (_shake256 (seed ++ [x01]) 64)) K) = true ->
  keygen seed = Raise OverflowError.
Proof.
  intro Hneg. unfold keygen. cbv zeta.
  destruct (QuantumFacts.expand_matrix_ok (_shake256 seed 32)) as (A & EA & HA).
  rewrite EA, bind_Ok.
  destruct (sample_in_ball_centered (firstn 32 (_shake256 (seed ++ [x01]) 64)) L)
    as (s1 & E1 & H1 & C1); [unfold L; lia|].
  destruct (sample_in_ball_centered (skipn 32 (_shake256 (seed ++ [x01]) 64)) K)
    as (s2 & E2 & H2 & C2); [unfold K; lia|].
  rewrite E1, E2 in Hneg. cbn [has_negative] in Hneg.
  rewrite E1, bind_Ok, E2, bind_Ok.
  destruct (matrix_vector_mul_good N Q ltac:(reflexivity) K L A s1 HA
              (good_vec_is_vec N Q L s1 H1)) as (t0 & Et0 & Ht0).
  unfold _matrix_vector_mul. rewrite Et0, bind_Ok.
  destruct (vector_add_good N Q ltac:(reflexivity) K t0 s2
              (good_vec_is_vec N Q K t0 Ht0) (good_vec_is_vec N Q K s2 H2))
    as (t & Et & Ht).
  unfold _vector_add. rewrite Et, bind_Ok.
  assert (Hpk : exists pk, _pack_public_key (_shake256 seed 32) t = Ok pk).
  { unfold _pack_public_key. apply write_vec_ok.
    apply (coeffs_below_weaken Q); [unfold Q; cbn; lia|].
    exact (good_vec_coeffs_below N Q K t Ht). }
  destruct Hpk as (pk & Epk). rewrite Epk, bind_Ok.
  unfold _pack_private_key.
  destruct (existsb (existsb (fun c => 2 <? c)) s1) eqn:N1.
  - rewrite (write_vec_overflow 2 true s1 ltac:(lia)
               (existsb_not_all_in_range s1 N1 C1)). reflexivity.
  - cbn [orb] in Hneg.
    assert (R1 : all_in_range 2 true s1).
    { unfold all_in_range. apply Forall_forall. intros p Hp. apply Forall_forall.
      intros c Hc. unfold in_range. change (2 ^ (8 * Z.of_nat 2 - 1)) with 32768.
      assert (Hle : c <= 2).
      { destruct (Z_le_gt_dec c 2) as [Hle | Hgt]; [exact Hle|]. exfalso.
        assert (Ht' : existsb (existsb (fun c => 2 <? c)) s1 = true).
        { apply existsb_exists. exists p. split; [exact Hp|].
          apply existsb_exists. exists c. split; [exact Hc|]. apply Z.ltb_lt. lia. }
        congruence. }
      destruct H1 as [_ H1]. rewrite Forall_forall in H1. destruct (H1 p Hp) as [_ Hcan].
      unfold canonical in Hcan. rewrite Forall_forall in Hcan. specialize (Hcan c Hc). lia. }
    rewrite (write_vec_enc 2 true s1 ltac:(lia) R1), bind_Ok.
    rewrite (write_vec_overflow 2 true s2 ltac:(lia)
               (existsb_not_all_in_range s2 Hneg C2)). reflexivity.
Qed.

End QuantumKeys.

Module QuantumSigning.
Import QuantumSignatures.

(** the negated test of [verify]: a response vector within the bound is
    what it turns down *)
Lemma verify_in_bound (message signature public_key : bytes) :
  _check_bounds (snd (_unpack_signature signature)) (GAMMA1 - BETA) = false ->
  verify message signature public_key = Ok false.
Proof.
  intro Hb. unfold verify, verify_body.
  destruct (_unpack_public_key public_key) as [rho t].
  destruct (_unpack_signature signature) as [c z]. cbn [snd] in Hb.
  rewrite Hb. reflexivity.
Qed.

Lemma sign_loop_one_pass (A : list (list (list Z))) (K_bytes : bytes)
      (s1 s2 : list (list Z)) (mu : bytes) (nonce : Z) (fuel : nat) :
  sign_loop (S fuel) A K_bytes s1 s2 mu nonce = sign_loop 1 A K_bytes s1 s2 mu nonce.
Proof.
  induction fuel as [|fuel IH]; [reflexivity|].
  change (sign_loop (S (S fuel)) A K_bytes s1 s2 mu nonce)
    with (match sign_iteration A K_bytes s1 s2 mu nonce with
          | Raise e => finished (Raise e)
          | Ok (Some (c, z)) => finished (_pack_signature c z)
          | Ok None => sign_loop (S fuel) A K_bytes s1 s2 mu nonce
          end).
  rewrite IH. cbn [sign_loop].
  destruct (sign_iteration A K_bytes s1 s2 mu nonce) as [[[c z]|]|e]; reflexivity.
Qed.

Lemma sign_one_pass (message private_key : bytes) (fuel : nat) :
  sign (S fuel) message private_key = sign 1 message private_key.
Proof.
  unfold sign.
  destruct (_unpack_private_key private_key) as [[[[rho K_bytes] s1] s2] t].
  destruct (A <- _expand_matrix rho ;; ppk <- _pack_public_key rho t ;;
            Ok (A, _shake256 (message ++ ppk) 64)) as [[A mu]|e]; [|reflexivity].
  apply sign_loop_one_pass.
Qed.

Lemma sample_gamma1_range (stream : bytes) :
  exists p, _sample_gamma1 stream = Ok p /\ length p = N /\
            Forall (fun c => - GAMMA1 <= c <= GAMMA1) p.
Proof.
  unfold _sample_gamma1.
  destruct (for_each_inv
              (fun p : list Z => length p = N /\ Forall (fun c => - GAMMA1 <= c <= GAMMA1) p)
              (range N)
              (fun poly i =>
                 let byte_idx := (i * 5 / 8)%nat in
                 if (byte_idx + 4 <? length stream)%nat then
                   let val := from_bytes_le (slice stream byte_idx 4) in
                   set poly i (val mod (2 * GAMMA1 + 1) - GAMMA1)
                 else Ok poly)
              (repeat 0 N)) as (p & E & Hp).
  - split; [apply repeat_length|]. apply Forall_forall. intros c Hc.
    apply repeat_spec in Hc. subst c. unfold GAMMA1. cbn. lia.
  - intros poly i Hi [Hl Hf]. apply in_seq in Hi. cbv zeta.
    destruct (i * 5 / 8 + 4 <? length stream)%nat.
    + destruct (set_ok poly i
                  (from_bytes_le (slice stream (i * 5 / 8) 4) mod (2 * GAMMA1 + 1) - GAMMA1))
        as (p & Ep & Hlp); [lia|].
      exists p. split; [exact Ep|]. split; [lia|].
      apply (set_Forall _ poly p i _ Ep Hf).
      pose proof (Z.mod_pos_bound (from_bytes_le (slice stream (i * 5 / 8) 4))
                    (2 * GAMMA1 + 1) ltac:(reflexivity)). lia.
    + exists poly. split; [reflexivity|]. split; assumption.
  - exists p. split; [exact E | exact Hp].
Qed.

Lemma gamma1_mask_range (seed : bytes) :
  exists y, _sample_mask seed = Ok y /\ is_vec N L y /\
            coeffs_between (- GAMMA1) (GAMMA1 + 1) y.
Proof.
  unfold _sample_mask.
  destruct (map_r_inv
              (fun p : list Z => length p = N /\
                                 Forall (fun c => - GAMMA1 <= c < GAMMA1 + 1) p)
              (fun i =>
                 bi <- bytes_of_ints [Z.of_nat i] ;;
                 let stream := _shake256 (seed ++ bi) (5 * N) in
                 _sample_gamma1 stream)
              (range L)) as (y & E & Hl & Hf).
  - intros i Hi. apply in_seq in Hi. unfold L in Hi.
    rewrite bytes_of_ints_1 by lia. rewrite bind_Ok. cbv zeta.
    destruct (sample_gamma1_range (_shake256 (seed ++ [z2b (Z.of_nat i)]) (5 * N)))
      as (p & Ep & Hlp & Hfp).
    exists p. split; [exact Ep|]. split; [exact Hlp|].
    eapply Forall_impl; [|exact Hfp]. intros c Hc. cbv beta in Hc. lia.
  - exists y. split; [exact E|]. unfold range in Hl. rewrite length_seq in Hl.
    split.
    + split; [exact Hl|]. eapply Forall_impl; [|exact Hf]. intros p [Hp _]. exact Hp.
    + unfold coeffs_between. eapply Forall_impl; [|exact Hf]. intros p [_ Hp]. exact Hp.
Qed.

Lemma decompose_off_by_gamma2 (c : Z) :
  let h := (c + GAMMA2) / (2 * GAMMA2) in
  let l := c mod (2 * GAMMA2) - GAMMA2 in
  - GAMMA2 <= l < GAMMA2 /\
  (2 * GAMMA2 * h + l = c - GAMMA2 \/ 2 * GAMMA2 * h + l = c + GAMMA2).
Proof.
  cbv zeta. change GAMMA2 with 95232.
  pose proof (Z.mod_pos_bound c (2 * 95232) ltac:(lia)) as Hr.
  pose proof (Z.div_mod c (2 * 95232) ltac:(lia)) as Hc.
  split; [lia|].
  destruct (Z_lt_le_dec (c mod (2 * 95232)) 95232) as [Hlo | Hhi].
  - left. assert (E : (c + 95232) / (2 * 95232) = c / (2 * 95232)).
    { symmetry. apply (Z.div_unique (c + 95232) (2 * 95232) (c / (2 * 95232))
                         (c mod (2 * 95232) + 95232)); lia. }
    rewrite E. lia.
  - right. assert (E : (c + 95232) / (2 * 95232) = c / (2 * 95232) + 1).
    { symmetry. apply (Z.div_unique (c + 95232) (2 * 95232) (c / (2 * 95232) + 1)
                         (c mod (2 * 95232) - 95232)); lia. }
    rewrite E. lia.
Qed.

Lemma packed_public_key_codec (rho : bytes) (t : list (list Z)) :
  length rho = 32%nat -> is_vec N K t -> coeffs_below 16777216 t ->
  exists pk, _pack_public_key rho t = Ok pk /\ length pk = 3104%nat /\
             _unpack_public_key pk = (rho, t).
Proof.
  intros Hr Ht Hc. unfold _pack_public_key.
  rewrite (write_vec_enc 3 false t ltac:(lia) Hc).
  eexists. split; [reflexivity|]. split.
  - rewrite length_app, (flat_flat_enc_length 3 N K false t Ht), Hr. reflexivity.
  - unfold _unpack_public_key. cbv zeta.
    pose proof (read_vec_enc 3 N K false t rho [] ltac:(lia) Hc Ht) as R.
    rewrite app_nil_r, Hr in R. rewrite R.
    rewrite firstn_app, <- Hr, firstn_all, Nat.sub_diag. cbn [firstn].
    rewrite app_nil_r. reflexivity.
Qed.

Lemma signature_codec (c : list Z) (z : list (list Z)) :
  length c = N -> Forall (fun x => -128 <= x < 128) c ->
  is_vec N L z -> coeffs_between (-8388608) 8388608 z ->
  exists sig, _pack_signature c z = Ok sig /\ length sig = 3328%nat /\
              _unpack_signature sig = (c, z).
Proof.
  intros Hc Hrc Hz Hrz. unfold _pack_signature.
  rewrite (write_poly_enc 1 true c ltac:(lia) Hrc), bind_Ok. cbn [app].
  rewrite (write_vec_enc 3 true z ltac:(lia) Hrz).
  eexists. split; [reflexivity|]. split.
  - rewrite length_app, flat_enc_length, (flat_flat_enc_length 3 N L true z Hz), Hc.
    reflexivity.
  - unfold _unpack_signature. cbv zeta.
    pose proof (read_vec_enc 3 N L true z (flat_map (enc 1 true) c) [] ltac:(lia) Hrz Hz)
      as R.
    rewrite app_nil_r, flat_enc_length, Hc in R.
    change (1 * N)%nat with N in R. rewrite R. f_equal.
    pose proof (poly_at_enc 1 true c ltac:(lia) Hrc []
                  (flat_map (flat_map (enc 3 true)) z)) as P.
    cbn [app length] in P. rewrite Hc in P.
    etransitivity; [|exact P].
    unfold poly_at, conv. apply map_ext. intro j. do 2 f_equal. lia.
Qed.

End QuantumSigning.

(** *** The Merkle root *)

Lemma range_step_2 (n : nat) : range_step n 2 = map (fun k => (k * 2)%nat) (seq 0 ((n + 1) / 2)).
Proof. unfold range_step. replace (n + 2 - 1)%nat with (n + 1)%nat by lia. reflexivity. Qed.

Lemma half_up_bound (n k : nat) : (k < (n + 1) / 2)%nat -> (k * 2 < n)%nat.
Proof.
  intro H. pose proof (Nat.Div0.mul_div_le (n + 1) 2). lia.
Qed.

Lemma range_step_2_in (n i : nat) : In i (range_step n 2) -> (i < n)%nat.
Proof.
  rewrite range_step_2. intro H. apply in_map_iff in H. destruct H as (k & <- & Hk).
  apply in_seq in Hk. apply half_up_bound. lia.
Qed.

Lemma merkle_level_spec (tx_hashes : list bytes) :
  merkle_level tx_hashes
  = Ok (map (pair_hash tx_hashes) (range_step (length tx_hashes) 2)).
Proof.
  unfold merkle_level. rewrite (for_each_append (pair_hash tx_hashes)); [reflexivity|].
  intros i acc Hi. apply range_step_2_in in Hi.
  rewrite (get_nth tx_hashes i []) by exact Hi. rewrite bind_Ok.
  unfold pair_hash. destruct (Nat.ltb_spec (i + 1) (length tx_hashes)) as [H | H].
  - rewrite (get_nth tx_hashes (i + 1) []) by exact H. rewrite bind_Ok. reflexivity.
  - rewrite bind_Ok. reflexivity.
Qed.

Lemma merkle_level_length (tx_hashes next_level : list bytes) :
  merkle_level tx_hashes = Ok next_level ->
  length next_level = ((length tx_hashes + 1) / 2)%nat.
Proof.
  rewrite merkle_level_spec. intro E. apply Ok_inj in E. subst next_level.
  rewrite range_step_2, !length_map, length_seq. reflexivity.
Qed.

Lemma half_up_lt (n : nat) : (2 <= n)%nat -> (1 <= (n + 1) / 2 < n)%nat.
Proof.
  intro H. pose proof (Nat.Div0.mul_div_le (n + 1) 2).
  pose proof (Nat.Div0.mod_le (n + 1) 2).
  pose proof (Nat.div_mod_eq (n + 1) 2).
  pose proof (Nat.mod_upper_bound (n + 1) 2 ltac:(lia)). lia.
Qed.

Lemma merkle_loop_total (fuel : nat) :
  forall tx_hashes : list bytes,
    (0 < length tx_hashes <= fuel)%nat ->
    exists root, merkle_loop fuel tx_hashes = finished (Ok [root]).
Proof.
  induction fuel as [|fuel IH]; intros hs Hl; [lia|].
  cbn [merkle_loop]. destruct (Nat.ltb_spec 1 (length hs)) as [H | H].
  - rewrite merkle_level_spec.
    apply IH. rewrite range_step_2, !length_map, length_seq.
    pose proof (half_up_lt (length hs) ltac:(lia)). lia.
  - destruct hs as [|r [|r' hs]]; cbn [length] in *; try lia.
    exists r. reflexivity.
Qed.


(** an odd level and the level with its last hash repeated give the same
    next level *)
Lemma merkle_level_duplicate_last (l : list bytes) (x : bytes) :
  Nat.even (length l) = true ->
  merkle_level (l ++ [x; x]) = merkle_level (l ++ [x]).
Proof.
  intro He. apply Nat.even_spec in He. destruct He as (m & Hm).
  rewrite !merkle_level_spec, !range_step_2, !length_app. cbn [length].
  replace ((length l + 2 + 1) / 2)%nat with (m + 1)%nat.
  2:{ rewrite Hm. apply (Nat.div_unique (2 * m + 2 + 1) 2 (m + 1) 1); lia. }
  replace ((length l + 1 + 1) / 2)%nat with (m + 1)%nat.
  2:{ rewrite Hm. apply (Nat.div_unique (2 * m + 1 + 1) 2 (m + 1) 0); lia. }
  apply (f_equal (@Ok (list bytes))).
  rewrite !map_map. apply map_ext_in. intros k Hk. apply in_seq in Hk.
  unfold pair_hash. rewrite !length_app. cbn [length]. apply (f_equal hexdigest).
  destruct (Nat.eq_dec k m) as [-> | Hne].
  - replace (m * 2)%nat with (length l) by lia.
    rewrite !nth_middle.
    destruct (Nat.ltb_spec (length l + 1) (length l + 2)); [|lia].
    destruct (Nat.ltb_spec (length l + 1) (length l + 1)); [lia|].
    apply (f_equal (app x)). change (l ++ [x; x]) with (l ++ [x] ++ [x]). rewrite app_assoc.
    replace (length l + 1)%nat with (length (l ++ [x])) by (rewrite length_app; cbn; lia).
    apply nth_middle.
  - assert (Hk2 : (k * 2 + 1 < length l)%nat) by lia.
    destruct (Nat.ltb_spec (k * 2 + 1) (length l + 2)); [|lia].
    destruct (Nat.ltb_spec (k * 2 + 1) (length l + 1)); [|lia].
    rewrite !(app_nth1 l) by lia. reflexivity.
Qed.

(** *** Comprehensions that raise *)

Lemma map_r_raise {A B : Type} (f : A -> result B) (e : exn) (xs : list A) :
  (forall x, In x xs -> (exists y, f x = Ok y) \/ f x = Raise e) ->
  (exists x, In x xs /\ f x = Raise e) ->
  map_r f xs = Raise e.
Proof.
  induction xs as [|x xs IH]; intros Hall (x0 & Hin & Hx0); [destruct Hin|].
  cbn [map_r]. destruct (Hall x (or_introl eq_refl)) as [(y & Ey) | Er].
  - rewrite Ey, bind_Ok. rewrite IH; [reflexivity | |].
    + intros z Hz. apply Hall. right. exact Hz.
    + destruct Hin as [-> | Hin]; [congruence|]. exists x0. split; assumption.
  - rewrite Er. reflexivity.
Qed.

Lemma get_overflow {A} (l : list A) (i : nat) :
  (length l <= i)%nat -> get l i = Raise IndexError.
Proof.
  intro H. unfold get. rewrite (proj2 (nth_error_None l i) H). reflexivity.
Qed.

Section ShortOperands.
Variable N : nat.
Variable Q : Z.

Lemma poly_add_short (a b : list Z) :
  (length a < N)%nat \/ (length b < N)%nat -> _poly_add N Q a b = Raise IndexError.
Proof.
  intro H. unfold _poly_add. apply map_r_raise.
  - intros i _. destruct (Nat.lt_ge_cases i (length a)) as [Ha | Ha].
    + rewrite (get_nth a i 0) by exact Ha. rewrite bind_Ok.
      destruct (Nat.lt_ge_cases i (length b)) as [Hb | Hb].
      * rewrite (get_nth b i 0) by exact Hb. rewrite bind_Ok. left. eexists. reflexivity.
      * rewrite (get_overflow b i Hb). right. reflexivity.
    + rewrite (get_overflow a i Ha). right. reflexivity.
  - exists (Nat.min (length a) (length b)). split.
    + unfold range. apply in_seq. lia.
    + destruct (Nat.le_gt_cases (length a) (length b)) as [Hle | Hgt].
      * rewrite Nat.min_l by exact Hle. rewrite get_overflow by lia. reflexivity.
      * rewrite Nat.min_r by lia. rewrite (get_nth a (length b) 0) by lia.
        rewrite bind_Ok, get_overflow by lia. reflexivity.
Qed.

Lemma poly_sub_short (a b : list Z) :
  (length a < N)%nat \/ (length b < N)%nat -> _poly_sub N Q a b = Raise IndexError.
Proof.
  intro H. unfold _poly_sub. apply map_r_raise.
  - intros i _. destruct (Nat.lt_ge_cases i (length a)) as [Ha | Ha].
    + rewrite (get_nth a i 0) by exact Ha. rewrite bind_Ok.
      destruct (Nat.lt_ge_cases i (length b)) as [Hb | Hb].
      * rewrite (get_nth b i 0) by exact Hb. rewrite bind_Ok. left. eexists. reflexivity.
      * rewrite (get_overflow b i Hb). right. reflexivity.
    + rewrite (get_overflow a i Ha). right. reflexivity.
  - exists (Nat.min (length a) (length b)). split.
    + unfold range. apply in_seq. lia.
    + destruct (Nat.le_gt_cases (length a) (length b)) as [Hle | Hgt].
      * rewrite Nat.min_l by exact Hle. rewrite get_overflow by lia. reflexivity.
      * rewrite Nat.min_r by lia. rewrite (get_nth a (length b) 0) by lia.
        rewrite bind_Ok, get_overflow by lia. reflexivity.
Qed.

Lemma poly_add_long (a b : list Z) :
  (N <= length a)%nat -> (N <= length b)%nat ->
  _poly_add N Q a b = _poly_add N Q (firstn N a) (firstn N b) /\
  _poly_sub N Q a b = _poly_sub N Q (firstn N a) (firstn N b).
Proof.
  intros Ha Hb. unfold _poly_add, _poly_sub.
  assert (G : forall (l : list Z) i, (N <= length l)%nat -> (i < N)%nat ->
                get (firstn N l) i = get l i).
  { intros l i Hl Hi. unfold get. rewrite nth_error_firstn.
    destruct (Nat.ltb_spec i N); [reflexivity | lia]. }
  split.
  - rewrite (map_r_ok _ (fun i => (nth i a 0 + nth i b 0) mod Q)).
    + rewrite (map_r_ok _ (fun i => (nth i a 0 + nth i b 0) mod Q)); [reflexivity|].
      intros i Hi. apply in_seq in Hi. rewrite !G by lia.
      rewrite (get_nth a i 0), (get_nth b i 0) by lia. reflexivity.
    + intros i Hi. apply in_seq in Hi.
      rewrite (get_nth a i 0), (get_nth b i 0) by lia. reflexivity.
  - rewrite (map_r_ok _ (fun i => (nth i a 0 - nth i b 0) mod Q)).
    + rewrite (map_r_ok _ (fun i => (nth i a 0 - nth i b 0) mod Q)); [reflexivity|].
      intros i Hi. apply in_seq in Hi. rewrite !G by lia.
      rewrite (get_nth a i 0), (get_nth b i 0) by lia. reflexivity.
    + intros i Hi. apply in_seq in Hi.
      rewrite (get_nth a i 0), (get_nth b i 0) by lia. reflexivity.
Qed.

End ShortOperands.

Lemma bytes_of_ints_256 (i : nat) :
  (256 <= i)%nat -> bytes_of_ints [Z.of_nat i] = Raise ValueError.
Proof.
  intro H. unfold bytes_of_ints. cbn [map_r].
  destruct (Z.leb_spec 0 (Z.of_nat i)); [|lia].
  destruct (Z.ltb_spec (Z.of_nat i) 256); [lia|]. reflexivity.
Qed.

Module KyberSampling.
Import Kyber1024.

Lemma sample_poly_cbd_too_many (seed : bytes) (eta k : nat) :
  Z.of_nat eta < Q -> (256 < k)%nat -> _sample_poly_cbd seed eta k = Raise ValueError.
Proof.
  intros He Hk. unfold _sample_poly_cbd. apply map_r_raise.
  - intros i _. destruct (Nat.lt_ge_cases i 256) as [Hi | Hi].
    + left. rewrite bytes_of_ints_1 by exact Hi. rewrite bind_Ok. cbv zeta.
      destruct (cbd_centered N Q ltac:(reflexivity)
                  (_shake128 (seed ++ [z2b (Z.of_nat i)]) (64 * eta)) eta He)
        as (p & Ep & _).
      exists p. exact Ep.
    + right. rewrite bytes_of_ints_256 by exact Hi. reflexivity.
  - exists 256%nat. split; [unfold range; apply in_seq; lia|].
    rewrite bytes_of_ints_256 by lia. reflexivity.
Qed.

Lemma gen_matrix_canonical (rho : bytes) :
  exists A, _gen_matrix rho = Ok A /\ is_matrix N K K A /\
            Forall (Forall (canonical Q)) A.
Proof.
  unfold _gen_matrix.
  destruct (map_r_inv (fun row => is_vec N K row /\ Forall (canonical Q) row)
              (fun i =>
                 map_r (fun j =>
                          ji <- bytes_of_ints [Z.of_nat j; Z.of_nat i] ;;
                          _sample_uniform_poly (rho ++ ji))
                       (range K))
              (range K)) as (A & E & Hl & Hf).
  - intros i Hi. apply in_seq in Hi. unfold K in Hi.
    destruct (map_r_inv (fun p : list Z => length p = N /\ canonical Q p)
                (fun j =>
                   ji <- bytes_of_ints [Z.of_nat j; Z.of_nat i] ;;
                   _sample_uniform_poly (rho ++ ji))
                (range K)) as (row & Er & Hlr & Hfr).
    + intros j Hj. apply in_seq in Hj. unfold K in Hj.
      rewrite bytes_of_ints_2 by lia. rewrite bind_Ok.
      apply KyberKeys.sample_uniform_poly_range.
    + exists row. split; [exact Er|]. unfold range in Hlr. rewrite length_seq in Hlr.
      split.
      * split; [exact Hlr|]. eapply Forall_impl; [|exact Hfr]. intros p [Hp _]. exact Hp.
      * eapply Forall_impl; [|exact Hfr]. intros p [_ Hp]. exact Hp.
  - exists A. split; [exact E|]. unfold range in Hl. rewrite length_seq in Hl.
    split.
    + split; [exact Hl|]. eapply Forall_impl; [|exact Hf]. intros r [Hr _]. exact Hr.
    + eapply Forall_impl; [|exact Hf]. intros r [_ Hr]. exact Hr.
Qed.

Lemma centered_values (c : Z) :
  centered Q ETA1 c -> c = 0 \/ c = 1 \/ c = 2 \/ c = Q - 2 \/ c = Q - 1.
Proof. unfold centered, Q, ETA1. cbn. lia. Qed.

End KyberSampling.

(** *** The largest absolute value *)

Lemma max_abs_attained (v : list (list Z)) :
  0 <= max_abs v /\
  (forall p c, In p v -> In c p -> Z.abs c <= max_abs v) /\
  (max_abs v = 0 \/ exists p c, In p v /\ In c p /\ Z.abs c = max_abs v).
Proof.
  unfold max_abs.
  destruct (fold_max_attained (map Z.abs (concat v))) as [Hle Hat].
  { intros x Hx. apply in_map_iff in Hx. destruct Hx as (c & <- & _). lia. }
  split; [apply fold_max_nonneg|]. split.
  - intros p c Hp Hc. apply Hle. apply in_map. apply in_concat. exists p. split; assumption.
  - destruct Hat as [[_ E] | Hin]; [left; exact E|].
    right. apply in_map_iff in Hin. destruct Hin as (c & Ec & Hc).
    apply in_concat in Hc. destruct Hc as (p & Hp & Hcp).
    exists p, c. split; [exact Hp|]. split; [exact Hcp | exact Ec].
Qed.

(** *** Merkle levels are hex digests *)





Lemma merkle_loop_duplicate_last (fuel : nat) (l : list bytes) (x : bytes) :
  Nat.even (length l) = true -> (0 < length l)%nat ->
  merkle_loop fuel (l ++ [x; x]) = merkle_loop fuel (l ++ [x]).
Proof.
  intros He Hl. destruct fuel as [|fuel]; [reflexivity|].
  cbn [merkle_loop]. rewrite !length_app. cbn [length].
  destruct (Nat.ltb_spec 1 (length l + 2)); [|lia].
  destruct (Nat.ltb_spec 1 (length l + 1)); [|lia].
  rewrite merkle_level_duplicate_last by exact He. reflexivity.
Qed.

(** * Further properties of the code *)

Lemma is_vec_repeat (N k : nat) (c : Z) : is_vec N k (repeat (repeat c N) k).
Proof.
  split; [apply repeat_length|]. apply Forall_forall. intros p Hp.
  apply repeat_spec in Hp. subst. apply repeat_length.
Qed.

Lemma Forall_repeat {A} (P : A -> Prop) (a : A) (n : nat) : P a -> Forall P (repeat a n).
Proof. intro H. apply Forall_forall. intros x Hx. apply repeat_spec in Hx. subst. exact H. Qed.

(** ** crypto/kyber.py *)

(** X1: [Kyber1024.keygen] never raises: whatever the 32 random bytes drawn
    (here the argument [seed], of any length), it returns a public key of
    2080 bytes and a private key of 2048 bytes. *)
Theorem kyber_keygen_returns_keys (seed : bytes) :
  exists pk sk,
    Kyber1024.keygen seed = Ok (pk, sk) /\
    length pk = 2080%nat /\ length sk = 2048%nat.
Proof. apply KyberKeys.keygen_total. Qed.

(** X2: [Kyber1024.encaps] never raises on a public key of any length and
    content: with the 32 random message bytes [m] it returns a ciphertext
    of 2560 bytes and a shared secret of 32 bytes. *)
Theorem kyber_encaps_returns_ciphertext (pk m : bytes) :
  length m = 32%nat ->
  exists ct ss,
    Kyber1024.encaps pk m = Ok (ct, ss) /\
    length ct = 2560%nat /\ length ss = 32%nat.
Proof. apply KyberKeys.encaps_total. Qed.

Lemma kyber_encaps_returns_ciphertext_witness :
  exists ct ss,
    Kyber1024.encaps [] (repeat x00 32) = Ok (ct, ss) /\
    length ct = 2560%nat /\ length ss = 32%nat.
Proof.
  apply (kyber_encaps_returns_ciphertext [] (repeat x00 32)). reflexivity.
Defined.

(** X3: packing then unpacking a Kyber public key is the identity: for a
    32-byte [rho] and a vector [t] of [K] polynomials of [N] coefficients in
    [[0, 65536)], [_pack_public_key] returns 2080 bytes from which
    [_unpack_public_key] reads [(t, rho)] back. *)
Theorem kyber_public_key_round_trip (t : list (list Z)) (rho : bytes) :
  length rho = 32%nat -> is_vec Kyber1024.N Kyber1024.K t -> coeffs_below 65536 t ->
  exists pk,
    Kyber1024._pack_public_key t rho = Ok pk /\ length pk = 2080%nat /\
    Kyber1024._unpack_public_key pk = (t, rho).
Proof. apply KyberKeys.public_key_codec. Qed.

Lemma kyber_public_key_round_trip_witness :
  exists pk,
    Kyber1024._pack_public_key (repeat (repeat 3328 256) 4) (repeat x07 32) = Ok pk /\
    length pk = 2080%nat /\
    Kyber1024._unpack_public_key pk = (repeat (repeat 3328 256) 4, repeat x07 32).
Proof.
  apply (kyber_public_key_round_trip (repeat (repeat 3328 256) 4) (repeat x07 32)).
  - reflexivity.
  - apply is_vec_repeat.
  - apply Forall_repeat. apply Forall_repeat. lia.
Defined.

(** X4: packing then unpacking a Kyber private key is the identity, for a
    vector [s] of [K] polynomials of [N] coefficients in [[0, 65536)]; the
    packed key has 2048 bytes. *)
Theorem kyber_private_key_round_trip (s : list (list Z)) :
  is_vec Kyber1024.N Kyber1024.K s -> coeffs_below 65536 s ->
  exists sk,
    Kyber1024._pack_private_key s = Ok sk /\ length sk = 2048%nat /\
    Kyber1024._unpack_private_key sk = s.
Proof. apply KyberKeys.private_key_codec. Qed.

Lemma kyber_private_key_round_trip_witness :
  exists sk,
    Kyber1024._pack_private_key (repeat (repeat 3328 256) 4) = Ok sk /\
    length sk = 2048%nat /\
    Kyber1024._unpack_private_key sk = repeat (repeat 3328 256) 4.
Proof.
  apply (kyber_private_key_round_trip (repeat (repeat 3328 256) 4)).
  - apply is_vec_repeat.
  - apply Forall_repeat. apply Forall_repeat. lia.
Defined.

(** X5: packing then unpacking a Kyber ciphertext is the identity, for a
    vector [u] of [K] polynomials and a polynomial [v] of [N] coefficients
    in [[0, 65536)]; the packed ciphertext has 2560 bytes. *)
Theorem kyber_ciphertext_round_trip (u : list (list Z)) (v : list Z) :
  is_vec Kyber1024.N Kyber1024.K u -> length v = Kyber1024.N ->
  coeffs_below 65536 u -> Forall (fun c => 0 <= c < 65536) v ->
  exists ct,
    Kyber1024._pack_ciphertext u v = Ok ct /\ length ct = 2560%nat /\
    Kyber1024._unpack_ciphertext ct = (u, v).
Proof. apply KyberKeys.ciphertext_codec. Qed.

Lemma kyber_ciphertext_round_trip_witness :
  exists ct,
    Kyber1024._pack_ciphertext (repeat (repeat 3328 256) 4) (repeat 1664 256) = Ok ct /\
    length ct = 2560%nat /\
    Kyber1024._unpack_ciphertext ct = (repeat (repeat 3328 256) 4, repeat 1664 256).
Proof.
  apply (kyber_ciphertext_round_trip (repeat (repeat 3328 256) 4) (repeat 1664 256)).
  - apply is_vec_repeat.
  - reflexivity.
  - apply Forall_repeat. apply Forall_repeat. lia.
  - apply Forall_repeat. lia.
Defined.

(** X6: [Kyber1024._sample_poly_cbd] with [eta = 2] returns, for [k <= 256],
    [k] polynomials of [N] coefficients, each one of 0, 1, 2, [Q - 2],
    [Q - 1] (a difference of two 2-bit counts, reduced modulo [Q]). *)
Theorem kyber_cbd_coefficients_are_centered (seed : bytes) (k : nat) :
  (k <= 256)%nat ->
  exists v,
    Kyber1024._sample_poly_cbd seed Kyber1024.ETA1 k = Ok v /\
    is_vec Kyber1024.N k v /\
    Forall (Forall (fun c => c = 0 \/ c = 1 \/ c = 2 \/
                             c = Kyber1024.Q - 2 \/ c = Kyber1024.Q - 1)) v.
Proof.
  intro Hk.
  destruct (KyberKeys.sample_poly_cbd_centered seed Kyber1024.ETA1 k Hk ltac:(reflexivity))
    as (v & E & Hg & Hc).
  exists v. split; [exact E|]. split; [exact (good_vec_is_vec _ _ _ _ Hg)|].
  eapply Forall_impl; [|exact Hc]. intros p Hp.
  eapply Forall_impl; [|exact Hp]. intros c. apply KyberSampling.centered_values.
Qed.

Lemma kyber_cbd_coefficients_are_centered_witness :
  exists v,
    Kyber1024._sample_poly_cbd [] Kyber1024.ETA1 4 = Ok v /\
    is_vec Kyber1024.N 4 v /\
    Forall (Forall (fun c => c = 0 \/ c = 1 \/ c = 2 \/
                             c = Kyber1024.Q - 2 \/ c = Kyber1024.Q - 1)) v.
Proof. apply (kyber_cbd_coefficients_are_centered [] 4). lia. Defined.

(** X7: [Kyber1024._sample_poly_cbd] raises [ValueError] when more than 256
    polynomials are asked for: the index is appended to the seed as
    [bytes([i])]. *)
Theorem kyber_cbd_raises_beyond_256_polynomials (seed : bytes) (k : nat) :
  (256 < k)%nat ->
  Kyber1024._sample_poly_cbd seed Kyber1024.ETA1 k = Raise ValueError.
Proof. intro Hk. apply KyberSampling.sample_poly_cbd_too_many; [reflexivity | exact Hk]. Qed.

Lemma kyber_cbd_raises_beyond_256_polynomials_witness :
  Kyber1024._sample_poly_cbd [] Kyber1024.ETA1 257 = Raise ValueError.
Proof. apply (kyber_cbd_raises_beyond_256_polynomials [] 257). lia. Defined.

(** X8: [Kyber1024._gen_matrix] never raises: for every [rho] it returns a
    [K] by [K] matrix of polynomials of [N] coefficients, every coefficient
    in [[0, Q)]: the sampler keeps a 12-bit candidate only when it is below
    [Q], and leaves 0 where the stream gives too few. *)
Theorem kyber_matrix_is_canonical (rho : bytes) :
  exists A,
    Kyber1024._gen_matrix rho = Ok A /\
    is_matrix Kyber1024.N Kyber1024.K Kyber1024.K A /\
    Forall (Forall (canonical Kyber1024.Q)) A.
Proof. apply KyberSampling.gen_matrix_canonical. Qed.

(** ** The ring arithmetic of the three classes *)

(** X9: [_poly_mul] is commutative on polynomials of [N] coefficients, for
    the constants of every class ([Q > 0]). *)
Theorem poly_mul_is_commutative (N : nat) (Q : Z) (a b : list Z) :
  0 < Q -> length a = N -> length b = N ->
  _poly_mul N Q a b = _poly_mul N Q b a.
Proof. intros HQ Ha Hb. apply poly_mul_comm; assumption. Qed.

Lemma poly_mul_is_commutative_witness :
  _poly_mul 256 3329 (repeat 5 256) (repeat (-7) 256)
  = _poly_mul 256 3329 (repeat (-7) 256) (repeat 5 256).
Proof.
  apply (poly_mul_is_commutative 256 3329 (repeat 5 256) (repeat (-7) 256));
    reflexivity.
Defined.

(** X10: [_poly_mul] distributes over [_poly_add]: multiplying by a sum
    gives the sum of the products, coefficient for coefficient. *)
Theorem poly_mul_distributes_over_add (N : nat) (Q : Z) (a b c : list Z) :
  0 < Q -> length a = N -> length b = N -> length c = N ->
  (bc <- _poly_add N Q b c ;; _poly_mul N Q a bc)
  = (ab <- _poly_mul N Q a b ;; ac <- _poly_mul N Q a c ;; _poly_add N Q ab ac).
Proof. intros HQ Ha Hb Hc. apply poly_mul_add_distr; assumption. Qed.

Lemma poly_mul_distributes_over_add_witness :
  (bc <- _poly_add 256 3329 (repeat 2 256) (repeat 3 256) ;;
   _poly_mul 256 3329 (repeat 5 256) bc)
  = (ab <- _poly_mul 256 3329 (repeat 5 256) (repeat 2 256) ;;
     ac <- _poly_mul 256 3329 (repeat 5 256) (repeat 3 256) ;;
     _poly_add 256 3329 ab ac).
Proof.
  apply (poly_mul_distributes_over_add 256 3329 (repeat 5 256) (repeat 2 256)
           (repeat 3 256)); reflexivity.
Defined.

(** X11: multiplying by the monomial [X^m], [m < N], moves every coefficient
    up [m] places and brings those that pass the end back at the start with
    the opposite sign: the reduction by [X^N + 1]. *)
Theorem poly_mul_by_a_monomial_rotates (N : nat) (Q : Z) (a : list Z) (m : nat) :
  0 < Q -> length a = N -> (m < N)%nat ->
  _poly_mul N Q a (monomial N m) = Ok (rotate_negate N Q a m).
Proof. intros HQ Ha Hm. apply poly_mul_monomial; assumption. Qed.

Lemma poly_mul_by_a_monomial_rotates_witness :
  _poly_mul 256 3329 (map Z.of_nat (seq 0 256)) (monomial 256 1)
  = Ok (rotate_negate 256 3329 (map Z.of_nat (seq 0 256)) 1).
Proof.
  apply (poly_mul_by_a_monomial_rotates 256 3329 (map Z.of_nat (seq 0 256)) 1);
    [reflexivity | reflexivity | lia].
Defined.

(** X12: subtracting [b] from [a + b] gives [a] back when the coefficients
    of [a] are in [[0, Q)]. *)
Theorem poly_sub_undoes_poly_add (N : nat) (Q : Z) (a b : list Z) :
  0 < Q -> length a = N -> length b = N -> canonical Q a ->
  (s <- _poly_add N Q a b ;; _poly_sub N Q s b) = Ok a.
Proof. intros HQ Ha Hb Hc. apply poly_add_sub_cancel; assumption. Qed.

Lemma poly_sub_undoes_poly_add_witness :
  (s <- _poly_add 256 3329 (repeat 3328 256) (repeat 9 256) ;;
   _poly_sub 256 3329 s (repeat 9 256)) = Ok (repeat 3328 256).
Proof.
  apply (poly_sub_undoes_poly_add 256 3329 (repeat 3328 256) (repeat 9 256)).
  - reflexivity.
  - reflexivity.
  - reflexivity.
  - apply Forall_repeat. lia.
Defined.

(** X13: [_poly_add] and [_poly_sub] raise [IndexError] when an operand has
    fewer than [N] coefficients. *)
Theorem poly_add_raises_on_a_short_operand (N : nat) (Q : Z) (a b : list Z) :
  (length a < N)%nat \/ (length b < N)%nat ->
  _poly_add N Q a b = Raise IndexError /\ _poly_sub N Q a b = Raise IndexError.
Proof. intro H. split; [apply poly_add_short | apply poly_sub_short]; exact H. Qed.

Lemma poly_add_raises_on_a_short_operand_witness :
  _poly_add 256 3329 (repeat 1 255) (repeat 1 256) = Raise IndexError /\
  _poly_sub 256 3329 (repeat 1 255) (repeat 1 256) = Raise IndexError.
Proof.
  apply (poly_add_raises_on_a_short_operand 256 3329 (repeat 1 255) (repeat 1 256)).
  left. rewrite repeat_length. lia.
Defined.

(** X14: [_poly_add] and [_poly_sub] read the first [N] coefficients of
    their operands only: coefficients beyond [N] are ignored. *)
Theorem poly_add_ignores_extra_coefficients (N : nat) (Q : Z) (a b : list Z) :
  (N <= length a)%nat -> (N <= length b)%nat ->
  _poly_add N Q a b = _poly_add N Q (firstn N a) (firstn N b) /\
  _poly_sub N Q a b = _poly_sub N Q (firstn N a) (firstn N b).
Proof. apply poly_add_long. Qed.

Lemma poly_add_ignores_extra_coefficients_witness :
  _poly_add 256 3329 (repeat 1 300) (repeat 2 256)
  = _poly_add 256 3329 (firstn 256 (repeat 1 300)) (firstn 256 (repeat 2 256)) /\
  _poly_sub 256 3329 (repeat 1 300) (repeat 2 256)
  = _poly_sub 256 3329 (firstn 256 (repeat 1 300)) (firstn 256 (repeat 2 256)).
Proof.
  apply (poly_add_ignores_extra_coefficients 256 3329 (repeat 1 300) (repeat 2 256));
    rewrite repeat_length; lia.
Defined.

(** ** crypto/signatures.py *)

(** X15: for every seed, [_sample_in_ball(seed, TAU)] of signatures.py
    returns a polynomial of [N] coefficients in which exactly [TAU] are
    nonzero, each of them 1 or -1. *)
Theorem signatures_challenge_has_tau_signs (seed : bytes) :
  exists c,
    Signatures._sample_in_ball seed Signatures.TAU = Ok c /\
    length c = Signatures.N /\ ternary c /\ nonzeros c = Signatures.TAU.
Proof. apply SignaturesBall.sample_in_ball_exactly_tau. Qed.

(** X16: [verify] of signatures.py returns [False] on every signature whose
    unpacked response vector has infinity norm at least [GAMMA1 - BETA],
    whatever the message and the public key. *)
Theorem signatures_verify_rejects_a_large_response
        (message signature pk c_tilde : bytes) (z : list (list Z)) (h : list Z) :
  Signatures._unpack_signature signature = Ok (c_tilde, z, h) ->
  Signatures.GAMMA1 - Signatures.BETA <= Signatures._infinity_norm z ->
  Signatures.verify message signature pk = Ok false.
Proof. apply signatures_verify_rejects_out_of_bound. Qed.

Lemma signatures_verify_rejects_a_large_response_witness :
  Signatures.verify [] out_of_bound_sig [] = Ok false.
Proof.
  apply (signatures_verify_rejects_a_large_response [] out_of_bound_sig []
           (repeat x00 32)
           ((2147483647 :: repeat 0 255) :: repeat (repeat 0 256) 3)
           (repeat 0 1024)).
  - vm_compute. reflexivity.
  - vm_compute. discriminate.
Defined.

(** X17: [sign] of signatures.py never returns a signature.  For every
    message and private key, no number of loop iterations ends in a
    returned value; the call ends, after at most 65536 rejected candidates,
    by raising [TypeError] (the unary minus applied to the list [c]) or
    [OverflowError] (the nonce no longer fits two bytes). *)
Theorem signatures_sign_never_returns_a_signature (message sk : bytes) :
  (forall fuel sig, Signatures.sign fuel message sk <> finished (Ok sig)) /\
  exists (n : nat) (e : exn),
    Z.of_nat n <= 65536 /\
    Signatures.sign (S n) message sk = finished (Raise e) /\
    (e = TypeError \/ e = OverflowError).
Proof.
  pose proof (SignaturesSigning.unpack_private_key_shapes sk) as Hs.
  unfold Signatures.sign.
  destruct (Signatures._unpack_private_key sk) as [[[[rho K_seed] s1] s2] t].
  destruct Hs as [Hs1 Hs2]. split.
  - intros fuel sig. apply SignaturesSigning.loop_never_returns; [assumption | assumption | lia].
  - assert (Hfuel : exists fuel : nat, Z.of_nat fuel = 65536).
    { exists (Z.to_nat 65536). apply Z2Nat.id. discriminate. }
    destruct Hfuel as (fuel & Hfuel).
    destruct (SignaturesSigning.loop_raises rho K_seed s1 s2 (Signatures._sha3_256 message)
                Hs1 Hs2 fuel 0) as (n & e & Hn & Hl & He); [lia | lia |].
    exists n, e. split; [lia|]. split; [exact Hl | exact He].
Qed.

(** X18: [_sample_mask(seed, l)] of signatures.py returns, for [l <= 256],
    [l] polynomials of [N] coefficients, every coefficient in
    [[-GAMMA1, GAMMA1)]. *)
Theorem signatures_mask_is_in_range (seed : bytes) (l : nat) :
  (l <= 256)%nat ->
  exists y,
    Signatures._sample_mask seed l = Ok y /\
    is_vec Signatures.N l y /\
    coeffs_between (- Signatures.GAMMA1) Signatures.GAMMA1 y.
Proof. apply SignaturesSigning.sample_mask_range. Qed.

Lemma signatures_mask_is_in_range_witness :
  exists y,
    Signatures._sample_mask [] 4 = Ok y /\
    is_vec Signatures.N 4 y /\
    coeffs_between (- Signatures.GAMMA1) Signatures.GAMMA1 y.
Proof. apply (signatures_mask_is_in_range [] 4). lia. Defined.

(** X19: [_infinity_norm] returns the largest absolute value of a
    coefficient of the vector: it is at least every [abs(coeff)], and it is
    0 or the absolute value of some coefficient. *)
Theorem infinity_norm_is_the_largest_absolute_value (v : list (list Z)) :
  0 <= Signatures._infinity_norm v /\
  (forall p c, In p v -> In c p -> Z.abs c <= Signatures._infinity_norm v) /\
  (Signatures._infinity_norm v = 0 \/
   exists p c, In p v /\ In c p /\ Z.abs c = Signatures._infinity_norm v).
Proof. rewrite infinity_norm_max_abs. apply max_abs_attained. Qed.

(** ** crypto/quantum_signatures.py *)

(** X20: [verify] of quantum_signatures.py returns [False] on every
    signature whose unpacked response vector is within the bound, that is
    with every [abs(coeff) < GAMMA1 - BETA], whatever the message and the
    public key. *)
Theorem quantum_verify_rejects_a_response_within_the_bound
        (message signature public_key : bytes) :
  QuantumSignatures._check_bounds
    (snd (QuantumSignatures._unpack_signature signature))
    (QuantumSignatures.GAMMA1 - QuantumSignatures.BETA) = false ->
  QuantumSignatures.verify message signature public_key = Ok false.
Proof. apply QuantumSigning.verify_in_bound. Qed.

Lemma quantum_verify_rejects_a_response_within_the_bound_witness :
  QuantumSignatures.verify [] (repeat x00 3328) [] = Ok false.
Proof.
  apply (quantum_verify_rejects_a_response_within_the_bound [] (repeat x00 3328) []).
  vm_compute. reflexivity.
Defined.

(** X21: the rejection loop of [sign] of quantum_signatures.py makes no
    progress: for every message and private key, running any number of
    iterations gives what the first iteration gives.  The nonce is never
    incremented, so every later candidate is the first one again, and a
    call whose first candidate is rejected never returns. *)
Theorem quantum_sign_is_decided_by_its_first_pass
        (message private_key : bytes) (fuel : nat) :
  QuantumSignatures.sign (S fuel) message private_key
  = QuantumSignatures.sign 1 message private_key.
Proof. apply QuantumSigning.sign_one_pass. Qed.

Lemma nth_map_in_range {A B : Type} (f : A -> B) (l : list A) (i : nat) (d : B) (d' : A) :
  (i < length l)%nat -> nth i (map f l) d = f (nth i l d').
Proof.
  revert i. induction l as [|x l IH]; intros [|i] H; cbn [length] in H; try lia.
  - reflexivity.
  - cbn [map nth]. apply IH. lia.
Qed.

(** X22: [keygen] of quantum_signatures.py raises [OverflowError] whenever
    one of the sampled secret polynomials has a coefficient [(a - b) % Q]
    with [a < b], that is [Q - 1] or [Q - 2]: [_pack_private_key] writes
    the secret coefficients with [to_bytes(2, 'little', signed=True)]. *)
Theorem quantum_keygen_overflows_on_a_negative_secret (seed : bytes) :
  has_negative
    (QuantumSignatures._sample_in_ball
       (firstn 32 (QuantumSignatures._shake256 (seed ++ [x01]) 64)) QuantumSignatures.L)
  || has_negative
       (QuantumSignatures._sample_in_ball
          (skipn 32 (QuantumSignatures._shake256 (seed ++ [x01]) 64)) QuantumSignatures.K)
  = true ->
  QuantumSignatures.keygen seed = Raise OverflowError.
Proof. apply QuantumKeys.keygen_overflow. Qed.

Lemma quantum_keygen_overflows_on_a_negative_secret_witness :
  QuantumSignatures.keygen (repeat x00 32) = Raise OverflowError.
Proof.
  apply (quantum_keygen_overflows_on_a_negative_secret (repeat x00 32)).
  vm_compute. reflexivity.
Defined.

(** X23: [_expand_matrix] of quantum_signatures.py never raises, and every
    coefficient of the [K] by [L] matrix it returns is below 4096: the
    sampler draws 12-bit candidates, all of them below [Q = 8380417]. *)
Theorem quantum_matrix_coefficients_have_12_bits (rho : bytes) :
  exists A,
    QuantumSignatures._expand_matrix rho = Ok A /\
    is_matrix QuantumSignatures.N QuantumSignatures.K QuantumSignatures.L A /\
    Forall (coeffs_below 4096) A.
Proof. apply QuantumKeys.expand_matrix_12_bits. Qed.

(** X24: [_sample_mask] of quantum_signatures.py never raises and returns
    [L] polynomials of [N] coefficients, every coefficient in
    [[-GAMMA1, GAMMA1]]. *)
Theorem quantum_mask_is_in_range (seed : bytes) :
  exists y,
    QuantumSignatures._sample_mask seed = Ok y /\
    is_vec QuantumSignatures.N QuantumSignatures.L y /\
    coeffs_between (- QuantumSignatures.GAMMA1) (QuantumSignatures.GAMMA1 + 1) y.
Proof. apply QuantumSigning.gamma1_mask_range. Qed.

(** X25: the high and low parts of quantum_signatures.py do not recompose:
    for the coefficient [c] at any index of a polynomial, with [h] and [l]
    the coefficients of [_decompose_high] and [_decompose_low] at that
    index, [l] is in [[-GAMMA2, GAMMA2)] and [2 * GAMMA2 * h + l] is
    [c - GAMMA2] or [c + GAMMA2], never [c]. *)
Theorem quantum_decomposition_is_off_by_gamma2 (poly : list Z) (i : nat) :
  (i < length poly)%nat ->
  let c := nth i poly 0 in
  let h := nth i (QuantumSignatures._decompose_high poly) 0 in
  let l := nth i (QuantumSignatures._decompose_low poly) 0 in
  - QuantumSignatures.GAMMA2 <= l < QuantumSignatures.GAMMA2 /\
  (2 * QuantumSignatures.GAMMA2 * h + l = c - QuantumSignatures.GAMMA2 \/
   2 * QuantumSignatures.GAMMA2 * h + l = c + QuantumSignatures.GAMMA2) /\
  2 * QuantumSignatures.GAMMA2 * h + l <> c.
Proof.
  intro Hi. cbv zeta.
  unfold QuantumSignatures._decompose_high, QuantumSignatures._decompose_low.
  rewrite (nth_map_in_range _ poly i 0 0 Hi), (nth_map_in_range _ poly i 0 0 Hi).
  pose proof (QuantumSigning.decompose_off_by_gamma2 (nth i poly 0)) as H.
  cbv zeta in H. destruct H as [Hl Hs]. split; [exact Hl|]. split; [exact Hs|].
  assert (0 < QuantumSignatures.GAMMA2) by reflexivity. lia.
Qed.

Lemma quantum_decomposition_is_off_by_gamma2_witness :
  let c := nth 0 [190464] 0 in
  let h := nth 0 (QuantumSignatures._decompose_high [190464]) 0 in
  let l := nth 0 (QuantumSignatures._decompose_low [190464]) 0 in
  - QuantumSignatures.GAMMA2 <= l < QuantumSignatures.GAMMA2 /\
  (2 * QuantumSignatures.GAMMA2 * h + l = c - QuantumSignatures.GAMMA2 \/
   2 * QuantumSignatures.GAMMA2 * h + l = c + QuantumSignatures.GAMMA2) /\
  2 * QuantumSignatures.GAMMA2 * h + l <> c.
Proof.
  apply (quantum_decomposition_is_off_by_gamma2 [190464] 0). cbn [length]. lia.
Defined.

(** X26: packing then unpacking a public key of quantum_signatures.py is
    the identity, for a 32-byte [rho] and a vector [t] of [K] polynomials
    of [N] coefficients in [[0, 2^24)]; the packed key has 3104 bytes. *)
Theorem quantum_public_key_round_trip (rho : bytes) (t : list (list Z)) :
  length rho = 32%nat -> is_vec QuantumSignatures.N QuantumSignatures.K t ->
  coeffs_below 16777216 t ->
  exists pk,
    QuantumSignatures._pack_public_key rho t = Ok pk /\ length pk = 3104%nat /\
    QuantumSignatures._unpack_public_key pk = (rho, t).
Proof. apply QuantumSigning.packed_public_key_codec. Qed.

Lemma quantum_public_key_round_trip_witness :
  exists pk,
    QuantumSignatures._pack_public_key (repeat x07 32) (repeat (repeat 8380416 256) 4)
    = Ok pk /\
    length pk = 3104%nat /\
    QuantumSignatures._unpack_public_key pk
    = (repeat x07 32, repeat (repeat 8380416 256) 4).
Proof.
  apply (quantum_public_key_round_trip (repeat x07 32) (repeat (repeat 8380416 256) 4)).
  - reflexivity.
  - apply is_vec_repeat.
  - apply Forall_repeat. apply Forall_repeat. lia.
Defined.

(** X27: packing then unpacking a signature of quantum_signatures.py is the
    identity, for a challenge [c] of [N] coefficients in [[-128, 128)] and a
    response [z] of [L] polynomials of [N] coefficients in
    [[-2^23, 2^23)]; the packed signature has 3328 bytes. *)
Theorem quantum_signature_round_trip (c : list Z) (z : list (list Z)) :
  length c = QuantumSignatures.N -> Forall (fun x => -128 <= x < 128) c ->
  is_vec QuantumSignatures.N QuantumSignatures.L z ->
  coeffs_between (-8388608) 8388608 z ->
  exists sig,
    QuantumSignatures._pack_signature c z = Ok sig /\ length sig = 3328%nat /\
    QuantumSignatures._unpack_signature sig = (c, z).
Proof. apply QuantumSigning.signature_codec. Qed.

Lemma quantum_signature_round_trip_witness :
  exists sig,
    QuantumSignatures._pack_signature (repeat (-1) 256) (repeat (repeat (-130993) 256) 4)
    = Ok sig /\
    length sig = 3328%nat /\
    QuantumSignatures._unpack_signature sig
    = (repeat (-1) 256, repeat (repeat (-130993) 256) 4).
Proof.
  apply (quantum_signature_round_trip (repeat (-1) 256)
           (repeat (repeat (-130993) 256) 4)).
  - reflexivity.
  - apply Forall_repeat. lia.
  - apply is_vec_repeat.
  - apply Forall_repeat. apply Forall_repeat. lia.
Defined.

(** ** Blocks and transactions *)


(** X29: the Merkle root does not tell an odd list of three or more
    transactions from the same list with its last transaction repeated:
    [Block.calculate_merkle_root] returns the same root for both. *)
Theorem merkle_root_ignores_a_repeated_last_transaction
        (float : Type) (transactions : list (Transaction float)) (tx : Transaction float) :
  Nat.even (length transactions) = true -> (0 < length transactions)%nat ->
  exists root,
    calculate_merkle_root float (length transactions + 2) (transactions ++ [tx])
    = finished (Ok root) /\
    calculate_merkle_root float (length transactions + 2) (transactions ++ [tx; tx])
    = finished (Ok root).
Proof.
  intros He Hl.
  assert (E2 : merkle_loop (length transactions + 2)
                 (map (transaction_hash float) (transactions ++ [tx; tx]))
               = merkle_loop (length transactions + 2)
                   (map (transaction_hash float) (transactions ++ [tx]))).
  { rewrite !map_app. cbn [map]. apply merkle_loop_duplicate_last.
    - rewrite length_map. exact He.
    - rewrite length_map. exact Hl. }
  destruct (merkle_loop_total (length transactions + 2)
              (map (transaction_hash float) (transactions ++ [tx]))) as (root & E).
  { rewrite length_map, length_app. cbn [length]. lia. }
  exists root. unfold calculate_merkle_root.
  destruct transactions as [|t0 ts]; [cbn [length] in Hl; lia|].
  cbn [app]. cbn [app] in E, E2. rewrite E2, E. split; reflexivity.
Qed.

Lemma merkle_root_ignores_a_repeated_last_transaction_witness :
  exists root,
    calculate_merkle_root unit (length [forged_tx; forged_tx] + 2)
      ([forged_tx; forged_tx] ++ [forged_tx])
    = finished (Ok root) /\
    calculate_merkle_root unit (length [forged_tx; forged_tx] + 2)
      ([forged_tx; forged_tx] ++ [forged_tx; forged_tx])
    = finished (Ok root).
Proof.
  apply (merkle_root_ignores_a_repeated_last_transaction unit
           [forged_tx; forged_tx] forged_tx).
  - reflexivity.
  - cbn [length]. lia.
Defined.


